(** * CipherGuard DAO: the secret-sharing engine and its orchestration

    A shallow embedding of [src/services/cryptoService.ts], the constants of
    [constants.ts] and the recovery / configuration handlers of [App.tsx],
    followed by the properties the design document states about them.

    Conventions of the embedding:
    - a JavaScript [bigint] is a [Z]; [/] and [%] on bigints truncate towards
      zero, so they are [Z.quot] and [Z.rem];
    - a JavaScript string is a [string] whose characters are code units
      (the 8-bit range is all the code here ever produces);
    - an [ArrayBuffer] / [Uint8Array] is a [list byte];
    - a function that may throw returns an [outcome]. *)

From Stdlib Require Import ZArith NArith Znumtheory List Ascii String Bool Lia.
From Stdlib Require Import Permutation HexString DecimalString.
From Stdlib.Strings Require Import Byte.
From Stdlib Require Import Morphisms Setoid.
From Stdlib.Lists Require Import Finite.
Import ListNotations.

#[local] Set Warnings "-deprecated".

Local Open Scope string_scope.
Local Open Scope Z_scope.

(* ================================================================== *)
(** * Outcomes of JavaScript computations *)
(* ================================================================== *)

(** The exceptions the modelled code can raise. *)
Inductive JsError : Type :=
| SyntaxError            (* BigInt(text) on text that is no integer literal *)
| RangeError             (* bigint division by zero *)
| InvalidCharacterError  (* atob on text that is not base64 *)
| OperationError.        (* a WebCrypto operation rejected *)

(** [OutOfFuel] marks a loop cut off by its fuel; the loops below are proved
    never to produce it ([modInverse_never_OutOfFuel]). *)
Inductive outcome (A : Type) : Type :=
| Ok (a : A)
| Throw (e : JsError)
| OutOfFuel.

Arguments Ok {A} a.
Arguments Throw {A} e.
Arguments OutOfFuel {A}.

Definition bind {A B : Type} (c : outcome A) (k : A -> outcome B) : outcome B :=
  match c with
  | Ok a => k a
  | Throw e => Throw e
  | OutOfFuel => OutOfFuel
  end.

Notation "x <- c ;; k" := (bind c (fun x => k))
  (at level 61, c at next level, right associativity).

(** [array.map(f)] for an [f] that may throw: left to right, the first
    exception aborts the whole map. *)
Fixpoint mapM {A B : Type} (f : A -> outcome B) (l : list A) : outcome (list B) :=
  match l with
  | [] => Ok []
  | a :: l' => b <- f a ;; bs <- mapM f l' ;; Ok (b :: bs)
  end.

(* ================================================================== *)
(** * JavaScript built-ins used by the service *)
(* ================================================================== *)

(** ** Characters *)

Definition isHexDigit (c : ascii) : bool :=
  match ascii_to_digit c with Some _ => true | None => false end.

(** WhiteSpace and LineTerminator code units below U+0100:
    TAB, LF, VT, FF, CR, SP and NBSP. *)
Definition isWhiteSpace (c : ascii) : bool :=
  let n := N_of_ascii c in
  ((9 <=? n) && (n <=? 13) || (n =? 32) || (n =? 160))%N.

Fixpoint allWhiteSpace (s : string) : bool :=
  match s with
  | "" => true
  | String c r => isWhiteSpace c && allWhiteSpace r
  end.

(** ** [BigInt("0x" + h)]

    StringToBigInt accepts [0x] followed by one or more hexadecimal digits
    (either case) and optional trailing white space; anything else is a
    SyntaxError.  [scanHex h acc seen] reads [h] after the [0x] prefix. *)
Fixpoint scanHex (h : string) (acc : N) (seen : bool) : option N :=
  match h with
  | "" => if seen then Some acc else None
  | String c r =>
      match ascii_to_digit c with
      | Some v => scanHex r (v + 16 * acc)%N true
      | None => if seen && allWhiteSpace h then Some acc else None
      end
  end.

Definition BigInt0x (h : string) : outcome Z :=
  match scanHex h 0%N false with
  | Some n => Ok (Z.of_N n)
  | None => Throw SyntaxError
  end.

(** ** [BigInt.prototype.toString(16)] and [Number.prototype.toString(16)]
    on integers: lowercase digits, no leading zeros, a minus sign first for a
    negative value. *)
Definition toString16 (z : Z) : string :=
  match z with
  | Z0 => "0"
  | Zpos p => Raw.of_pos p ""
  | Zneg p => String "-" (Raw.of_pos p "")
  end.

(** [String(n)] for an integer [n] (template literals). *)
Definition toString10 (z : Z) : string := NilZero.string_of_int (Z.to_int z).

(** ** [String.prototype.split(sep)] for a one-character separator.
    The result is never empty: [''.split('-')] is [['']]. *)
Fixpoint split (sep : ascii) (s : string) : list string :=
  match s with
  | "" => [""]
  | String c r =>
      if Ascii.eqb c sep then "" :: split sep r
      else match split sep r with
           | h :: t => String c h :: t
           | [] => [String c ""]
           end
  end.

(** ["0x" + part] where [part] comes out of an array destructuring: a missing
    element is [undefined], which concatenates as the text "undefined". *)
Definition orUndefined (part : option string) : string :=
  match part with
  | Some s => s
  | None => "undefined"
  end.

(** ** [String.prototype.trim] *)
Fixpoint trimStart (s : string) : string :=
  match s with
  | "" => ""
  | String c r => if isWhiteSpace c then trimStart r else s
  end.

Definition reverse (s : string) : string :=
  string_of_list_ascii (rev (list_ascii_of_string s)).

Definition trimEnd (s : string) : string := reverse (trimStart (reverse s)).

Definition trim (s : string) : string := trimEnd (trimStart s).

(** ** [String.prototype.padStart(2, "0")] *)
Definition padStart2 (s : string) : string :=
  match s with
  | "" => "00"
  | String c "" => String "0" s
  | _ => s
  end.

(* ================================================================== *)
(** * constants.ts *)
(* ================================================================== *)

(** [export const PRIME_MODULUS = (2n ** 521n) - 1n;] *)
Definition PRIME_MODULUS : Z := 2 ^ 521 - 1.

Definition MAX_SHARES : Z := 10.
Definition MIN_SHARES : Z := 2.

(* ================================================================== *)
(** * types.ts *)
(* ================================================================== *)

Record Share : Type := mkShare {
  id : Z;
  data : string   (* "x-y", both in hexadecimal *)
}.

Record AppConfig : Type := mkConfig {
  totalShares : Z;  (* n *)
  threshold : Z     (* k *)
}.

Definition DEFAULT_CONFIG : AppConfig :=
  {| totalShares := 5; threshold := 3 |}.

(* ================================================================== *)
(** * services/cryptoService.ts: utilities *)
(* ================================================================== *)

Definition byteToZ (b : byte) : Z := Z.of_N (Byte.to_N b).

(** [bufferToHex]: every byte as two lowercase hex digits, joined. *)
Definition bufferToHex (buffer : list byte) : string :=
  String.concat "" (map (fun b => padStart2 (toString16 (byteToZ b))) buffer).

(** A store [bytes[i] = v] into a typed array: out of range it does nothing. *)
Fixpoint setAt {A : Type} (l : list A) (i : nat) (v : A) : list A :=
  match l, i with
  | [], _ => []
  | _ :: t, O => v :: t
  | h :: t, S i' => h :: setAt t i' v
  end.

(** The value a [Uint8Array] keeps of a number: [NaN] becomes 0, an
    integer is taken modulo 256. *)
Definition toUint8 (v : option Z) : byte :=
  match v with
  | None => x00
  | Some z => match Byte.of_N (Z.to_N (z mod 256)) with
              | Some b => b
              | None => x00
              end
  end.

(** [parseInt(text, 16)]: leading white space, a sign, a [0x] prefix, then
    the longest run of hex digits; [None] is [NaN]. *)
Fixpoint hexPrefix (s : string) (acc : N) (seen : bool) : option N :=
  match s with
  | "" => if seen then Some acc else None
  | String c r =>
      match ascii_to_digit c with
      | Some v => hexPrefix r (v + 16 * acc)%N true
      | None => if seen then Some acc else None
      end
  end.

Definition parseInt16 (text : string) : option Z :=
  let S := trimStart text in
  let (sign, S) :=
    match S with
    | String "-" r => (-1, r)
    | String "+" r => (1, r)
    | _ => (1, S)
    end in
  let S :=
    match S with
    | String "0" (String "x" r) => r
    | String "0" (String "X" r) => r
    | _ => S
    end in
  match hexPrefix S 0%N false with
  | Some n => Some (sign * Z.of_N n)
  | None => None
  end.

(** [hexToBuffer]: [hex.length / 2] bytes (the fraction is dropped), then for
    [i = 0, 2, 4, ...] below [hex.length] the store
    [bytes[i / 2] = parseInt(hex.substring(i, i + 2), 16)]. *)
Definition hexToBuffer (hex : string) : list byte :=
  let bytes := repeat x00 (String.length hex / 2) in
  fold_left
    (fun bytes j =>
       let i := (2 * j)%nat in
       setAt bytes (i / 2) (toUint8 (parseInt16 (substring i 2 hex))))
    (seq 0 ((String.length hex + 1) / 2)) bytes.

(** ** [btoa] and [atob] (the platform's base64) *)

Definition b64Alphabet : string :=
  "ABCDEFGHIJKLMNOPQRSTUVWXYZabcdefghijklmnopqrstuvwxyz0123456789+/".

Definition b64Char (v : N) : ascii :=
  match String.get (N.to_nat v) b64Alphabet with
  | Some c => c
  | None => "="%char
  end.

Fixpoint b64IndexIn (alphabet : string) (c : ascii) (i : N) : option N :=
  match alphabet with
  | "" => None
  | String a r => if Ascii.eqb a c then Some i else b64IndexIn r c (i + 1)%N
  end.

Definition b64Index (c : ascii) : option N := b64IndexIn b64Alphabet c 0%N.

(** [btoa] on a binary string (every code unit below 256, which the
    character type already guarantees, so it cannot throw here). *)
Fixpoint btoa (binary : string) : string :=
  match binary with
  | "" => ""
  | String a "" =>
      let a := N_of_ascii a in
      String (b64Char (a / 4)) (String (b64Char (a mod 4 * 16)) "==")%N
  | String a (String b "") =>
      let a := N_of_ascii a in
      let b := N_of_ascii b in
      String (b64Char (a / 4))
        (String (b64Char (a mod 4 * 16 + b / 16))
           (String (b64Char (b mod 16 * 4)) "="))%N
  | String a (String b (String c r)) =>
      let a := N_of_ascii a in
      let b := N_of_ascii b in
      let c := N_of_ascii c in
      String (b64Char (a / 4))
        (String (b64Char (a mod 4 * 16 + b / 16))
           (String (b64Char (b mod 16 * 4 + c / 64))
              (String (b64Char (c mod 64)) (btoa r))))%N
  end.

(** ASCII white space of the forgiving-base64 decoder: TAB, LF, FF, CR, SP. *)
Definition isAsciiWhitespace (c : ascii) : bool :=
  let n := N_of_ascii c in
  ((n =? 9) || (n =? 10) || (n =? 12) || (n =? 13) || (n =? 32))%N.

Fixpoint removeWhitespace (s : string) : string :=
  match s with
  | "" => ""
  | String c r =>
      if isAsciiWhitespace c then removeWhitespace r
      else String c (removeWhitespace r)
  end.

(** One or two ['='] at the end are dropped. *)
Definition stripPadding (s : string) : string :=
  match rev (list_ascii_of_string s) with
  | "="%char :: "="%char :: r => string_of_list_ascii (rev r)
  | "="%char :: r => string_of_list_ascii (rev r)
  | _ => s
  end.

Fixpoint b64Indices (s : string) : option (list N) :=
  match s with
  | "" => Some []
  | String c r =>
      match b64Index c, b64Indices r with
      | Some i, Some l => Some (i :: l)
      | _, _ => None
      end
  end.

(** Four sextets give three bytes; a tail of three gives two bytes and a
    tail of two gives one, the bits left over being discarded. *)
Fixpoint b64Decode (l : list N) : string :=
  match l with
  | a :: b :: c :: d :: r =>
      String (ascii_of_N (a * 4 + b / 16))
        (String (ascii_of_N (b mod 16 * 16 + c / 4))
           (String (ascii_of_N (c mod 4 * 64 + d)) (b64Decode r)))%N
  | [a; b; c] =>
      String (ascii_of_N (a * 4 + b / 16))
        (String (ascii_of_N (b mod 16 * 16 + c / 4)) "")%N
  | [a; b] => String (ascii_of_N (a * 4 + b / 16)%N) ""
  | _ => ""
  end.

Definition atob (data : string) : outcome string :=
  let data := removeWhitespace data in
  let data :=
    if Nat.eqb (String.length data mod 4) 0 then stripPadding data else data in
  if Nat.eqb (String.length data mod 4) 1 then Throw InvalidCharacterError
  else
    match b64Indices data with
    | Some l => Ok (b64Decode l)
    | None => Throw InvalidCharacterError
    end.

(** [bufferToBase64]: the bytes appended one by one as characters, then
    [btoa]. *)
Definition bufferToBase64 (buffer : list byte) : string :=
  let binary :=
    fold_left (fun binary b => binary ++ String (ascii_of_byte b) "")%string
      buffer "" in
  btoa binary.

(** [base64ToBuffer]: [atob], then [bytes[i] = binary_string.charCodeAt(i)]
    for every index. *)
Definition charCodeAt (s : string) (i : nat) : option Z :=
  match String.get i s with
  | Some c => Some (Z.of_N (N_of_ascii c))
  | None => None
  end.

Definition base64ToBuffer (base64 : string) : outcome (list byte) :=
  binary_string <- atob base64 ;;
  let len := String.length binary_string in
  let bytes := repeat x00 len in
  Ok (fold_left
        (fun bytes i => setAt bytes i (toUint8 (charCodeAt binary_string i)))
        (seq 0 len) bytes).

(* ================================================================== *)
(** * services/cryptoService.ts: Shamir's secret sharing *)
(* ================================================================== *)

(** The secure random source: an unbounded supply of bytes.
    [getRandomValues len] fills an array of [len] bytes and leaves the rest. *)
Definition Entropy : Type := nat -> byte.

Definition getRandomValues (len : nat) (src : Entropy) : list byte * Entropy :=
  (map src (seq 0 len), fun i => src (len + i)%nat).

(** [randomBigInt]: 66 random bytes (528 bits) read as one hexadecimal
    number, reduced modulo the prime. *)
Definition randomBigInt (src : Entropy) : outcome (Z * Entropy) :=
  let (array, src') := getRandomValues 66 src in
  let hex := bufferToHex array in
  val <- BigInt0x hex ;;
  Ok (Z.rem val PRIME_MODULUS, src').

(** [evalPoly]: one pass over the coefficients, carrying the running sum and
    the running power of [x], both reduced at every step. *)
Definition evalPoly_step (x : Z) (st : Z * Z) (coeff : Z) : Z * Z :=
  let (result, powerOfX) := st in
  (Z.rem (result + coeff * powerOfX) PRIME_MODULUS,
   Z.rem (powerOfX * x) PRIME_MODULUS).

Definition evalPoly (coeffs : list Z) (x : Z) : Z :=
  fst (fold_left (evalPoly_step x) coeffs (0, 1)).

(** The first loop of [splitSecret]: [for (let i = 1; i < k; i++)] pushes one
    random coefficient per round; [rounds] is the number of rounds left. *)
Fixpoint pushRandomCoeffs (rounds : nat) (coeffs : list Z) (src : Entropy)
  : outcome (list Z * Entropy) :=
  match rounds with
  | O => Ok (coeffs, src)
  | S rounds' =>
      r <- randomBigInt src ;;
      pushRandomCoeffs rounds' (coeffs ++ [fst r])%list (snd r)
  end.

(** The second loop of [splitSecret]: one share per [i] in [1..n]. *)
Definition makeShare (coeffs : list Z) (i : Z) : Share :=
  let x := i in
  let y := evalPoly coeffs x in
  {| id := i; data := toString16 x ++ "-" ++ toString16 y |}.

Definition sharesOfCoeffs (coeffs : list Z) (n : Z) : list Share :=
  map (fun i => makeShare coeffs (Z.of_nat i)) (seq 1 (Z.to_nat n)).

Definition splitSecret (secretHex : string) (n k : Z) (src : Entropy)
  : outcome (list Share * Entropy) :=
  secret <- BigInt0x secretHex ;;
  cs <- pushRandomCoeffs (Z.to_nat (k - 1)) [secret] src ;;
  Ok (sharesOfCoeffs (fst cs) n, snd cs).

(** [modInverse]: the extended Euclidean loop [while (a > 1n)].
    A round with [m = 0] divides by zero. *)
Fixpoint modInverse_loop (fuel : nat) (a m x y : Z) : outcome Z :=
  match fuel with
  | O => OutOfFuel
  | S fuel' =>
      if 1 <? a then
        if m =? 0 then Throw RangeError
        else
          let q := Z.quot a m in
          modInverse_loop fuel' m (Z.rem a m) y (x - q * y)
      else Ok x
  end.

(** Rounds that are always enough for the loop to leave by itself. *)
Definition modInverse_fuel (a m : Z) : nat :=
  Z.to_nat (Z.log2 a + Z.log2 m) + 4.

Definition modInverse (a m : Z) : outcome Z :=
  let m0 := m in
  if m =? 1 then Ok 0
  else
    x <- modInverse_loop (modInverse_fuel a m) a m 1 0 ;;
    Ok (if x <? 0 then x + m0 else x).

Record Point : Type := mkPoint { px : Z; py : Z }.

(** [s.data.split('-')], destructured into its first two parts. *)
Definition parseShare (s : Share) : outcome Point :=
  let parts := split "-" (data s) in
  let xHex := nth_error parts 0 in
  let yHex := nth_error parts 1 in
  x <- BigInt0x (orUndefined xHex) ;;
  y <- BigInt0x (orUndefined yHex) ;;
  Ok {| px := x; py := y |}.

(** The inner loop over [m], skipping [m === j]: numerator and denominator of
    the Lagrange basis polynomial at zero. *)
Definition basis_step (points : list Point) (j : nat) (xj : Z)
    (st : Z * Z) (m : nat) : Z * Z :=
  let (numerator, denominator) := st in
  if Nat.eqb m j then st
  else
    let xm := px (nth m points (mkPoint 0 0)) in
    let numerator := Z.rem (numerator * xm) PRIME_MODULUS in
    let diff := Z.rem (xm - xj) PRIME_MODULUS in
    let diff := if diff <? 0 then diff + PRIME_MODULUS else diff in
    (numerator, Z.rem (denominator * diff) PRIME_MODULUS).

Definition basis (points : list Point) (j : nat) : Z * Z :=
  let xj := px (nth j points (mkPoint 0 0)) in
  fold_left (basis_step points j xj) (seq 0 (List.length points)) (1, 1).

(** The outer loop over [j]: add one term to [secret]. *)
Definition interpolate_step (points : list Point) (acc : outcome Z) (j : nat)
  : outcome Z :=
  secret <- acc ;;
  let yj := py (nth j points (mkPoint 0 0)) in
  let (numerator, denominator) := basis points j in
  invDenominator <- modInverse denominator PRIME_MODULUS ;;
  let term := Z.rem (yj * numerator * invDenominator) PRIME_MODULUS in
  Ok (Z.rem (secret + term) PRIME_MODULUS).

Definition interpolate (points : list Point) : outcome Z :=
  fold_left (interpolate_step points) (seq 0 (List.length points)) (Ok 0).

(** The output encoding: hexadecimal, one ['0'] in front when the digit
    count is odd. *)
Definition evenHex (secret : Z) : string :=
  let hex := toString16 secret in
  if Nat.eqb (Nat.modulo (String.length hex) 2) 0 then hex else String "0" hex.

Definition reconstructSecret (shares : list Share) : outcome string :=
  points <- mapM parseShare shares ;;
  secret <- interpolate points ;;
  let secret := if secret <? 0 then secret + PRIME_MODULUS else secret in
  Ok (evenHex secret).

(* ================================================================== *)
(** * App.tsx: state, recovery flow and configuration handlers *)
(* ================================================================== *)

Record EncryptedFile : Type := mkEncryptedFile {
  file_name : string;
  file_type : string;
  file_size : Z;
  file_data : string;  (* base64 of the encrypted data *)
  file_iv : string;    (* hex of the IV *)
  file_hash : string
}.

Inductive LogAction : Type :=
| UPLOAD | DISTRIBUTE_SHARES | RECOVERY_ATTEMPT
| RECOVERY_SUCCESS | RECOVERY_FAILED | CONFIG_CHANGE.

(** An audit record, without its random [id] and its [timestamp]. *)
Record AuditLog : Type := mkLog {
  action : LogAction;
  details : string;
  actor : string;
  fileHash : option string
}.

(** The part of the component state the recovery and configuration handlers
    read or write.  [recoveryShares] is the [Record<number, string>] of the
    share inputs, kept in ascending key order, the order [Object.values]
    enumerates integer keys in. *)
Record AppState : Type := mkState {
  config : AppConfig;
  logs : list AuditLog;
  encryptedFile : option EncryptedFile;
  recoveryShares : list (nat * string);
  recoveredFileUrl : option string;
  isRecovering : bool;
  recoveryError : option string
}.

Definition setConfig (c : AppConfig) (st : AppState) : AppState :=
  mkState c (logs st) (encryptedFile st) (recoveryShares st)
    (recoveredFileUrl st) (isRecovering st) (recoveryError st).

Definition setRecoveryShares (r : list (nat * string)) (st : AppState) : AppState :=
  mkState (config st) (logs st) (encryptedFile st) r
    (recoveredFileUrl st) (isRecovering st) (recoveryError st).

Definition setRecoveredFileUrl (u : option string) (st : AppState) : AppState :=
  mkState (config st) (logs st) (encryptedFile st) (recoveryShares st)
    u (isRecovering st) (recoveryError st).

Definition setIsRecovering (b : bool) (st : AppState) : AppState :=
  mkState (config st) (logs st) (encryptedFile st) (recoveryShares st)
    (recoveredFileUrl st) b (recoveryError st).

Definition setRecoveryError (e : option string) (st : AppState) : AppState :=
  mkState (config st) (logs st) (encryptedFile st) (recoveryShares st)
    (recoveredFileUrl st) (isRecovering st) e.

(** [addLog]: [setLogs(prev => [...prev, newLog])]. *)
Definition addLog (a : LogAction) (d : string) (who : string)
    (h : option string) (st : AppState) : AppState :=
  mkState (config st) (logs st ++ [mkLog a d who h])%list (encryptedFile st)
    (recoveryShares st) (recoveredFileUrl st) (isRecovering st)
    (recoveryError st).

(** [handleShareInput]: [{ ...prev, [index]: value }]. *)
Fixpoint putShare (index : nat) (value : string) (r : list (nat * string))
  : list (nat * string) :=
  match r with
  | [] => [(index, value)]
  | (i, v) :: r' =>
      if Nat.eqb index i then (index, value) :: r'
      else if Nat.ltb index i then (index, value) :: r
      else (i, v) :: putShare index value r'
  end.

Definition handleShareInput (index : nat) (value : string) (st : AppState)
  : AppState :=
  setRecoveryShares (putShare index value (recoveryShares st)) st.

Definition objectValues (r : list (nat * string)) : list string := map snd r.

(** The share list [processRecovery] builds: the inputs that are not blank,
    trimmed, each under [id: 0]. *)
Definition sharesList (st : AppState) : list Share :=
  map (fun s => {| id := 0; data := trim s |})
    (filter (fun s => negb (String.eqb (trim s) ""))
       (objectValues (recoveryShares st))).

(** The operations the recovery flow may call, to record which were. *)
Inductive Call : Type :=
| CallReconstructSecret (shares : list Share)
| CallImportKeyFromHex (hex : string)
| CallBase64ToBuffer (base64 : string)
| CallHexToBuffer (hex : string)
| CallDecryptFile (encryptedData iv : list byte).

(** A computation that may throw, together with the calls it made. *)
Definition Traced (A : Type) : Type := (list Call * outcome A)%type.

Definition ret {A : Type} (a : A) : Traced A := ([], Ok a).

Definition call {A : Type} (c : Call) (r : outcome A) : Traced A := ([c], r).

Definition tbind {A B : Type} (c : Traced A) (k : A -> Traced B) : Traced B :=
  match c with
  | (t, Ok a) => let (t', r) := k a in ((t ++ t')%list, r)
  | (t, Throw e) => (t, Throw e)
  | (t, OutOfFuel) => (t, OutOfFuel)
  end.

Notation "x <~ c ;; k" := (tbind c (fun x => k))
  (at level 61, c at next level, right associativity).

Section RecoveryFlow.

(** The platform's WebCrypto and URL services. *)
Variable CryptoKey : Type.
Variable importKey : list byte -> outcome CryptoKey.
Variable aesGcmDecrypt : CryptoKey -> list byte -> list byte -> outcome (list byte).
Variable createObjectURL : list byte -> string -> string.

Definition importKeyFromHex (hex : string) : outcome CryptoKey :=
  let buffer := hexToBuffer hex in
  importKey buffer.

Definition decryptFile (encryptedData iv : list byte) (key : CryptoKey)
  : outcome (list byte) :=
  aesGcmDecrypt key iv encryptedData.

(** The body of the [try] block: reconstruct, import, decode, decrypt,
    make the download link. *)
Definition recoverFile (file : EncryptedFile) (shares : list Share)
  : Traced string :=
  keyHex <~ call (CallReconstructSecret shares) (reconstructSecret shares) ;;
  key <~ call (CallImportKeyFromHex keyHex) (importKeyFromHex keyHex) ;;
  encryptedData <~ call (CallBase64ToBuffer (file_data file))
                     (base64ToBuffer (file_data file)) ;;
  iv <~ call (CallHexToBuffer (file_iv file)) (Ok (hexToBuffer (file_iv file))) ;;
  decryptedBuffer <~ call (CallDecryptFile encryptedData iv)
                       (decryptFile encryptedData iv key) ;;
  ret (createObjectURL decryptedBuffer (file_type file)).

(** [processRecovery], in the two revisions of the component.  They differ
    in their audit records only; [revised] selects the one of the second
    source file, which also logs a rejection. *)
Definition processRecoveryOf (revised : bool) (st : AppState)
  : list Call * outcome AppState :=
  match encryptedFile st with
  | None =>
      ([], Ok (setRecoveryError
                 (Some "No file is currently stored in the contract.") st))
  | Some file =>
      let shares := sharesList st in
      let count := Z.of_nat (List.length shares) in
      if count <? threshold (config st) then
        let st :=
          setRecoveryError
            (Some ("Need at least " ++ toString10 (threshold (config st))
                   ++ " shares. Provided: " ++ toString10 count)%string) st in
        let st :=
          if revised then
            addLog RECOVERY_FAILED
              ("Recovery rejected. Insufficient shares provided ("
               ++ toString10 count ++ "/"
               ++ toString10 (threshold (config st)) ++ ").")%string
              "ConsensusWrapper" None st
          else st in
        ([], Ok st)
      else
        let st := setIsRecovering true st in
        let st := setRecoveryError None st in
        let st :=
          addLog RECOVERY_ATTEMPT
            ((if revised then "Initiating reconstruction consensus with "
              else "Attempting reconstruction with ")
             ++ toString10 count ++ " shares.")%string
            "ConsensusWrapper" None st in
        match recoverFile file shares with
        | (t, Ok url) =>
            let st := setRecoveredFileUrl (Some url) st in
            let st :=
              addLog RECOVERY_SUCCESS
                (if revised then
                   ("Consensus reached. File decrypted successfully using "
                    ++ toString10 count ++ " shares.")%string
                 else "Key reconstructed and file decrypted successfully.")
                "ConsensusWrapper" (Some (file_hash file)) st in
            (t, Ok (setIsRecovering false st))
        | (t, Throw _) =>
            let st :=
              setRecoveryError
                (Some "Decryption failed. Shares might be invalid or incorrect key reconstructed.")
                st in
            let st :=
              if revised then
                addLog RECOVERY_FAILED
                  ("Recovery failed. The provided " ++ toString10 count
                   ++ " shares produced an invalid key.")%string "System" None st
              else
                addLog RECOVERY_ATTEMPT
                  "Reconstruction failed: Invalid key derived." "System" None st in
            (t, Ok (setIsRecovering false st))
        | (t, OutOfFuel) => (t, OutOfFuel)
        end
  end.

(** [processRecovery] of [App.tsx]. *)
Definition processRecovery : AppState -> list Call * outcome AppState :=
  processRecoveryOf false.

(** [processRecovery] of the second revision ([unnamed/part_000]). *)
Definition processRecovery_revised : AppState -> list Call * outcome AppState :=
  processRecoveryOf true.

End RecoveryFlow.

(** ** The two sliders of the management tab

    A range input only ever reports a value between its [min] and [max]. *)
Definition rangeInputValue (min max value : Z) : Prop := min <= value <= max.

(** [onChange] of the total-shares slider ([min = MIN_SHARES],
    [max = MAX_SHARES]); [value] is [parseInt(e.target.value)]. *)
Definition onChangeTotalShares (value : Z) (st : AppState) : AppState :=
  let n := value in
  let k := Z.min (threshold (config st)) n in
  let st := setConfig {| totalShares := n; threshold := k |} st in
  addLog CONFIG_CHANGE ("Updated Total Shares (n) to " ++ toString10 n)%string
    "Admin" None st.

(** [onChange] of the threshold slider ([min = 2],
    [max = config.totalShares]). *)
Definition onChangeThreshold (value : Z) (st : AppState) : AppState :=
  let k := value in
  let prev := config st in
  let st := setConfig {| totalShares := totalShares prev; threshold := k |} st in
  addLog CONFIG_CHANGE ("Updated Threshold (k) to " ++ toString10 k)%string
    "Admin" None st.

(** The invariant of the configuration. *)
Definition configInvariant (c : AppConfig) : Prop :=
  2 <= threshold c /\ threshold c <= totalShares c /\ totalShares c <= MAX_SHARES.

(* ================================================================== *)
(** * Specification-side definitions *)
(* ================================================================== *)

(** [sum over i of coeffs[i] * x^i], the exponent counted from [i]. *)
Fixpoint polySumFrom (i : nat) (coeffs : list Z) (x : Z) : Z :=
  match coeffs with
  | [] => 0
  | c :: r => c * x ^ Z.of_nat i + polySumFrom (S i) r x
  end.

Definition polySum (coeffs : list Z) (x : Z) : Z := polySumFrom 0 coeffs x.

(** Every character of [s] satisfies [f]. *)
Fixpoint allChars (f : ascii -> bool) (s : string) : bool :=
  match s with
  | "" => true
  | String c r => f c && allChars f r
  end.

(** The digits [toString(16)] writes. *)
Definition isLowerHexDigit (c : ascii) : bool :=
  let n := N_of_ascii c in
  ((48 <=? n) && (n <=? 57) || (97 <=? n) && (n <=? 102))%N.

(** The integer a string of hex digits denotes. *)
Definition hexValue (s : string) : Z := Z.of_N (Raw.to_N s 0%N).

(* ================================================================== *)
(** * Definitions used by the statements and their proofs *)
(* ================================================================== *)

(** The share the design prescribes for index [i]: [hex(i)], the delimiter,
    [hex(y)] with [y] the polynomial at [i] modulo the prime. *)
Definition shareOfPoly (coeffs : list Z) (i : Z) : Share :=
  {| id := i;
     data := toString16 i ++ "-" ++ toString16 (polySum coeffs i mod PRIME_MODULUS) |}.

(** The indices [1..n]. *)
Definition indices (n : Z) : list Z := map Z.of_nat (seq 1 (Z.to_nat n)).

Definition sampleSrc : Entropy := fun _ => x01.


(** The number of share inputs that are not blank. *)
Definition suppliedCount (st : AppState) : Z :=
  Z.of_nat (List.length
              (filter (fun s => negb (String.eqb (trim s) ""))
                 (objectValues (recoveryShares st)))).

Definition sampleFile : EncryptedFile :=
  {| file_name := "deed.pdf"; file_type := "application/pdf"; file_size := 3;
     file_data := "AQID"; file_iv := "000102030405060708090a0b";
     file_hash := "00" |}.

Definition sampleState : AppState :=
  {| config := DEFAULT_CONFIG; logs := [];
     encryptedFile := Some sampleFile;
     recoveryShares := [(0%nat, "1-5"); (1%nat, "  "); (2%nat, " 3-9 ")];
     recoveredFileUrl := None; isRecovering := false; recoveryError := None |}.

(** The ring [Z[sqrt 3]]: [(a, b)] stands for [a + b * sqrt 3]. *)
Definition qmul (u v : Z * Z) : Z * Z :=
  (fst u * fst v + 3 * (snd u * snd v), fst u * snd v + snd u * fst v).

Definition qone : Z * Z := (1, 0).

Definition omega : Z * Z := (2, 1).

Definition qconj (u : Z * Z) : Z * Z := (fst u, - snd u).

Definition qnorm (u : Z * Z) : Z := fst u * fst u - 3 * (snd u * snd u).

Fixpoint qpow (u : Z * Z) (n : nat) : Z * Z :=
  match n with
  | O => qone
  | S n' => qmul u (qpow u n')
  end.

(** Congruence of both components modulo [e]. *)
Definition qeqm (e : Z) (u v : Z * Z) : Prop :=
  eqm e (fst u) (fst v) /\ eqm e (snd u) (snd v).

(** The Lucas-Lehmer residues modulo [M]: 4, then [s * s - 2]. *)
Fixpoint residue (M : Z) (i : nat) : Z :=
  match i with
  | O => 4 mod M
  | S i' => let s := residue M i' in (s * s - 2) mod M
  end.

(** The same residues with the reduction modulo [2^p - 1] done by a mask
    and a shift, which is what makes the test cheap to run. *)
Definition mersenneReduce (p M x : Z) : Z :=
  let y := Z.land x M + Z.shiftr x p in
  if M <=? y then y - M else y.

Fixpoint fastResidue (p M : Z) (i : nat) : Z :=
  match i with
  | O => 4 mod M
  | S i' => let s := fastResidue p M i' in mersenneReduce p M (s * s + (M - 2))
  end.

(** The place of a pair among the [e * e] residues modulo [e]. *)
Definition qcode (e : Z) (u : Z * Z) : nat :=
  Z.to_nat ((fst u mod e) * e + snd u mod e).

(** The list without its element of index [j]. *)
Definition removeAt {A : Type} (j : nat) (l : list A) : list A :=
  (firstn j l ++ skipn (S j) l)%list.

Definition prodZ (l : list Z) : Z := fold_right Z.mul 1 l.

(** Numerator and denominator of the basis polynomial at zero, over the
    points other than the current one. *)
Definition numeratorOf (others : list Point) : Z :=
  prodZ (map px others) mod PRIME_MODULUS.

Definition denominatorOf (xj : Z) (others : list Point) : Z :=
  prodZ (map (fun o => (px o - xj) mod PRIME_MODULUS) others) mod PRIME_MODULUS.

(** What [modInverse] returns on [d]. *)
Definition inverseOf (d : Z) : Z :=
  match modInverse d PRIME_MODULUS with
  | Ok v => v
  | _ => 0
  end.

(** The term a point contributes, given the other points. *)
Definition lagrangeTerm (p : Point) (others : list Point) : Z :=
  py p * numeratorOf others * inverseOf (denominatorOf (px p) others).

(** The sum of the terms of the points of [l], each taken against all
    the other points of [pre ++ l]. *)
Fixpoint lagrangeSumFrom (pre l : list Point) : Z :=
  match l with
  | [] => 0
  | p :: r => lagrangeTerm p (pre ++ r) + lagrangeSumFrom (pre ++ [p]) r
  end.

Definition lagrangeSum (points : list Point) : Z := lagrangeSumFrom [] points.

(** The step of the inner loop once the index test is gone. *)
Definition basis_step_on (xj : Z) (st : Z * Z) (o : Point) : Z * Z :=
  let (numerator, denominator) := st in
  let xm := px o in
  let numerator := Z.rem (numerator * xm) PRIME_MODULUS in
  let diff := Z.rem (xm - xj) PRIME_MODULUS in
  let diff := if diff <? 0 then diff + PRIME_MODULUS else diff in
  (numerator, Z.rem (denominator * diff) PRIME_MODULUS).

Definition sumZ (l : list Z) : Z := fold_right Z.add 0 l.

(** The term of the point of index [j]. *)
Definition termAt (points : list Point) (j : nat) : Z :=
  lagrangeTerm (nth j points (mkPoint 0 0)) (removeAt j points).

(** The point a share parses to (a default where it does not parse). *)
Definition pointOf (s : Share) : Point :=
  match parseShare s with
  | Ok p => p
  | _ => mkPoint 0 0
  end.

Definition threeShares : list Share :=
  [mkShare 1 "1-1f"; mkShare 2 "2-a3"; mkShare 3 "3-1c5"].

Definition duplicateShares : list Share := [mkShare 1 "1-5"; mkShare 2 "1-7"].

(** Evaluation of a coefficient list, lowest degree first. *)
Fixpoint peval (f : list Z) (x : Z) : Z :=
  match f with
  | [] => 0
  | c :: r => c + x * peval r x
  end.

Fixpoint padd (f g : list Z) : list Z :=
  match f, g with
  | [], _ => g
  | _, [] => f
  | a :: f', b :: g' => (a + b) :: padd f' g'
  end.

Definition pscale (c : Z) (f : list Z) : list Z := map (Z.mul c) f.

(** [F] is a polynomial function with at most [k] coefficients. *)
Definition isPoly (k : nat) (F : Z -> Z) : Prop :=
  exists f, (List.length f <= k)%nat /\ forall x, F x = peval f x.

Definition coefOf (p : Point) (others : list Point) : Z :=
  py p * inverseOf (denominatorOf (px p) others).

(** The interpolating polynomial, as the code's sum with [0] replaced by
    the variable [X]. *)
Fixpoint lagrangePolyFrom (pre l : list Point) (X : Z) : Z :=
  match l with
  | [] => 0
  | p :: r =>
      coefOf p (pre ++ r) * prodZ (map (fun o => px o - X) (pre ++ r))
      + lagrangePolyFrom (pre ++ [p]) r X
  end.

(** The points a selection of shares of [sharesOfCoeffs] parses to. *)
Definition pointOfIndex (coeffs : list Z) (i : Z) : Point :=
  {| px := i; py := polySum coeffs i mod PRIME_MODULUS |}.

(** The six-bit groups [btoa] writes, before padding. *)
Fixpoint sextets (s : string) : list N :=
  match s with
  | "" => []
  | String a "" =>
      let a := N_of_ascii a in [a / 4; a mod 4 * 16]%N
  | String a (String b "") =>
      let a := N_of_ascii a in
      let b := N_of_ascii b in
      [a / 4; a mod 4 * 16 + b / 16; b mod 16 * 4]%N
  | String a (String b (String c r)) =>
      let a := N_of_ascii a in
      let b := N_of_ascii b in
      let c := N_of_ascii c in
      (a / 4 :: a mod 4 * 16 + b / 16 :: b mod 16 * 4 + c / 64 :: c mod 64
         :: sextets r)%N
  end.

Fixpoint btoaPad (s : string) : string :=
  match s with
  | "" => ""
  | String _ "" => "=="
  | String _ (String _ "") => "="
  | String _ (String _ (String _ r)) => btoaPad r
  end.

Definition isPad (c : ascii) : bool := Ascii.eqb c "=".



(* ================================================================== *)
(** * Definitions used by the further properties *)
(* ================================================================== *)

(** The integer a byte string denotes, most significant byte first. *)
Definition bytesValue (bytes : list byte) : Z :=
  fold_left (fun acc b => 256 * acc + byteToZ b) bytes 0.

(** The sixteen digits [toString(16)] writes. *)
Definition lowerHexChars : list ascii := list_ascii_of_string "0123456789abcdef".

(** A byte string without its leading zero bytes. *)
Fixpoint dropLeadingZeros (bytes : list byte) : list byte :=
  match bytes with
  | x00 :: r => dropLeadingZeros r
  | _ => bytes
  end.

(** The bytes [hexToBuffer] reads back from the even-length hexadecimal
    rendering of the number [bytes] denotes. *)
Definition minimalBytes (bytes : list byte) : list byte :=
  match dropLeadingZeros bytes with
  | [] => [x00]
  | r => r
  end.

(** The text starts with a hexadecimal digit other than ['0']. *)
Definition headNonzero (s : string) : bool :=
  match s with
  | String c _ =>
      match ascii_to_digit c with Some d => (0 <? d)%N | None => false end
  | "" => false
  end.



(** The text does not start with white space. *)
Definition startsClean (s : string) : Prop :=
  match s with
  | String c _ => isWhiteSpace c = false
  | "" => True
  end.

(** Moves of the two sliders of the management tab. *)
Inductive ConfigEvent : Type :=
| MoveTotalShares (value : Z)
| MoveThreshold (value : Z).

Definition applyEvent (st : AppState) (e : ConfigEvent) : AppState :=
  match e with
  | MoveTotalShares value => onChangeTotalShares value st
  | MoveThreshold value => onChangeThreshold value st
  end.

(** The value of every move lies between the [min] and [max] its slider
    has in the state the move happens in. *)
Fixpoint eventsAllowed (st : AppState) (events : list ConfigEvent) : Prop :=
  match events with
  | [] => True
  | e :: events' =>
      match e with
      | MoveTotalShares value => rangeInputValue MIN_SHARES MAX_SHARES value
      | MoveThreshold value => rangeInputValue 2 (totalShares (config st)) value
      end
      /\ eventsAllowed (applyEvent st e) events'
  end.

Definition runEvents (st : AppState) (events : list ConfigEvent) : AppState :=
  fold_left applyEvent events st.

(* ================================================================== *)
(** * components/AuditLogView.tsx *)
(* ================================================================== *)

(** The ledger as it is shown: [logs.slice().reverse().map((log, index) =>
    ...)], each entry under the number [logs.length - index]. *)
Definition auditBlocks (logs : list AuditLog) : list (Z * AuditLog) :=
  map (fun entry : nat * AuditLog =>
         let (index, log) := entry in
         (Z.of_nat (List.length logs) - Z.of_nat index, log))
    (combine (seq 0 (List.length logs)) (rev logs)).

(* ================================================================== *)
(** * App.tsx: the owner tab *)
(* ================================================================== *)

(** A [File] picked in the browser, with the bytes [arrayBuffer()] gives. *)
Record File : Type := mkFile {
  upload_name : string;
  upload_type : string;
  upload_size : Z;
  upload_content : list byte
}.

(** The state cells of the owner tab.  [isDistributionModalOpen] exists in
    the second revision of the component only. *)
Record OwnerState : Type := mkOwner {
  fileToUpload : option File;
  isEncrypting : bool;
  generatedShares : list Share;
  isDistributionModalOpen : bool
}.

Definition setFileToUpload (f : option File) (own : OwnerState) : OwnerState :=
  mkOwner f (isEncrypting own) (generatedShares own) (isDistributionModalOpen own).

Definition setIsEncrypting (b : bool) (own : OwnerState) : OwnerState :=
  mkOwner (fileToUpload own) b (generatedShares own) (isDistributionModalOpen own).

Definition setGeneratedShares (shares : list Share) (own : OwnerState) : OwnerState :=
  mkOwner (fileToUpload own) (isEncrypting own) shares (isDistributionModalOpen own).

Definition setIsDistributionModalOpen (b : bool) (own : OwnerState) : OwnerState :=
  mkOwner (fileToUpload own) (isEncrypting own) (generatedShares own) b.

Definition setEncryptedFile (f : option EncryptedFile) (st : AppState) : AppState :=
  mkState (config st) (logs st) f (recoveryShares st)
    (recoveredFileUrl st) (isRecovering st) (recoveryError st).

(** [handleFileUpload]: [files] is [e.target.files], [None] for [null]. *)
Definition handleFileUpload (files : option (list File))
    (own : OwnerState) (st : AppState) : OwnerState * AppState :=
  match files with
  | Some (file :: _) =>
      (setGeneratedShares [] (setFileToUpload (Some file) own),
       setEncryptedFile None st)
  | _ => (own, st)
  end.

(** What one run of [processEncryption] leaves behind: the two states, the
    text of the [alert] if one was shown, and the random source after the
    draws of a run that went through. *)
Record EncryptionRun : Type := mkRun {
  owner_after : OwnerState;
  state_after : AppState;
  alert : option string;
  source_after : option Entropy
}.

Section EncryptionFlow.

(** The platform's WebCrypto services. *)
Variable CryptoKey : Type.
Variable generateKey : outcome CryptoKey.
Variable exportKey : CryptoKey -> outcome (list byte).
Variable digestSHA256 : list byte -> outcome (list byte).
Variable aesGcmEncrypt : CryptoKey -> list byte -> list byte -> outcome (list byte).

Definition generateAESKey : outcome CryptoKey := generateKey.

Definition exportKeyToHex (key : CryptoKey) : outcome string :=
  exported <- exportKey key ;;
  Ok (bufferToHex exported).

(** [encryptFile]: a fresh 12-byte IV, the SHA-256 of the plain file in
    hexadecimal, and the AES-GCM ciphertext. *)
Definition encryptFile (file : File) (key : CryptoKey) (src : Entropy)
  : outcome ((list byte * list byte * string) * Entropy) :=
  let (iv, src) := getRandomValues 12 src in
  let fileBuffer := upload_content file in
  hashBuffer <- digestSHA256 fileBuffer ;;
  let hash := bufferToHex hashBuffer in
  encryptedData <- aesGcmEncrypt key iv fileBuffer ;;
  Ok ((encryptedData, iv, hash), src).

(** The body of the [try] block of [processEncryption], up to the state
    updates: generate, encrypt, export, split, build the stored record. *)
Definition encryptAndSplit (file : File) (cfg : AppConfig) (src : Entropy)
  : outcome ((EncryptedFile * list Share * string) * Entropy) :=
  key <- generateAESKey ;;
  encrypted <- encryptFile file key src ;;
  let '((encryptedData, iv, hash), src) := encrypted in
  keyHex <- exportKeyToHex key ;;
  drawn <- splitSecret keyHex (totalShares cfg) (threshold cfg) src ;;
  let (shares, src) := drawn in
  let encryptedFileObj :=
    {| file_name := upload_name file;
       file_type := upload_type file;
       file_size := upload_size file;
       file_data := bufferToBase64 encryptedData;
       file_iv := bufferToHex iv;
       file_hash := hash |} in
  Ok ((encryptedFileObj, shares, hash), src).

(** [processEncryption], in the two revisions of the component ([revised]
    selects the second, which words the audit record differently and opens
    the distribution dialog). *)
Definition processEncryptionOf (revised : bool)
    (own : OwnerState) (st : AppState) (src : Entropy) : outcome EncryptionRun :=
  match fileToUpload own with
  | None => Ok (mkRun own st None (Some src))
  | Some file =>
      let own := setIsEncrypting true own in
      match encryptAndSplit file (config st) src with
      | Ok ((encryptedFileObj, shares, hash), src) =>
          let st := setEncryptedFile (Some encryptedFileObj) st in
          let own := setGeneratedShares shares own in
          let st :=
            addLog UPLOAD
              (if revised then
                 ("File uploaded & encrypted. Original SHA-256 hash recorded on ledger. Generated "
                  ++ toString10 (totalShares (config st)) ++ " shares.")%string
               else
                 ("File encrypted. " ++ toString10 (totalShares (config st))
                  ++ " key shares generated.")%string)
              "Owner" (Some hash) st in
          let own := if revised then setIsDistributionModalOpen true own else own in
          Ok (mkRun (setIsEncrypting false own) st None (Some src))
      | Throw _ =>
          Ok (mkRun (setIsEncrypting false own) st (Some "Encryption failed.") None)
      | OutOfFuel => OutOfFuel
      end
  end.

End EncryptionFlow.

Definition sampleUpload : File :=
  {| upload_name := "deed.pdf"; upload_type := "application/pdf";
     upload_size := 3; upload_content := [x01; x02; x03] |}.

Definition sampleOwner : OwnerState :=
  {| fileToUpload := Some sampleUpload; isEncrypting := false;
     generatedShares := []; isDistributionModalOpen := false |}.

(** A stand-in for WebCrypto with which the flows can be run: keys are
    their raw bytes and the cipher leaves the data as it is. *)
Definition sampleRawKey : list byte := [x2a; x07].

(** ** The text of a share, as the design describes it

    A share text holds two hexadecimal integers separated by the
    delimiter.  The definitions below read the text character by
    character. *)






(** ** The two range inputs as the page declares them

    [<input type="range" min=... max=... value=... onChange=... />] *)
Record RangeInput : Type := mkRangeInput {
  range_min : Z;
  range_max : Z;
  range_value : Z;
  range_onChange : Z -> AppState -> AppState
}.

(** [min={MIN_SHARES} max={MAX_SHARES} value={config.totalShares}] *)
Definition totalSharesSlider (st : AppState) : RangeInput :=
  {| range_min := MIN_SHARES;
     range_max := MAX_SHARES;
     range_value := totalShares (config st);
     range_onChange := onChangeTotalShares |}.

(** [min={2} max={config.totalShares} value={config.threshold}] *)
Definition thresholdSlider (st : AppState) : RangeInput :=
  {| range_min := 2;
     range_max := totalShares (config st);
     range_value := threshold (config st);
     range_onChange := onChangeThreshold |}.

(** The value a range input takes when the user asks for [position]: the
    browser's value sanitization sets a value below [min] to [min] and,
    when [max] is not below [min], a value above [max] to [max]. *)
Definition sanitizeRange (min max position : Z) : Z :=
  if position <? min then min
  else if (max <? position) && (min <=? max) then max
  else position.

(** The user drags a slider to [position]: the input takes the sanitized
    value and its [onChange] handler runs with it
    ([parseInt(e.target.value)]). *)
Definition moveSlider (slider : RangeInput) (position : Z) (st : AppState)
  : AppState :=
  range_onChange slider
    (sanitizeRange (range_min slider) (range_max slider) position) st.

(** ** Coefficient lists that give the same shares for another secret *)


(* ================================================================== *)
(** * Hexadecimal text *)
(* ================================================================== *)

Lemma allChars_app f a b :
  allChars f (a ++ b)%string = allChars f a && allChars f b.
Proof.
  induction a as [|c a IH]; simpl; [reflexivity|].
  now rewrite IH, andb_assoc.
Qed.

Lemma allChars_weaken (f g : ascii -> bool) s :
  (forall c, f c = true -> g c = true) ->
  allChars f s = true -> allChars g s = true.
Proof.
  intros Hfg; induction s as [|c s IH]; simpl; [reflexivity|].
  rewrite !andb_true_iff; intros [H1 H2]; auto.
Qed.

Lemma isLowerHexDigit_isHexDigit c :
  isLowerHexDigit c = true -> isHexDigit c = true.
Proof.
  destruct c as [[] [] [] [] [] [] [] []]; vm_compute; congruence.
Qed.

Lemma isLowerHexDigit_not_dash c :
  isLowerHexDigit c = true -> Ascii.eqb c "-" = false.
Proof.
  destruct c as [[] [] [] [] [] [] [] []]; vm_compute; congruence.
Qed.

Lemma of_pos_lowerHex p : forall rest,
  allChars isLowerHexDigit rest = true ->
  allChars isLowerHexDigit (Raw.of_pos p rest) = true.
Proof.
  induction p as [p IH] using (well_founded_induction (Wf_nat.well_founded_ltof _ Pos.to_nat)).
  intros rest Hrest.
  do 4 (try destruct p as [p|p|]); try (simpl; rewrite Hrest; reflexivity);
    simpl; apply IH; try (unfold Wf_nat.ltof; lia); simpl; rewrite Hrest; reflexivity.
Qed.

Lemma toString16_lowerHex z :
  0 <= z -> allChars isLowerHexDigit (toString16 z) = true.
Proof.
  destruct z as [|p|p]; intros Hz; try lia; [reflexivity|].
  now apply of_pos_lowerHex.
Qed.

Lemma scanHex_of_pos p : forall rest acc seen,
  scanHex (Raw.of_pos p rest) acc seen =
  scanHex rest
    match acc with
    | N0 => Npos p
    | Npos v => Npos (pos_hex_app v p)
    end true.
Proof.
  induction p as [p IH] using (well_founded_induction (Wf_nat.well_founded_ltof _ Pos.to_nat)).
  intros rest acc seen.
  do 4 (try destruct p as [p|p|]); destruct acc; try reflexivity;
    simpl Raw.of_pos; rewrite IH by (unfold Wf_nat.ltof; lia); reflexivity.
Qed.

Lemma BigInt0x_toString16 z : 0 <= z -> BigInt0x (toString16 z) = Ok z.
Proof.
  destruct z as [|p|p]; intros Hz; try lia; [reflexivity|].
  unfold BigInt0x, toString16. rewrite scanHex_of_pos. reflexivity.
Qed.

Lemma hexValue_toString16 z : 0 <= z -> hexValue (toString16 z) = z.
Proof.
  destruct z as [|p|p]; intros Hz; try lia; [reflexivity|].
  unfold hexValue, toString16. rewrite Raw.to_N_of_pos. reflexivity.
Qed.

(** On text [BigInt] accepts without trailing white space, it returns the
    value the digits denote. *)
Lemma scanHex_hexValue s : forall acc seen,
  allChars isHexDigit s = true ->
  scanHex s acc seen = (if seen || negb (String.eqb s "") then Some (Raw.to_N s acc) else None).
Proof.
  induction s as [|c s IH]; intros acc seen Hs; simpl in *.
  - destruct seen; reflexivity.
  - apply andb_true_iff in Hs as [Hc Hs]. unfold isHexDigit in Hc.
    destruct (ascii_to_digit c) as [v|]; [|discriminate].
    rewrite IH by assumption. simpl. rewrite orb_true_r. reflexivity.
Qed.

Lemma BigInt0x_hexValue s :
  allChars isHexDigit s = true -> s <> "" -> BigInt0x s = Ok (hexValue s).
Proof.
  intros Hs Hne. unfold BigInt0x, hexValue.
  rewrite scanHex_hexValue by assumption.
  destruct (String.eqb_spec s ""); [contradiction|reflexivity].
Qed.

Lemma BigInt0x_nonneg h v : BigInt0x h = Ok v -> 0 <= v.
Proof.
  unfold BigInt0x. destruct (scanHex h 0 false); intros H; inversion H. lia.
Qed.

(** ** The output encoding of [reconstructSecret] *)

Lemma evenHex_length secret : Nat.Even (String.length (evenHex secret)).
Proof.
  unfold evenHex.
  destruct (Nat.eqb_spec (String.length (toString16 secret) mod 2) 0) as [E|E].
  - apply Nat.Div0.mod_divides in E as [c E]. exists c. exact E.
  - simpl. set (n := String.length (toString16 secret)) in *.
    pose proof (Nat.div_mod_eq n 2). pose proof (Nat.mod_upper_bound n 2).
    exists (S (n / 2)). lia.
Qed.

Lemma evenHex_lowerHex secret :
  0 <= secret -> allChars isLowerHexDigit (evenHex secret) = true.
Proof.
  intros H. unfold evenHex.
  destruct (Nat.eqb _ 0); simpl; now rewrite ?toString16_lowerHex.
Qed.

Lemma hexValue_evenHex secret : 0 <= secret -> hexValue (evenHex secret) = secret.
Proof.
  intros H. unfold evenHex.
  destruct (Nat.eqb _ 0); [now apply hexValue_toString16|].
  unfold hexValue. simpl. now apply hexValue_toString16.
Qed.


(** ** [split] on share text *)

Lemma split_no_sep sep s :
  allChars (fun c => negb (Ascii.eqb c sep)) s = true -> split sep s = [s].
Proof.
  induction s as [|c s IH]; simpl; [reflexivity|].
  rewrite andb_true_iff, negb_true_iff. intros [Hc Hs].
  rewrite Hc, IH by assumption. reflexivity.
Qed.

Lemma split_app_sep sep a b :
  allChars (fun c => negb (Ascii.eqb c sep)) a = true ->
  split sep (a ++ String sep b)%string = a :: split sep b.
Proof.
  induction a as [|c a IH]; simpl.
  - intros _. now rewrite Ascii.eqb_refl.
  - rewrite andb_true_iff, negb_true_iff. intros [Hc Ha].
    rewrite Hc, IH by assumption. reflexivity.
Qed.

Lemma lowerHex_no_dash s :
  allChars isLowerHexDigit s = true ->
  allChars (fun c => negb (Ascii.eqb c "-")) s = true.
Proof.
  apply allChars_weaken. intros c H.
  now rewrite isLowerHexDigit_not_dash.
Qed.

(** A share written by [makeShare] reads back as the point it encodes. *)
Lemma parseShare_written i x y :
  0 <= x -> 0 <= y ->
  parseShare {| id := i; data := toString16 x ++ "-" ++ toString16 y |}
  = Ok {| px := x; py := y |}.
Proof.
  intros Hx Hy. unfold parseShare. simpl data.
  change (toString16 x ++ "-" ++ toString16 y)%string
    with (toString16 x ++ String "-" (toString16 y))%string.
  rewrite split_app_sep by (apply lowerHex_no_dash; now apply toString16_lowerHex).
  rewrite split_no_sep by (apply lowerHex_no_dash; now apply toString16_lowerHex).
  simpl. rewrite !BigInt0x_toString16 by assumption. reflexivity.
Qed.

(* ================================================================== *)
(** * The modulus and reduction *)
(* ================================================================== *)


Lemma PRIME_MODULUS_pos : 0 < PRIME_MODULUS.
Proof. reflexivity. Qed.

Lemma PRIME_MODULUS_gt1 : 1 < PRIME_MODULUS.
Proof. reflexivity. Qed.

#[local] Opaque PRIME_MODULUS.

(** Truncated remainder is congruent to its argument. *)
Lemma rem_eqm n a : n <> 0 -> eqm n (Z.rem a n) a.
Proof.
  intros Hn. unfold eqm.
  pose proof (Z.quot_rem' a n) as E.
  replace (Z.rem a n) with (a + (- Z.quot a n) * n) by lia.
  apply Z_mod_plus_full.
Qed.

Lemma rem_range n a : 0 < n -> - n < Z.rem a n < n.
Proof.
  intros Hn. pose proof (Z.rem_bound_abs a n). lia.
Qed.

Lemma mod_of_eqm n a b : 0 < n -> eqm n a b -> 0 <= a < n -> a = b mod n.
Proof.
  intros Hn E Ha. unfold eqm in E. rewrite <- E. symmetry.
  now apply Z.mod_small.
Qed.

(* ================================================================== *)
(** * [evalPoly] computes the polynomial modulo the prime *)
(* ================================================================== *)

#[local] Existing Instances eqm_setoid Zplus_eqm Zminus_eqm Zmult_eqm Zopp_eqm.

Lemma evalPoly_fold coeffs x : forall i result powerOfX,
  0 <= x -> Forall (fun c => 0 <= c) coeffs ->
  0 <= result < PRIME_MODULUS ->
  0 <= powerOfX < PRIME_MODULUS ->
  powerOfX = x ^ Z.of_nat i mod PRIME_MODULUS ->
  fst (fold_left (evalPoly_step x) coeffs (result, powerOfX))
  = (result + polySumFrom i coeffs x) mod PRIME_MODULUS.
Proof.
  pose proof PRIME_MODULUS_pos as HP.
  induction coeffs as [|c r IH]; intros i result powerOfX Hx Hc Hr Hp Epw.
  - simpl. rewrite Z.add_0_r. symmetry. now apply Z.mod_small.
  - apply Forall_cons_iff in Hc as [Hc0 Hcr].
    simpl fold_left. cbn [evalPoly_step].
    rewrite !Z.rem_mod_nonneg by nia.
    rewrite (IH (S i)); trivial; try (apply Z.mod_pos_bound; lia).
    + simpl polySumFrom.
      change (eqm PRIME_MODULUS
                ((result + c * powerOfX) mod PRIME_MODULUS + polySumFrom (S i) r x)
                (result + (c * x ^ Z.of_nat i + polySumFrom (S i) r x))).
      rewrite Zmod_eqm, Epw, Zmod_eqm. now rewrite Z.add_assoc.
    + rewrite Epw, Nat2Z.inj_succ, Z.pow_succ_r by lia.
      rewrite Z.mul_mod_idemp_l by lia. f_equal. ring.
Qed.

Lemma evalPoly_polySum coeffs x :
  0 <= x -> Forall (fun c => 0 <= c) coeffs ->
  evalPoly coeffs x = polySum coeffs x mod PRIME_MODULUS.
Proof.
  intros Hx Hc. unfold evalPoly, polySum.
  pose proof PRIME_MODULUS_gt1.
  rewrite (evalPoly_fold coeffs x 0%nat); trivial; try lia.
Qed.

Lemma evalPoly_range coeffs x :
  0 <= x -> Forall (fun c => 0 <= c) coeffs ->
  0 <= evalPoly coeffs x < PRIME_MODULUS.
Proof.
  intros Hx Hc. rewrite evalPoly_polySum by assumption.
  apply Z.mod_pos_bound. apply PRIME_MODULUS_pos.
Qed.

(* ================================================================== *)
(** * The random coefficients *)
(* ================================================================== *)

Lemma byte_hex_digits_bool (b : byte) :
  match padStart2 (toString16 (byteToZ b)) with
  | String c1 (String c2 "") => isLowerHexDigit c1 && isLowerHexDigit c2
  | _ => false
  end = true.
Proof. destruct b; reflexivity. Qed.

Lemma byte_hex_digits (b : byte) :
  exists c1 c2, padStart2 (toString16 (byteToZ b)) = String c1 (String c2 "")
                /\ isLowerHexDigit c1 = true /\ isLowerHexDigit c2 = true.
Proof.
  pose proof (byte_hex_digits_bool b) as H.
  destruct (padStart2 (toString16 (byteToZ b))) as [|c1 [|c2 [|? ?]]];
    try discriminate.
  apply andb_true_iff in H. exists c1, c2. tauto.
Qed.

Lemma bufferToHex_cons b buffer :
  bufferToHex (b :: buffer)
  = (padStart2 (toString16 (byteToZ b)) ++ bufferToHex buffer)%string.
Proof.
  unfold bufferToHex. simpl map.
  destruct (map _ buffer) as [|h t] eqn:E; simpl.
  - destruct (padStart2 _); simpl; [reflexivity|].
    f_equal. induction s; simpl; congruence.
  - reflexivity.
Qed.

Lemma bufferToHex_lowerHex buffer :
  allChars isLowerHexDigit (bufferToHex buffer) = true.
Proof.
  induction buffer as [|b buffer IH]; [reflexivity|].
  rewrite bufferToHex_cons, allChars_app, IH, andb_true_r.
  destruct (byte_hex_digits b) as (c1 & c2 & -> & H1 & H2).
  simpl. now rewrite H1, H2.
Qed.

Lemma bufferToHex_length buffer :
  String.length (bufferToHex buffer) = (2 * List.length buffer)%nat.
Proof.
  induction buffer as [|b buffer IH]; [reflexivity|].
  rewrite bufferToHex_cons.
  destruct (byte_hex_digits b) as (c1 & c2 & -> & _).
  simpl. rewrite IH. simpl. lia.
Qed.

(** [randomBigInt] never throws and returns a field element. *)
Lemma randomBigInt_ok src :
  exists v, randomBigInt src = Ok (v, fun i => src (66 + i)%nat)
            /\ 0 <= v < PRIME_MODULUS.
Proof.
  unfold randomBigInt, getRandomValues.
  set (array := map src (seq 0 66)).
  assert (Hne : bufferToHex array <> "").
  { intros E. apply (f_equal String.length) in E.
    rewrite bufferToHex_length in E. unfold array in E.
    rewrite length_map, length_seq in E. discriminate. }
  rewrite BigInt0x_hexValue; trivial.
  - simpl. eexists; split; [reflexivity|].
    apply Z.rem_bound_pos; [|apply PRIME_MODULUS_pos].
    unfold hexValue. lia.
  - apply (allChars_weaken isLowerHexDigit);
      [apply isLowerHexDigit_isHexDigit | apply bufferToHex_lowerHex].
Qed.

Lemma pushRandomCoeffs_ok rounds : forall coeffs src,
  exists drawn src',
    pushRandomCoeffs rounds coeffs src = Ok ((coeffs ++ drawn)%list, src')
    /\ List.length drawn = rounds
    /\ Forall (fun c => 0 <= c < PRIME_MODULUS) drawn.
Proof.
  induction rounds as [|rounds IH]; intros coeffs src; simpl.
  - exists [], src. rewrite app_nil_r. repeat split. constructor.
  - destruct (randomBigInt_ok src) as (v & -> & Hv). cbn [bind fst snd].
    destruct (IH (coeffs ++ [v])%list (fun i => src (66 + i)%nat))
      as (drawn & src' & -> & Hlen & Hall).
    exists (v :: drawn), src'. rewrite <- app_assoc. simpl.
    repeat split; [congruence|]. now constructor.
Qed.

Lemma makeShare_shareOfPoly coeffs i :
  0 <= i -> Forall (fun c => 0 <= c) coeffs ->
  makeShare coeffs i = shareOfPoly coeffs i.
Proof.
  intros Hi Hc. unfold makeShare, shareOfPoly.
  now rewrite evalPoly_polySum.
Qed.

Lemma sharesOfCoeffs_spec coeffs n :
  Forall (fun c => 0 <= c) coeffs ->
  sharesOfCoeffs coeffs n = map (shareOfPoly coeffs) (indices n).
Proof.
  intros Hc. unfold sharesOfCoeffs, indices. rewrite map_map.
  apply map_ext. intros i. apply makeShare_shareOfPoly; [lia|assumption].
Qed.

Lemma indices_length n : 0 <= n -> Z.of_nat (List.length (indices n)) = n.
Proof.
  intros Hn. unfold indices. rewrite length_map, length_seq. lia.
Qed.

Lemma indices_range n i : In i (indices n) <-> 1 <= i <= n.
Proof.
  unfold indices. rewrite in_map_iff. split.
  - intros (j & <- & Hj). apply in_seq in Hj. lia.
  - intros Hi. exists (Z.to_nat i). split; [lia|]. apply in_seq. lia.
Qed.

(** What [splitSecret] returns, in terms of its coefficient list. *)
Lemma splitSecret_coeffs secretHex secret n k src :
  BigInt0x secretHex = Ok secret ->
  exists drawn src',
    splitSecret secretHex n k src
    = Ok (map (shareOfPoly (secret :: drawn)) (indices n), src')
    /\ List.length drawn = Z.to_nat (k - 1)
    /\ Forall (fun c => 0 <= c < PRIME_MODULUS) drawn.
Proof.
  intros Hs. unfold splitSecret. rewrite Hs. cbn [bind].
  destruct (pushRandomCoeffs_ok (Z.to_nat (k - 1)) [secret] src)
    as (drawn & src' & -> & Hlen & Hall).
  cbn [bind fst snd app]. exists drawn, src'. repeat split; trivial.
  rewrite sharesOfCoeffs_spec; [reflexivity|].
  constructor; [now apply (BigInt0x_nonneg secretHex)|].
  eapply Forall_impl; [|exact Hall]. simpl. lia.
Qed.


(* ================================================================== *)
(** * Malformed share text *)
(* ================================================================== *)

Lemma BigInt0x_cases h : (exists v, BigInt0x h = Ok v) \/ BigInt0x h = Throw SyntaxError.
Proof.
  unfold BigInt0x. destruct (scanHex h 0 false); [left; eauto | now right].
Qed.

Lemma parseShare_cases s :
  (exists p, parseShare s = Ok p) \/ parseShare s = Throw SyntaxError.
Proof.
  unfold parseShare.
  destruct (BigInt0x_cases (orUndefined (nth_error (split "-" (data s)) 0)))
    as [[x ->]| ->]; [|now right].
  destruct (BigInt0x_cases (orUndefined (nth_error (split "-" (data s)) 1)))
    as [[y ->]| ->]; [|now right].
  left. eexists. reflexivity.
Qed.

(** The map over the shares throws as soon as one share does not parse. *)
Lemma mapM_parseShare_throws shares s :
  In s shares -> (forall p, parseShare s <> Ok p) ->
  mapM parseShare shares = Throw SyntaxError.
Proof.
  intros Hin Hbad. induction shares as [|a shares IH]; [contradiction|].
  simpl. destruct (parseShare_cases a) as [[p Ha]|Ha]; rewrite Ha; [|reflexivity].
  cbn [bind]. destruct Hin as [->|Hin]; [now apply Hbad in Ha|].
  now rewrite IH.
Qed.

(** Text without the delimiter has no second field: it does not parse. *)
Lemma parseShare_missing_delimiter i text p :
  allChars (fun c => negb (Ascii.eqb c "-")) text = true ->
  parseShare {| id := i; data := text |} <> Ok p.
Proof.
  intros Hno. unfold parseShare. simpl data. rewrite split_no_sep by assumption.
  simpl. destruct (BigInt0x text); discriminate.
Qed.

(** A first field that starts with a character that is no hex digit does
    not parse. *)
Lemma parseShare_bad_first_digit i c rest p :
  isHexDigit c = false ->
  parseShare {| id := i; data := String c rest |} <> Ok p.
Proof.
  intros Hc. unfold parseShare. simpl data.
  assert (E : BigInt0x (orUndefined (nth_error (split "-" (String c rest)) 0))
              = Throw SyntaxError).
  { simpl split. destruct (Ascii.eqb c "-"); [reflexivity|].
    unfold isHexDigit in Hc.
    destruct (split "-" rest) as [|h t]; simpl; unfold BigInt0x; simpl;
      destruct (ascii_to_digit c); try discriminate; reflexivity. }
  rewrite E. discriminate.
Qed.







(* ================================================================== *)
(** * The recovery flow rejects too few shares *)
(* ================================================================== *)

Lemma sharesList_length st : Z.of_nat (List.length (sharesList st)) = suppliedCount st.
Proof. unfold sharesList, suppliedCount. now rewrite length_map. Qed.

(** C5. When fewer non-blank share inputs are supplied than the configured
    threshold, [processRecovery] (in both revisions of the component) sets a
    validation error and returns without calling [reconstructSecret] or any
    other cryptographic operation; the stored encrypted file and the
    recovered-file URL are unchanged. *)
Theorem processRecovery_insufficient_shares
    (CryptoKey : Type) (importKey : list byte -> outcome CryptoKey)
    (aesGcmDecrypt : CryptoKey -> list byte -> list byte -> outcome (list byte))
    (createObjectURL : list byte -> string -> string)
    (st : AppState) :
  suppliedCount st < threshold (config st) ->
  (exists st',
     processRecovery CryptoKey importKey aesGcmDecrypt createObjectURL st = ([], Ok st')
     /\ (exists message, recoveryError st' = Some message)
     /\ encryptedFile st' = encryptedFile st
     /\ recoveredFileUrl st' = recoveredFileUrl st
     /\ config st' = config st)
  /\
  (exists st',
     processRecovery_revised CryptoKey importKey aesGcmDecrypt createObjectURL st
     = ([], Ok st')
     /\ (exists message, recoveryError st' = Some message)
     /\ encryptedFile st' = encryptedFile st
     /\ recoveredFileUrl st' = recoveredFileUrl st
     /\ config st' = config st).
Proof.
  intros Hlt. rewrite <- sharesList_length in Hlt.
  apply Z.ltb_lt in Hlt.
  unfold processRecovery, processRecovery_revised, processRecoveryOf.
  destruct (encryptedFile st) as [file|] eqn:Efile.
  - rewrite Hlt. split; eexists; (split; [reflexivity|]); simpl; eauto 6.
  - split; eexists; (split; [reflexivity|]); simpl; eauto 6.
Qed.

Lemma processRecovery_insufficient_shares_witness :
  suppliedCount sampleState < threshold (config sampleState)
  /\ (exists st',
        processRecovery unit (fun _ => Ok tt) (fun _ _ b => Ok b) (fun _ _ => "blob:0")
          sampleState = ([], Ok st')
        /\ (exists message, recoveryError st' = Some message)
        /\ encryptedFile st' = encryptedFile sampleState
        /\ recoveredFileUrl st' = recoveredFileUrl sampleState
        /\ config st' = config sampleState).
Proof.
  split; [reflexivity|].
  apply (processRecovery_insufficient_shares unit (fun _ => Ok tt)
           (fun _ _ b => Ok b) (fun _ _ => "blob:0") sampleState).
  reflexivity.
Defined.

Lemma tbind_call_trace {A B : Type} (c : Call) (r : outcome A) (k : A -> Traced B) :
  exists rest, fst (tbind (call c r) k) = c :: rest.
Proof.
  unfold call. destruct r as [a| |]; simpl; [|eauto|eauto].
  destruct (k a); simpl; eauto.
Qed.

(** With enough shares and a stored file the flow does reach the engine:
    the first call it makes is [reconstructSecret] on the collected shares. *)
Lemma processRecovery_calls_engine
    (CryptoKey : Type) (importKey : list byte -> outcome CryptoKey)
    (aesGcmDecrypt : CryptoKey -> list byte -> list byte -> outcome (list byte))
    (createObjectURL : list byte -> string -> string)
    (st : AppState) (file : EncryptedFile) (revised : bool) :
  encryptedFile st = Some file ->
  threshold (config st) <= suppliedCount st ->
  exists rest,
    fst (processRecoveryOf CryptoKey importKey aesGcmDecrypt createObjectURL revised st)
    = CallReconstructSecret (sharesList st) :: rest.
Proof.
  intros Efile Hge. rewrite <- sharesList_length in Hge.
  apply Z.ltb_ge in Hge.
  unfold processRecoveryOf. rewrite Efile, Hge.
  unfold recoverFile.
  match goal with
  | |- context [tbind (call ?c ?r) ?k] =>
      destruct (tbind_call_trace c r k) as [rest E];
      destruct (tbind (call c r) k) as [t [url| |]]
  end; simpl in *; eauto.
Qed.

(* ================================================================== *)
(** * The configuration invariant *)
(* ================================================================== *)

Lemma DEFAULT_CONFIG_invariant : configInvariant DEFAULT_CONFIG.
Proof. unfold configInvariant, MAX_SHARES; simpl; lia. Qed.

Lemma sanitizeRange_between min max position :
  min <= max -> min <= sanitizeRange min max position <= max.
Proof.
  intros H. unfold sanitizeRange.
  destruct (Z.ltb_spec position min); [lia|].
  destruct (Z.ltb_spec max position); destruct (Z.leb_spec min max); cbn [andb]; lia.
Qed.

Lemma sanitizeRange_inside min max position :
  min <= position <= max -> sanitizeRange min max position = position.
Proof.
  intros H. unfold sanitizeRange.
  destruct (Z.ltb_spec position min); [lia|].
  destruct (Z.ltb_spec max position); [lia|reflexivity].
Qed.

(** C8. The invariant [2 <= threshold <= totalShares <= 10] is preserved
    by every configuration update, wherever the user drags a slider.
    The total-shares slider (min [MIN_SHARES], max [MAX_SHARES]) sets
    [totalShares] to the position taken, and its handler clamps a larger
    threshold down to it (leaving a smaller one alone); the threshold
    slider (min 2, max [totalShares]) sets the threshold to a value of
    [2 .. totalShares].  The handler's clamp holds for any value [n]
    whatsoever. *)
Theorem config_update_preserves_invariant (st : AppState) (n k : Z) :
  configInvariant (config st) ->
  (let c := config (moveSlider (totalSharesSlider st) n st) in
   configInvariant c
   /\ totalShares c = sanitizeRange MIN_SHARES MAX_SHARES n
   /\ (MIN_SHARES <= n <= MAX_SHARES -> totalShares c = n)
   /\ (threshold (config st) > totalShares c -> threshold c = totalShares c)
   /\ (threshold (config st) <= totalShares c ->
       threshold c = threshold (config st)))
  /\
  (let c := config (moveSlider (thresholdSlider st) k st) in
   configInvariant c
   /\ totalShares c = totalShares (config st)
   /\ 2 <= threshold c <= totalShares c
   /\ (2 <= k <= totalShares (config st) -> threshold c = k))
  /\
  (let c := config (onChangeTotalShares n st) in
   totalShares c = n
   /\ (threshold (config st) > n -> threshold c = n)
   /\ (threshold (config st) <= n -> threshold c = threshold (config st))).
Proof.
  unfold configInvariant. intros (H2 & Hkn & Hn).
  pose proof (sanitizeRange_between MIN_SHARES MAX_SHARES n) as Bn.
  pose proof (sanitizeRange_inside MIN_SHARES MAX_SHARES n) as In.
  pose proof (sanitizeRange_between 2 (totalShares (config st)) k) as Bk.
  pose proof (sanitizeRange_inside 2 (totalShares (config st)) k) as Ik.
  unfold MIN_SHARES, MAX_SHARES in *.
  unfold moveSlider, totalSharesSlider, thresholdSlider.
  cbn [range_min range_max range_onChange].
  unfold onChangeTotalShares, onChangeThreshold, addLog, setConfig.
  cbn [config threshold totalShares]. unfold MIN_SHARES, MAX_SHARES.
  set (n' := sanitizeRange 2 10 n) in *.
  set (k' := sanitizeRange 2 (totalShares (config st)) k) in *.
  repeat split; lia.
Qed.

Lemma config_update_preserves_invariant_witness :
  (let c := config (moveSlider (totalSharesSlider sampleState) 1 sampleState) in
   configInvariant c
   /\ totalShares c = sanitizeRange MIN_SHARES MAX_SHARES 1
   /\ (MIN_SHARES <= 1 <= MAX_SHARES -> totalShares c = 1)
   /\ (threshold (config sampleState) > totalShares c -> threshold c = totalShares c)
   /\ (threshold (config sampleState) <= totalShares c ->
       threshold c = threshold (config sampleState)))
  /\
  (let c := config (moveSlider (thresholdSlider sampleState) 99 sampleState) in
   configInvariant c
   /\ totalShares c = totalShares (config sampleState)
   /\ 2 <= threshold c <= totalShares c
   /\ (2 <= 99 <= totalShares (config sampleState) -> threshold c = 99))
  /\
  (let c := config (onChangeTotalShares 1 sampleState) in
   totalShares c = 1
   /\ (threshold (config sampleState) > 1 -> threshold c = 1)
   /\ (threshold (config sampleState) <= 1 ->
       threshold c = threshold (config sampleState))).
Proof.
  apply (config_update_preserves_invariant sampleState 1 99).
  exact DEFAULT_CONFIG_invariant.
Defined.

(* ================================================================== *)
(** * [modInverse]: the loop always ends, and inverts what is invertible *)
(* ================================================================== *)

Lemma log2_half_lt r a : 0 < r -> 2 * r <= a -> Z.log2 r < Z.log2 a.
Proof.
  intros Hr Ha.
  pose proof (Z.log2_le_mono (2 * r) a Ha) as H.
  rewrite Z.log2_double in H by lia. lia.
Qed.

(** From a state with [0 < m <= a] the loop leaves within
    [log2 a + log2 m + 3] rounds. *)
Lemma modInverse_loop_ends fuel : forall a m x y,
  0 < m <= a ->
  Z.log2 a + Z.log2 m + 3 <= Z.of_nat fuel ->
  modInverse_loop fuel a m x y <> OutOfFuel.
Proof.
  induction fuel as [|fuel IH]; intros a m x y Ham Hfuel.
  - pose proof (Z.log2_nonneg a). pose proof (Z.log2_nonneg m). lia.
  - simpl. destruct (Z.ltb_spec 1 a) as [Ha|Ha]; [|discriminate].
    destruct (Z.eqb_spec m 0) as [Hm|Hm]; [discriminate|].
    pose proof (Z.rem_bound_pos a m ltac:(lia) ltac:(lia)) as Hr.
    pose proof (Z.quot_rem' a m) as Hq.
    assert (Hq1 : 1 <= Z.quot a m) by (apply Z.quot_le_lower_bound; lia).
    destruct (Z.eq_dec (Z.rem a m) 0) as [E|E].
    + rewrite E. destruct fuel as [|fuel].
      * pose proof (Z.log2_nonneg a). pose proof (Z.log2_nonneg m). lia.
      * simpl. destruct (1 <? m); discriminate.
    + apply IH; [lia|].
      assert (Z.log2 (Z.rem a m) < Z.log2 a) by (apply log2_half_lt; nia).
      lia.
Qed.

Lemma modInverse_loop_never_OutOfFuel a m x y :
  modInverse_loop (modInverse_fuel a m) a m x y <> OutOfFuel.
Proof.
  unfold modInverse_fuel.
  pose proof (Z.log2_nonneg a) as La. pose proof (Z.log2_nonneg m) as Lm.
  set (n := Z.to_nat (Z.log2 a + Z.log2 m)).
  assert (Hn : Z.of_nat n = Z.log2 a + Z.log2 m) by (unfold n; lia).
  destruct (Z.lt_trichotomy m 0) as [Hm|[Hm|Hm]].
  - (* a negative modulus: one round, then [a] is negative *)
    replace (n + 4)%nat with (S (S (n + 2))) by lia. cbn [modInverse_loop].
    destruct (1 <? a); [|discriminate].
    destruct (Z.eqb_spec m 0); [discriminate|].
    destruct (Z.ltb_spec 1 m); [lia|discriminate].
  - replace (n + 4)%nat with (S (n + 3)) by lia. cbn [modInverse_loop].
    subst m. destruct (1 <? a); discriminate.
  - destruct (Z.le_gt_cases m a) as [Hma|Hma].
    + apply modInverse_loop_ends; lia.
    + (* [a < m]: the first round swaps the two *)
      replace (n + 4)%nat with (S (n + 3)) by lia. cbn [modInverse_loop].
      destruct (Z.ltb_spec 1 a) as [Ha|Ha]; [|discriminate].
      destruct (Z.eqb_spec m 0); [lia|].
      rewrite Z.rem_small by lia.
      apply modInverse_loop_ends; lia.
Qed.

Theorem modInverse_never_OutOfFuel a m : modInverse a m <> OutOfFuel.
Proof.
  unfold modInverse. destruct (m =? 1); [discriminate|].
  pose proof (modInverse_loop_never_OutOfFuel a m 1 0) as H.
  destruct (modInverse_loop _ a m 1 0); [discriminate|discriminate|contradiction].
Qed.

(** The invariant of the extended Euclidean loop: both remainders are
    multiples of the original [a0] modulo [m0], and their gcd is unchanged. *)
Lemma modInverse_loop_invariant a0 m0 fuel : forall a m x y v,
  0 <= a -> 0 <= m ->
  eqm m0 a (x * a0) -> eqm m0 m (y * a0) ->
  Z.gcd a m = 1 ->
  modInverse_loop fuel a m x y = Ok v ->
  eqm m0 (a0 * v) 1 \/ (a = 0 /\ m = 1).
Proof.
  induction fuel as [|fuel IH]; intros a m x y v Ha Hm Ea Em Hg; simpl; [discriminate|].
  destruct (Z.ltb_spec 1 a) as [H1|H1].
  - destruct (Z.eqb_spec m 0) as [Hz|Hz]; [discriminate|].
    intros Hv. apply IH in Hv; trivial.
    + destruct Hv as [Hv|[Hv _]]; [now left|lia].
    + apply Z.rem_nonneg; lia.
    + pose proof (Z.quot_rem' a m) as Hq.
      replace (Z.rem a m) with (a - Z.quot a m * m) by lia.
      unfold eqm in *.
      rewrite Zminus_mod, (Zmult_mod (Z.quot a m) m), Ea, Em.
      rewrite <- Zmult_mod, <- Zminus_mod. f_equal. ring.
    + rewrite Z.rem_mod_nonneg by lia.
      rewrite Z.gcd_comm, Z.gcd_mod by lia. now rewrite Z.gcd_comm.
  - intros Hv. inversion Hv; subst v.
    assert (a = 0 \/ a = 1) as [->| ->] by lia.
    + right. rewrite Z.gcd_0_l in Hg. split; [reflexivity|lia].
    + left. unfold eqm in *. rewrite Z.mul_comm. symmetry. exact Ea.
Qed.

Lemma modInverse_loop_no_throw fuel : forall a m x y e,
  0 <= a -> 0 <= m -> Z.gcd a m = 1 ->
  modInverse_loop fuel a m x y <> Throw e.
Proof.
  induction fuel as [|fuel IH]; intros a m x y e Ha Hm Hg; simpl; [discriminate|].
  destruct (Z.ltb_spec 1 a) as [H1|H1]; [|discriminate].
  destruct (Z.eqb_spec m 0) as [Hz|Hz].
  - subst m. rewrite Z.gcd_0_r in Hg. lia.
  - apply IH; [lia|apply Z.rem_nonneg; lia|].
    rewrite Z.rem_mod_nonneg by lia.
    rewrite Z.gcd_comm, Z.gcd_mod by lia. now rewrite Z.gcd_comm.
Qed.

(** [modInverse] on an argument coprime to the modulus returns an inverse. *)
Theorem modInverse_inverse a m :
  1 < m -> 0 <= a -> Z.gcd a m = 1 ->
  exists v, modInverse a m = Ok v /\ (a * v) mod m = 1.
Proof.
  intros Hm Ha Hg. unfold modInverse.
  destruct (Z.eqb_spec m 1) as [E|_]; [lia|].
  destruct (modInverse_loop (modInverse_fuel a m) a m 1 0) as [v|e|] eqn:El.
  - cbn [bind]. eexists; split; [reflexivity|].
    apply (modInverse_loop_invariant a m) in El; try lia.
    + destruct El as [El|[-> ->]]; [|lia].
      unfold eqm in El. rewrite (Z.mod_small 1) in El by lia.
      destruct (v <? 0); [|exact El].
      rewrite Z.mul_add_distr_l, Z_mod_plus_full.
      exact El.
    + unfold eqm. f_equal. ring.
    + unfold eqm. rewrite Z.mul_0_l. rewrite Z_mod_same_full. reflexivity.
  - exfalso. apply (modInverse_loop_no_throw _ a m 1 0 e) in El; trivial; lia.
  - exfalso. now apply modInverse_loop_never_OutOfFuel in El.
Qed.

(** On zero the loop is not entered: the "inverse" returned is 1. *)
Lemma modInverse_zero m : m <> 1 -> modInverse 0 m = Ok 1.
Proof.
  intros Hm. unfold modInverse.
  destruct (Z.eqb_spec m 1); [contradiction|].
  unfold modInverse_fuel. rewrite Nat.add_comm. reflexivity.
Qed.

(* ================================================================== *)
(** * The modulus is prime: the Lucas-Lehmer test *)
(* ================================================================== *)

Ltac qring :=
  unfold qmul, qone, qconj, qnorm; cbn [fst snd]; try (f_equal; ring); try ring.

Lemma qmul_comm u v : qmul u v = qmul v u.
Proof. destruct u, v. qring. Qed.

Lemma qmul_assoc u v w : qmul u (qmul v w) = qmul (qmul u v) w.
Proof. destruct u, v, w. qring. Qed.

Lemma qmul_1_l u : qmul qone u = u.
Proof. destruct u. qring. Qed.

Lemma qpow_add u n m : qpow u (n + m) = qmul (qpow u n) (qpow u m).
Proof.
  induction n as [|n IH]; simpl; [now rewrite qmul_1_l|].
  now rewrite IH, qmul_assoc.
Qed.

Lemma qpow_one n : qpow qone n = qone.
Proof. induction n as [|n IH]; simpl; [reflexivity|]. now rewrite IH. Qed.

Lemma qpow_mul u n m : qpow u (n * m) = qpow (qpow u n) m.
Proof.
  induction m as [|m IH]; simpl.
  - now rewrite Nat.mul_0_r.
  - rewrite Nat.mul_succ_r, Nat.add_comm, qpow_add. now rewrite IH.
Qed.

Lemma qnorm_mul u v : qnorm (qmul u v) = qnorm u * qnorm v.
Proof. destruct u, v. qring. Qed.

Lemma qnorm_pow_omega n : qnorm (qpow omega n) = 1.
Proof.
  induction n as [|n IH]; simpl; [reflexivity|].
  rewrite qnorm_mul, IH. reflexivity.
Qed.

Lemma qmul_conj u : qmul u (qconj u) = (qnorm u, 0).
Proof. destruct u. qring. Qed.

Lemma qeqm_refl e u : qeqm e u u.
Proof. split; reflexivity. Qed.

Lemma qeqm_sym e u v : qeqm e u v -> qeqm e v u.
Proof. intros [H1 H2]. split; now symmetry. Qed.

Lemma qeqm_trans e u v w : qeqm e u v -> qeqm e v w -> qeqm e u w.
Proof. intros [H1 H2] [H3 H4]. split; etransitivity; eassumption. Qed.

Lemma qmul_qeqm e u u' v v' :
  qeqm e u u' -> qeqm e v v' -> qeqm e (qmul u v) (qmul u' v').
Proof.
  intros [H1 H2] [H3 H4]. unfold qmul. split; cbn [fst snd].
  - now rewrite H1, H2, H3, H4.
  - now rewrite H1, H2, H3, H4.
Qed.

Lemma qpow_qeqm e u u' n : qeqm e u u' -> qeqm e (qpow u n) (qpow u' n).
Proof.
  intros H. induction n as [|n IH]; simpl; [apply qeqm_refl|].
  now apply qmul_qeqm.
Qed.

Lemma eqm_divide e M a b : (e | M) -> eqm M a b -> eqm e a b.
Proof.
  intros [c Hc] H. destruct (Z.eq_dec e 0) as [->|He].
  - rewrite Z.mul_0_r in Hc. subst M. unfold eqm in *.
    now rewrite !Z.mod_0_r in *.
  - unfold eqm in *.
    assert (Hd : (M | a - b)).
    { destruct (Z.eq_dec M 0) as [->|HM].
      - rewrite !Z.mod_0_r in H. subst. exists 0. ring.
      - apply Z.mod_divide; trivial. rewrite Zminus_mod, H, Z.sub_diag.
        apply Z.mod_0_l; trivial. }
    destruct Hd as [d Hd].
    replace a with (b + (d * c) * e) by (subst M; lia).
    apply Z_mod_plus_full.
Qed.

Lemma qeqm_divide e M u v : (e | M) -> qeqm M u v -> qeqm e u v.
Proof. intros He [H1 H2]. split; eapply eqm_divide; eassumption. Qed.

Lemma mersenneReduce_mod p x :
  0 < p -> 0 <= x < (2 ^ p - 1) * (2 ^ p - 1) ->
  mersenneReduce p (2 ^ p - 1) x = x mod (2 ^ p - 1).
Proof.
  intros Hp Hx. unfold mersenneReduce.
  set (M := 2 ^ p - 1) in *.
  assert (HM : 2 ^ p = M + 1) by (unfold M; lia).
  assert (H1 : 1 <= M).
  { pose proof (Z.pow_le_mono_r 2 1 p ltac:(lia) ltac:(lia)).
    change (2 ^ 1) with 2 in *. lia. }
  assert (EM : Z.land x M = x mod 2 ^ p).
  { rewrite <- Z.land_ones by lia. f_equal. rewrite Z.ones_equiv. unfold M. lia. }
  cbv zeta. rewrite EM, Z.shiftr_div_pow2, HM by lia.
  pose proof (Z.div_mod x (M + 1) ltac:(lia)) as Ed.
  pose proof (Z.mod_pos_bound x (M + 1) ltac:(lia)) as Hlo.
  assert (Hhi : 0 <= x / (M + 1) < M).
  { split; [apply Z.div_pos; lia|apply Z.div_lt_upper_bound; nia]. }
  set (hi := x / (M + 1)) in *. set (lo := x mod (M + 1)) in *.
  assert (Ex : x = hi * M + (lo + hi)) by lia.
  destruct (Z.leb_spec M (lo + hi)) as [Hge|Hlt].
  - apply Z.mod_unique with (q := hi + 1); [left; lia|lia].
  - apply Z.mod_unique with (q := hi); [left; lia|lia].
Qed.

Lemma residue_range M i : 0 < M -> 0 <= residue M i < M.
Proof. intros HM. destruct i; simpl; apply Z.mod_pos_bound; lia. Qed.

Lemma fastResidue_residue p i :
  1 < p -> fastResidue p (2 ^ p - 1) i = residue (2 ^ p - 1) i.
Proof.
  intros Hp. set (M := 2 ^ p - 1).
  assert (H1 : 3 <= M).
  { pose proof (Z.pow_le_mono_r 2 2 p ltac:(lia) ltac:(lia)).
    change (2 ^ 2) with 4 in *. unfold M. lia. }
  induction i as [|i IH]; [reflexivity|].
  cbn [fastResidue residue]. cbv zeta. rewrite IH.
  pose proof (residue_range M i ltac:(lia)) as Hr.
  unfold M. rewrite mersenneReduce_mod by (fold M; first [lia | nia]). fold M.
  replace (residue M i * residue M i + (M - 2))
    with (residue M i * residue M i - 2 + 1 * M) by ring.
  apply Z_mod_plus_full.
Qed.

Section LucasLehmer.

(** The exponent is [q + 2]; the test passes at index [q]. *)
Variable q : nat.
Let M : Z := 2 ^ Z.of_nat (q + 2) - 1.
Hypothesis test_passes : residue M q = 0.

Let W (i : nat) : Z * Z := qpow omega (2 ^ i).

Lemma M_bounds : 3 <= M.
Proof.
  unfold M. rewrite Nat2Z.inj_add, Z.pow_add_r by lia.
  pose proof (Z.pow_pos_nonneg 2 (Z.of_nat q) ltac:(lia) ltac:(lia)).
  change (2 ^ Z.of_nat 2) with 4. lia.
Qed.

Lemma M_odd : M mod 2 = 1.
Proof.
  unfold M. replace (q + 2)%nat with (S (q + 1)) by lia.
  rewrite Nat2Z.inj_succ, Z.pow_succ_r by lia.
  replace (2 * 2 ^ Z.of_nat (q + 1) - 1)
    with (1 + (2 ^ Z.of_nat (q + 1) - 1) * 2) by ring.
  rewrite Z_mod_plus_full. reflexivity.
Qed.

Lemma W_succ i : W (S i) = qmul (W i) (W i).
Proof.
  unfold W. rewrite Nat.pow_succ_r', <- qpow_add. f_equal. lia.
Qed.

(** The residues are the traces [omega^(2^i) + conj omega^(2^i)]. *)
Lemma residue_trace i : eqm M (residue M i) (2 * fst (W i)).
Proof.
  induction i as [|i IH].
  - simpl. apply Zmod_eqm.
  - cbn [residue]. cbv zeta. rewrite Zmod_eqm, IH, W_succ.
    pose proof (qnorm_pow_omega (2 ^ i)) as Hn. fold (W i) in Hn.
    destruct (W i) as [a b]. unfold qnorm, qmul in *. cbn [fst snd] in *.
    replace (2 * (a * a + 3 * (b * b))) with (2 * a * (2 * a) - 2) by lia.
    reflexivity.
Qed.

(** So the power [omega^(2^(q+1))] is [-1] modulo [M]. *)
Lemma W_minus_one : qeqm M (W (S q)) (-1, 0).
Proof.
  pose proof (residue_trace q) as Ht. rewrite test_passes in Ht.
  rewrite W_succ.
  pose proof (qnorm_pow_omega (2 ^ q)) as Hn. fold (W q) in Hn.
  destruct (W q) as [a b]. unfold qnorm, qmul, qeqm in *. cbn [fst snd] in *.
  split.
  - replace (a * a + 3 * (b * b)) with (a * (2 * a) - 1) by lia.
    rewrite <- Ht. unfold eqm. f_equal. ring.
  - replace (a * b + b * a) with (b * (2 * a)) by ring.
    rewrite <- Ht. unfold eqm. f_equal. ring.
Qed.

Section Divisor.

Variable e : Z.
Hypothesis e_divides : (e | M).
Hypothesis e_gt1 : 1 < e.

Lemma minus_one_not_one : ~ qeqm e (-1, 0) qone.
Proof.
  intros [H _]. cbn [fst snd qone] in H. unfold eqm in H.
  assert (Hd : (e | 2)).
  { apply Z.mod_divide; [lia|].
    replace 2 with (1 - (-1)) by reflexivity.
    rewrite Zminus_mod, H, Z.sub_diag. apply Z.mod_0_l. lia. }
  apply Z.divide_pos_le in Hd; [|lia].
  assert (e = 2) by lia. subst e.
  destruct e_divides as [c Hc]. pose proof M_odd as Ho.
  rewrite Hc, Z_mod_mult in Ho. discriminate.
Qed.

(** If two exponents send [omega] to 1, so does their gcd. *)
Lemma order_gcd a : forall b,
  qeqm e (qpow omega a) qone -> qeqm e (qpow omega b) qone ->
  qeqm e (qpow omega (Nat.gcd a b)) qone.
Proof.
  induction a as [a IH] using (well_founded_induction Nat.lt_wf_0).
  intros b Ha Hb. destruct a as [|a]; [exact Hb|].
  cbn [Nat.gcd]. fold (Nat.modulo b (S a)).
  apply IH; [apply Nat.mod_upper_bound; lia| |exact Ha].
  pose proof (Nat.div_mod_eq b (S a)) as E.
  rewrite E, qpow_add, qpow_mul in Hb.
  apply qeqm_trans with (2 := Hb). apply qeqm_sym.
  apply qeqm_trans with (qmul qone (qpow omega (b mod S a))).
  - apply qmul_qeqm; [|apply qeqm_refl].
    apply qeqm_trans with (qpow qone (b / S a)).
    + now apply qpow_qeqm.
    + rewrite qpow_one. apply qeqm_refl.
  - rewrite qmul_1_l. apply qeqm_refl.
Qed.

Lemma divisor_of_power_of_two n : forall g,
  Nat.divide g (2 ^ n) -> exists t, (t <= n)%nat /\ g = (2 ^ t)%nat.
Proof.
  induction n as [|n IH]; intros g Hg.
  - exists 0%nat. split; [lia|]. simpl in *.
    now apply Nat.divide_1_r in Hg.
  - rewrite Nat.pow_succ_r' in Hg.
    destruct (Nat.Even_or_Odd g) as [[h Hh]|[h Hh]].
    + subst g. apply Nat.mul_divide_cancel_l in Hg; [|lia].
      destruct (IH h Hg) as (t & Ht & ->).
      exists (S t). split; [lia|]. now rewrite Nat.pow_succ_r'.
    + assert (Hc : Nat.gcd g 2 = 1%nat).
      { subst g. rewrite Nat.gcd_comm.
        replace (2 * h + 1)%nat with (1 + h * 2)%nat by lia.
        rewrite Nat.gcd_add_mult_diag_r. reflexivity. }
      apply Nat.gauss in Hg; [|exact Hc].
      destruct (IH g Hg) as (t & Ht & ->). exists t. split; [lia|reflexivity].
Qed.

(** No exponent strictly between 0 and [2^(q+2)] sends [omega] to 1. *)
Lemma order_is_full d :
  (0 < d < 2 ^ (q + 2))%nat -> ~ qeqm e (qpow omega d) qone.
Proof.
  intros Hd H1.
  assert (Hfull : qeqm e (qpow omega (2 ^ (q + 2))) qone).
  { replace (q + 2)%nat with (S (S q)) by lia.
    change (qpow omega (2 ^ S (S q))) with (W (S (S q))).
    rewrite W_succ.
    apply qeqm_trans with (qmul (-1, 0) (-1, 0)); [|apply qeqm_refl].
    apply qmul_qeqm; apply (qeqm_divide e M); trivial; apply W_minus_one. }
  pose proof (order_gcd d _ H1 Hfull) as Hg.
  destruct (divisor_of_power_of_two (q + 2) (Nat.gcd d (2 ^ (q + 2))))
    as (t & Ht & Et); [apply Nat.gcd_divide_r|].
  rewrite Et in Hg.
  assert (Hlt : (t < q + 2)%nat).
  { destruct (Nat.eq_dec t (q + 2)) as [->|]; [|lia].
    assert (Nat.divide (2 ^ (q + 2)) d)
      by (rewrite <- Et; apply Nat.gcd_divide_l).
    apply Nat.divide_pos_le in H; lia. }
  apply minus_one_not_one.
  apply qeqm_trans with (W (S q)).
  - apply qeqm_sym. apply (qeqm_divide e M); trivial. apply W_minus_one.
  - unfold W. replace (S q) with (t + (S q - t))%nat by lia.
    rewrite Nat.pow_add_r, qpow_mul.
    apply qeqm_trans with (qpow qone (2 ^ (S q - t))).
    + now apply qpow_qeqm.
    + rewrite qpow_one. apply qeqm_refl.
Qed.

Lemma qpow_omega_unit n :
  qmul (qpow omega n) (qconj (qpow omega n)) = qone.
Proof. now rewrite qmul_conj, qnorm_pow_omega. Qed.

(** The powers of [omega] below [2^(q+2)] are pairwise distinct
    modulo [e]. *)
Lemma powers_distinct i j :
  (i < j < 2 ^ (q + 2))%nat ->
  ~ qeqm e (qpow omega i) (qpow omega j).
Proof.
  intros Hij H. apply (order_is_full (j - i)); [lia|].
  replace j with (i + (j - i))%nat in H by lia.
  rewrite qpow_add in H.
  apply qeqm_trans
    with (qmul (qconj (qpow omega i)) (qmul (qpow omega i) (qpow omega (j - i)))).
  - rewrite qmul_assoc, (qmul_comm (qconj _)), qpow_omega_unit, qmul_1_l.
    apply qeqm_refl.
  - apply qeqm_trans with (qmul (qconj (qpow omega i)) (qpow omega i)).
    + apply qmul_qeqm; [apply qeqm_refl|now apply qeqm_sym].
    + rewrite qmul_comm, qpow_omega_unit. apply qeqm_refl.
Qed.

Lemma qcode_bound u : (qcode e u < Z.to_nat (e * e))%nat.
Proof.
  unfold qcode.
  pose proof (Z.mod_pos_bound (fst u) e ltac:(lia)).
  pose proof (Z.mod_pos_bound (snd u) e ltac:(lia)).
  apply Z2Nat.inj_lt; nia.
Qed.

Lemma qcode_inj u v : qcode e u = qcode e v -> qeqm e u v.
Proof.
  unfold qcode, qeqm, eqm.
  pose proof (Z.mod_pos_bound (fst u) e ltac:(lia)).
  pose proof (Z.mod_pos_bound (snd u) e ltac:(lia)).
  pose proof (Z.mod_pos_bound (fst v) e ltac:(lia)).
  pose proof (Z.mod_pos_bound (snd v) e ltac:(lia)).
  intros E. apply Z2Nat.inj in E; [|nia|nia].
  assert (fst u mod e = fst v mod e) by nia.
  split; [assumption|nia].
Qed.

(** Hence there are at least [2^(q+2)] residues: [e * e] exceeds [M]. *)
Lemma divisor_is_large : M < e * e.
Proof.
  set (T := (2 ^ (q + 2))%nat).
  set (codes := map (fun i => qcode e (qpow omega i)) (seq 0 T)).
  assert (Hnd : NoDup codes).
  { unfold codes. apply Injective_map_NoDup_in; [|apply seq_NoDup].
    intros i j Hi Hj E. apply in_seq in Hi, Hj.
    apply qcode_inj in E.
    destruct (Nat.lt_trichotomy i j) as [L|[L|L]]; trivial; exfalso.
    - apply (powers_distinct i j); trivial. fold T. lia.
    - apply (powers_distinct j i); [fold T; lia|]. now apply qeqm_sym. }
  assert (Hincl : incl codes (seq 0 (Z.to_nat (e * e)))).
  { intros c Hc. unfold codes in Hc. apply in_map_iff in Hc as (i & <- & _).
    apply in_seq. pose proof (qcode_bound (qpow omega i)). lia. }
  pose proof (NoDup_incl_length Hnd Hincl) as Hlen.
  unfold codes in Hlen. rewrite length_map, !length_seq in Hlen.
  assert (HT : Z.of_nat T = 2 ^ Z.of_nat (q + 2)).
  { unfold T. rewrite Nat2Z.inj_pow. reflexivity. }
  unfold M. lia.
Qed.

End Divisor.

(** The Lucas-Lehmer criterion. *)
Theorem lucas_lehmer : prime M.
Proof.
  pose proof M_bounds as HM.
  destruct (prime_dec M) as [Hp|Hn]; [exact Hp|exfalso].
  apply not_prime_divide in Hn; [|lia].
  destruct Hn as (d & Hd & c & Hc).
  assert (Hcpos : 1 < c) by nia.
  destruct (Z.le_gt_cases d c) as [Hle|Hgt].
  - pose proof (divisor_is_large d ltac:(exists c; lia) ltac:(lia)). nia.
  - pose proof (divisor_is_large c ltac:(exists d; lia) ltac:(lia)). nia.
Qed.

End LucasLehmer.

(** [2^521 - 1] passes the test. *)
Theorem PRIME_MODULUS_prime : prime PRIME_MODULUS.
Proof.
  assert (E : PRIME_MODULUS = 2 ^ Z.of_nat (519 + 2) - 1) by reflexivity.
  rewrite E. apply lucas_lehmer.
  rewrite <- fastResidue_residue by lia. vm_compute. reflexivity.
Qed.

(* ================================================================== *)
(** * Arithmetic in the prime field *)
(* ================================================================== *)

Lemma prime_field_no_zero_divisors a b :
  a mod PRIME_MODULUS <> 0 -> b mod PRIME_MODULUS <> 0 ->
  (a * b) mod PRIME_MODULUS <> 0.
Proof.
  pose proof PRIME_MODULUS_pos as HP.
  intros Ha Hb Hab.
  apply Z.mod_divide in Hab; [|lia].
  apply prime_mult in Hab; [|exact PRIME_MODULUS_prime].
  destruct Hab as [H|H]; apply Z.mod_divide in H; lia.
Qed.

Lemma modInverse_field d :
  0 < d < PRIME_MODULUS ->
  exists v, modInverse d PRIME_MODULUS = Ok v /\ (d * v) mod PRIME_MODULUS = 1.
Proof.
  intros Hd. apply modInverse_inverse; [apply PRIME_MODULUS_gt1|lia|].
  apply Zgcd_1_rel_prime. apply rel_prime_le_prime; [exact PRIME_MODULUS_prime|lia].
Qed.

(** On a reduced argument [modInverse] always returns. *)
Lemma modInverse_total d :
  0 <= d < PRIME_MODULUS -> exists v, modInverse d PRIME_MODULUS = Ok v.
Proof.
  intros Hd. destruct (Z.eq_dec d 0) as [->|Hz].
  - exists 1. apply modInverse_zero. pose proof PRIME_MODULUS_gt1. lia.
  - destruct (modInverse_field d) as (v & Hv & _); [lia|eauto].
Qed.

(** The normalisation [if (diff < 0n) diff += PRIME_MODULUS] after [%]. *)
Lemma normalized_rem a :
  (if Z.rem a PRIME_MODULUS <? 0 then Z.rem a PRIME_MODULUS + PRIME_MODULUS
   else Z.rem a PRIME_MODULUS) = a mod PRIME_MODULUS.
Proof.
  pose proof PRIME_MODULUS_pos as HP.
  pose proof (rem_range PRIME_MODULUS a HP) as Hr.
  pose proof (rem_eqm PRIME_MODULUS a ltac:(lia)) as He.
  destruct (Z.ltb_spec (Z.rem a PRIME_MODULUS) 0).
  - apply (mod_of_eqm PRIME_MODULUS); [lia| |lia].
    unfold eqm in *. rewrite <- He.
    replace (Z.rem a PRIME_MODULUS + PRIME_MODULUS)
      with (Z.rem a PRIME_MODULUS + 1 * PRIME_MODULUS) by ring.
    apply Z_mod_plus_full.
  - apply (mod_of_eqm PRIME_MODULUS); [lia|exact He|lia].
Qed.

(* ================================================================== *)
(** * The loops of [reconstructSecret] in closed form *)
(* ================================================================== *)

Lemma map_nth_seq {A : Type} (d : A) (l pre : list A) :
  map (fun m => nth m (pre ++ l) d) (seq (List.length pre) (List.length l)) = l.
Proof.
  revert pre. induction l as [|a l IH]; intros pre; [reflexivity|].
  simpl. rewrite app_nth2, Nat.sub_diag by lia. simpl. f_equal.
  specialize (IH (pre ++ [a])%list).
  rewrite length_app, Nat.add_comm in IH. simpl in IH.
  rewrite <- app_assoc in IH. exact IH.
Qed.

Lemma fold_seq_no_skip {A B : Type} (g : A -> B -> A) (d : B) (l : list B) j idxs :
  ~ In j idxs ->
  forall a,
    fold_left (fun acc m => if Nat.eqb m j then acc else g acc (nth m l d)) idxs a
    = fold_left g (map (fun m => nth m l d) idxs) a.
Proof.
  induction idxs as [|i idxs IH]; intros Hj a; [reflexivity|].
  simpl. destruct (Nat.eqb_spec i j) as [->|_]; [exfalso; apply Hj; now left|].
  apply IH. intros H. apply Hj. now right.
Qed.

(** A loop over all indices that skips [j] is a loop over the list without
    its [j]-th element. *)
Lemma fold_seq_skip {A B : Type} (g : A -> B -> A) (d : B) (l : list B) j a :
  (j < List.length l)%nat ->
  fold_left (fun acc m => if Nat.eqb m j then acc else g acc (nth m l d))
    (seq 0 (List.length l)) a
  = fold_left g (removeAt j l) a.
Proof.
  intros Hj.
  replace (List.length l) with (j + S (List.length l - S j))%nat at 1 by lia.
  rewrite seq_app, fold_left_app. simpl seq. cbn [fold_left].
  rewrite Nat.eqb_refl.
  rewrite !fold_seq_no_skip by (rewrite in_seq; lia).
  unfold removeAt. rewrite fold_left_app. f_equal.
  - pose proof (map_nth_seq d (skipn (S j) l) (firstn (S j) l)) as E.
    rewrite length_firstn, length_skipn, Nat.min_l, firstn_skipn in E by lia.
    exact E.
  - f_equal.
    pose proof (map_nth_seq d (firstn j l) []) as E. simpl in E.
    rewrite length_firstn, Nat.min_l in E by lia.
    etransitivity; [|exact E]. apply map_ext_in. intros m Hm. apply in_seq in Hm.
    rewrite <- (firstn_skipn j l) at 1.
    rewrite app_nth1; [reflexivity|]. rewrite length_firstn. lia.
Qed.

Lemma fold_left_ext {A B : Type} (f g : A -> B -> A) l :
  (forall a b, f a b = g a b) -> forall a, fold_left f l a = fold_left g l a.
Proof.
  intros H. induction l as [|b l IH]; intros a; simpl; [reflexivity|].
  now rewrite H, IH.
Qed.

Lemma removeAt_In {A : Type} (l : list A) : forall j o,
  In o (removeAt j l) -> In o l.
Proof.
  unfold removeAt. induction l as [|a l IH]; intros j o H.
  - destruct j; simpl in H; contradiction.
  - destruct j as [|j]; simpl in H.
    + right. exact H.
    + destruct H as [H|H]; [now left|right; eauto].
Qed.

Lemma basis_unfold points j :
  (j < List.length points)%nat ->
  basis points j
  = fold_left (basis_step_on (px (nth j points (mkPoint 0 0))))
      (removeAt j points) (1, 1).
Proof.
  intros Hj. unfold basis.
  rewrite <- (fold_seq_skip (basis_step_on _) (mkPoint 0 0) points j) by assumption.
  apply fold_left_ext. intros [n d] m.
  unfold basis_step, basis_step_on. destruct (Nat.eqb m j); reflexivity.
Qed.

Lemma basis_fold_closed xj others : forall n d,
  Forall (fun o => 0 <= px o) others ->
  0 <= n < PRIME_MODULUS -> 0 <= d < PRIME_MODULUS ->
  fold_left (basis_step_on xj) others (n, d)
  = ((n * prodZ (map px others)) mod PRIME_MODULUS,
     (d * prodZ (map (fun o => (px o - xj) mod PRIME_MODULUS) others))
       mod PRIME_MODULUS).
Proof.
  pose proof PRIME_MODULUS_pos as HP.
  induction others as [|o others IH]; intros n d Hx Hn Hd.
  - simpl. rewrite !Z.mul_1_r, !Z.mod_small by lia. reflexivity.
  - apply Forall_cons_iff in Hx as [Hxo Hx].
    cbn [fold_left basis_step_on]. rewrite normalized_rem.
    pose proof (Z.mod_pos_bound (px o - xj) PRIME_MODULUS HP).
    rewrite !Z.rem_mod_nonneg by nia.
    rewrite IH; trivial; try (apply Z.mod_pos_bound; lia).
    cbn [map]. unfold prodZ. cbn [fold_right].
    rewrite !Z.mul_mod_idemp_l by lia. rewrite !Z.mul_assoc. reflexivity.
Qed.

Lemma basis_closed points j :
  (j < List.length points)%nat ->
  Forall (fun o => 0 <= px o) points ->
  basis points j
  = (numeratorOf (removeAt j points),
     denominatorOf (px (nth j points (mkPoint 0 0))) (removeAt j points)).
Proof.
  intros Hj Hx. rewrite basis_unfold by assumption.
  pose proof PRIME_MODULUS_gt1.
  rewrite basis_fold_closed; try lia.
  - unfold numeratorOf, denominatorOf. now rewrite !Z.mul_1_l.
  - apply Forall_forall. intros o Ho. apply removeAt_In in Ho.
    revert o Ho. now apply Forall_forall.
Qed.

Lemma interpolate_step_closed points acc j :
  (j < List.length points)%nat ->
  Forall (fun o => 0 <= px o) points ->
  exists v,
    interpolate_step points (Ok acc) j = Ok v
    /\ - PRIME_MODULUS < v < PRIME_MODULUS
    /\ eqm PRIME_MODULUS v (acc + termAt points j).
Proof.
  intros Hj Hx. pose proof PRIME_MODULUS_pos as HP.
  unfold interpolate_step. cbn [bind]. rewrite basis_closed by assumption.
  set (p := nth j points (mkPoint 0 0)). set (others := removeAt j points).
  destruct (modInverse_total (denominatorOf (px p) others)) as [inv Hinv].
  { unfold denominatorOf. apply Z.mod_pos_bound. lia. }
  rewrite Hinv. cbn [bind]. eexists. split; [reflexivity|].
  split; [apply rem_range; lia|].
  unfold termAt, lagrangeTerm, inverseOf. fold p others. rewrite Hinv.
  unfold eqm. rewrite (rem_eqm PRIME_MODULUS) by lia.
  rewrite <- Zplus_mod_idemp_r, (rem_eqm PRIME_MODULUS) by lia.
  now rewrite Zplus_mod_idemp_r.
Qed.

Lemma interpolate_fold points idxs : forall acc,
  (forall j, In j idxs -> (j < List.length points)%nat) ->
  Forall (fun o => 0 <= px o) points ->
  - PRIME_MODULUS < acc < PRIME_MODULUS ->
  exists v,
    fold_left (interpolate_step points) idxs (Ok acc) = Ok v
    /\ - PRIME_MODULUS < v < PRIME_MODULUS
    /\ eqm PRIME_MODULUS v (acc + sumZ (map (termAt points) idxs)).
Proof.
  induction idxs as [|j idxs IH]; intros acc Hidx Hx Hacc.
  - exists acc. simpl. rewrite Z.add_0_r. repeat split; try lia.
  - destruct (interpolate_step_closed points acc j) as (v & Ev & Hv & Cv);
      [apply Hidx; now left|assumption|].
    cbn [fold_left]. rewrite Ev.
    destruct (IH v) as (w & Ew & Hw & Cw); trivial.
    { intros i Hi. apply Hidx. now right. }
    exists w. repeat split; trivial; try lia.
    unfold eqm in *. rewrite Cw. cbn [map sumZ fold_right].
    rewrite <- Zplus_mod_idemp_l, Cv, Zplus_mod_idemp_l. f_equal.
    unfold sumZ. ring.
Qed.

Lemma removeAt_middle {A : Type} (pre : list A) p r :
  removeAt (List.length pre) (pre ++ p :: r) = (pre ++ r)%list.
Proof.
  unfold removeAt. induction pre as [|a pre IH]; simpl; [reflexivity|].
  f_equal. exact IH.
Qed.

Lemma termAt_sum l : forall pre,
  sumZ (map (termAt (pre ++ l)%list) (seq (List.length pre) (List.length l)))
  = lagrangeSumFrom pre l.
Proof.
  induction l as [|p r IH]; intros pre; [reflexivity|].
  cbn [List.length seq map sumZ fold_right lagrangeSumFrom].
  f_equal.
  - unfold termAt. rewrite removeAt_middle, app_nth2, Nat.sub_diag by lia.
    reflexivity.
  - specialize (IH (pre ++ [p])%list).
    rewrite <- app_assoc, length_app, Nat.add_comm in IH. exact IH.
Qed.

Lemma interpolate_closed points :
  Forall (fun o => 0 <= px o) points ->
  exists v,
    interpolate points = Ok v
    /\ (if v <? 0 then v + PRIME_MODULUS else v)
       = lagrangeSum points mod PRIME_MODULUS.
Proof.
  intros Hx. pose proof PRIME_MODULUS_pos as HP. unfold interpolate.
  destruct (interpolate_fold points (seq 0 (List.length points)) 0)
    as (v & Ev & Hv & Cv); trivial; [|lia|].
  { intros j Hj. apply in_seq in Hj. lia. }
  exists v. split; [exact Ev|].
  rewrite Z.add_0_l in Cv.
  pose proof (termAt_sum points []) as Es. simpl in Es. rewrite Es in Cv.
  fold (lagrangeSum points) in Cv. unfold eqm in Cv.
  destruct (Z.ltb_spec v 0).
  - apply (mod_of_eqm PRIME_MODULUS); [lia| |lia].
    unfold eqm. rewrite <- Cv.
    replace (v + PRIME_MODULUS) with (v + 1 * PRIME_MODULUS) by ring.
    apply Z_mod_plus_full.
  - apply (mod_of_eqm PRIME_MODULUS); [lia|exact Cv|lia].
Qed.

(** What a successful parse of the share list looks like. *)
Lemma mapM_parseShare_nonneg shares : forall points,
  mapM parseShare shares = Ok points ->
  Forall (fun o => 0 <= px o /\ 0 <= py o) points.
Proof.
  induction shares as [|s shares IH]; intros points H; simpl in H.
  - inversion H. constructor.
  - unfold parseShare in H at 1.
    destruct (BigInt0x (orUndefined (nth_error (split "-" (data s)) 0)))
      as [x| |] eqn:Ex; try discriminate.
    destruct (BigInt0x (orUndefined (nth_error (split "-" (data s)) 1)))
      as [y| |] eqn:Ey; try discriminate.
    cbn [bind] in H.
    destruct (mapM parseShare shares) as [ps| |]; try discriminate.
    cbn [bind] in H. inversion H; subst. constructor; [|now apply IH].
    simpl. split; eapply BigInt0x_nonneg; eassumption.
Qed.

(** [reconstructSecret] in closed form: the sum of the Lagrange terms,
    reduced, in its even-length hexadecimal rendering. *)
Theorem reconstructSecret_closed shares points :
  mapM parseShare shares = Ok points ->
  reconstructSecret shares
  = Ok (evenHex (lagrangeSum points mod PRIME_MODULUS)).
Proof.
  intros Hp. unfold reconstructSecret. rewrite Hp. cbn [bind].
  destruct (interpolate_closed points) as (v & Ev & Hv).
  { apply mapM_parseShare_nonneg in Hp.
    eapply Forall_impl; [|exact Hp]. simpl. tauto. }
  rewrite Ev. cbn [bind]. now rewrite Hv.
Qed.

(* ================================================================== *)
(** * Order independence *)
(* ================================================================== *)

Lemma prodZ_perm l l' : Permutation l l' -> prodZ l = prodZ l'.
Proof.
  unfold prodZ. induction 1; simpl; try congruence; ring.
Qed.

Lemma lagrangeTerm_perm p others others' :
  Permutation others others' -> lagrangeTerm p others = lagrangeTerm p others'.
Proof.
  intros H. unfold lagrangeTerm, numeratorOf, denominatorOf.
  rewrite (prodZ_perm (map px others) (map px others')) by now apply Permutation_map.
  rewrite (prodZ_perm (map _ others) (map (fun o => (px o - px p) mod PRIME_MODULUS) others'))
    by now apply Permutation_map.
  reflexivity.
Qed.

Lemma lagrangeSumFrom_perm_pre l : forall pre pre',
  Permutation pre pre' -> lagrangeSumFrom pre l = lagrangeSumFrom pre' l.
Proof.
  induction l as [|p r IH]; intros pre pre' H; [reflexivity|].
  simpl. f_equal.
  - apply lagrangeTerm_perm. now apply Permutation_app_tail.
  - apply IH. now apply Permutation_app_tail.
Qed.

Lemma lagrangeSumFrom_perm l l' :
  Permutation l l' -> forall pre, lagrangeSumFrom pre l = lagrangeSumFrom pre l'.
Proof.
  induction 1 as [|x l l' H IH|x y l|l l' l'' H1 IH1 H2 IH2]; intros pre.
  - reflexivity.
  - simpl. f_equal; [|apply IH].
    apply lagrangeTerm_perm. now apply Permutation_app_head.
  - simpl. rewrite !Z.add_assoc. f_equal.
    + rewrite Z.add_comm. f_equal.
      * apply lagrangeTerm_perm. rewrite <- app_assoc. reflexivity.
      * apply lagrangeTerm_perm. rewrite <- app_assoc. reflexivity.
    + apply lagrangeSumFrom_perm_pre. rewrite <- !app_assoc.
      apply Permutation_app_head. simpl. apply perm_swap.
  - now rewrite IH1, IH2.
Qed.

Lemma lagrangeSum_perm points points' :
  Permutation points points' -> lagrangeSum points = lagrangeSum points'.
Proof. intros H. now apply lagrangeSumFrom_perm. Qed.

Lemma mapM_parseShare_Ok shares : forall points,
  mapM parseShare shares = Ok points <->
  (Forall (fun s => exists p, parseShare s = Ok p) shares
   /\ points = map pointOf shares).
Proof.
  induction shares as [|s shares IH]; intros points; simpl.
  - split; [intros H; inversion H; split; [constructor|reflexivity]|].
    intros [_ ->]. reflexivity.
  - unfold pointOf at 1.
    destruct (parseShare s) as [p| |] eqn:Es; cbn [bind].
    + destruct (mapM parseShare shares) as [ps| |] eqn:Em; cbn [bind].
      * destruct (IH ps) as [IH1 _]. destruct (IH1 eq_refl) as [Hall Hps].
        split.
        -- intros H. inversion H; subst. split; [|reflexivity].
           constructor; [eauto|assumption].
        -- intros [_ ->]. now rewrite Hps.
      * split; [discriminate|]. intros [Hall _].
        apply Forall_cons_iff in Hall as [_ Hall].
        destruct (IH (map pointOf shares)) as [_ IH2].
        specialize (IH2 (conj Hall eq_refl)). discriminate.
      * split; [discriminate|]. intros [Hall _].
        apply Forall_cons_iff in Hall as [_ Hall].
        destruct (IH (map pointOf shares)) as [_ IH2].
        specialize (IH2 (conj Hall eq_refl)). discriminate.
    + split; [discriminate|]. intros [Hall _].
      apply Forall_cons_iff in Hall as [[p Hp] _]. congruence.
    + split; [discriminate|]. intros [Hall _].
      apply Forall_cons_iff in Hall as [[p Hp] _]. congruence.
Qed.

Lemma mapM_parseShare_perm shares shares' points :
  Permutation shares shares' ->
  mapM parseShare shares = Ok points ->
  exists points',
    mapM parseShare shares' = Ok points' /\ Permutation points points'.
Proof.
  intros Hperm Hp. apply mapM_parseShare_Ok in Hp as [Hall ->].
  exists (map pointOf shares'). split.
  - apply mapM_parseShare_Ok. split; [|reflexivity].
    eapply Permutation_Forall; eassumption.
  - now apply Permutation_map.
Qed.

(** C3. Shares with pairwise-distinct [x] values give the same result in
    any order: [reconstructSecret] on a permutation of the list returns what
    it returns on the list, and that is a value. *)
Theorem reconstructSecret_order_independent
    (shares shares' : list Share) (points : list Point) :
  mapM parseShare shares = Ok points ->
  NoDup (map px points) ->
  Permutation shares shares' ->
  reconstructSecret shares' = reconstructSecret shares
  /\ exists hex, reconstructSecret shares = Ok hex.
Proof.
  intros Hp _ Hperm.
  destruct (mapM_parseShare_perm shares shares' points Hperm Hp)
    as (points' & Hp' & Hpp).
  rewrite (reconstructSecret_closed shares points Hp).
  rewrite (reconstructSecret_closed shares' points' Hp').
  rewrite (lagrangeSum_perm points points' Hpp). eauto.
Qed.

Lemma reconstructSecret_order_independent_witness :
  reconstructSecret [mkShare 3 "3-1c5"; mkShare 1 "1-1f"; mkShare 2 "2-a3"]
  = reconstructSecret threeShares
  /\ exists hex, reconstructSecret threeShares = Ok hex.
Proof.
  apply (reconstructSecret_order_independent threeShares _
           [mkPoint 1 31; mkPoint 2 163; mkPoint 3 453]).
  - reflexivity.
  - repeat constructor; simpl; intuition congruence.
  - unfold threeShares.
    apply (Permutation_cons_app [mkShare 3 "3-1c5"] [mkShare 2 "2-a3"]).
    apply perm_swap.
Defined.

(* ================================================================== *)
(** * Duplicate [x] values are not detected *)
(* ================================================================== *)

Lemma prodZ_zero l : In 0 l -> prodZ l = 0.
Proof.
  unfold prodZ. induction l as [|a l IH]; simpl; [contradiction|].
  intros [->|H]; [reflexivity|]. rewrite IH by assumption. ring.
Qed.

Lemma nth_error_removeAt {A : Type} (l : list A) : forall i j a,
  i <> j -> nth_error l j = Some a -> In a (removeAt i l).
Proof.
  unfold removeAt. induction l as [|b l IH]; intros i j a Hij Hj.
  - destruct j; discriminate.
  - destruct i as [|i], j as [|j]; simpl in *; try congruence.
    + eapply nth_error_In; eassumption.
    + inversion Hj; subst. now left.
    + right. eapply IH; [|eassumption]. congruence.
Qed.

(** C2, as the code has it. When the shares parse, [reconstructSecret]
    returns a hexadecimal string whether or not two shares have the same
    [x]: for a share whose [x] occurs again the denominator is 0,
    [modInverse] answers 1 for it without entering its loop, and the term
    is added like any other. No duplicate is reported. *)
Theorem reconstructSecret_duplicate_x_not_detected
    (shares : list Share) (points : list Point) (i j : nat) (p q : Point) :
  mapM parseShare shares = Ok points ->
  nth_error points i = Some p ->
  nth_error points j = Some q ->
  i <> j ->
  px p = px q ->
  denominatorOf (px p) (removeAt i points) = 0
  /\ modInverse 0 PRIME_MODULUS = Ok 1
  /\ reconstructSecret shares
     = Ok (evenHex (lagrangeSum points mod PRIME_MODULUS)).
Proof.
  intros Hp Hi Hj Hij Hx. pose proof PRIME_MODULUS_gt1 as HP.
  split; [|split].
  - unfold denominatorOf. rewrite prodZ_zero; [reflexivity|].
    apply in_map_iff. exists q. split.
    + rewrite Hx, Z.sub_diag. apply Z.mod_0_l. lia.
    + eapply nth_error_removeAt; eassumption.
  - apply modInverse_zero. lia.
  - now apply reconstructSecret_closed.
Qed.

Lemma reconstructSecret_duplicate_x_not_detected_witness :
  denominatorOf 1 (removeAt 0 [mkPoint 1 5; mkPoint 1 7]) = 0
  /\ modInverse 0 PRIME_MODULUS = Ok 1
  /\ reconstructSecret duplicateShares
     = Ok (evenHex (lagrangeSum [mkPoint 1 5; mkPoint 1 7] mod PRIME_MODULUS)).
Proof.
  apply (reconstructSecret_duplicate_x_not_detected duplicateShares
           [mkPoint 1 5; mkPoint 1 7] 0 1 (mkPoint 1 5) (mkPoint 1 7));
    [reflexivity | reflexivity | reflexivity | discriminate | reflexivity].
Defined.

(** The claim as stated fails: two shares with the same [x] are accepted
    and a well-formed hexadecimal string comes back. *)
Lemma reconstructSecret_duplicate_x_counterexample :
  mapM parseShare duplicateShares = Ok [mkPoint 1 5; mkPoint 1 7]
  /\ reconstructSecret duplicateShares = Ok "0c"
  /\ ~ (exists e, reconstructSecret duplicateShares = Throw e).
Proof.
  assert (E : reconstructSecret duplicateShares = Ok "0c") by (vm_compute; reflexivity).
  split; [reflexivity|]. split; [exact E|].
  intros [e He]. rewrite E in He. discriminate.
Qed.

(* ================================================================== *)
(** * Polynomials and their roots in the prime field *)
(* ================================================================== *)

Lemma polySumFrom_peval f x : forall i,
  polySumFrom i f x = x ^ Z.of_nat i * peval f x.
Proof.
  induction f as [|c r IH]; intros i; simpl; [ring|].
  rewrite IH, Nat2Z.inj_succ, Z.pow_succ_r by lia. ring.
Qed.

Lemma polySum_peval f x : polySum f x = peval f x.
Proof.
  unfold polySum. rewrite polySumFrom_peval.
  change (Z.of_nat 0) with 0. rewrite Z.pow_0_r. ring.
Qed.

Lemma peval_padd f : forall g x, peval (padd f g) x = peval f x + peval g x.
Proof.
  induction f as [|a f IH]; intros [|b g] x; simpl; try ring.
  rewrite IH. ring.
Qed.

Lemma length_padd f : forall g,
  List.length (padd f g) = Nat.max (List.length f) (List.length g).
Proof.
  induction f as [|a f IH]; intros [|b g]; simpl; try reflexivity.
  now rewrite IH.
Qed.

Lemma peval_pscale c f x : peval (pscale c f) x = c * peval f x.
Proof.
  unfold pscale. induction f as [|a f IH]; simpl; [ring|]. rewrite IH. ring.
Qed.

Lemma isPoly_ext k F G : (forall x, F x = G x) -> isPoly k F -> isPoly k G.
Proof.
  intros E (f & Hl & Hf). exists f. split; [exact Hl|].
  intros x. now rewrite <- E.
Qed.

Lemma isPoly_weaken k k' F : (k <= k')%nat -> isPoly k F -> isPoly k' F.
Proof. intros Hk (f & Hl & Hf). exists f. split; [lia|exact Hf]. Qed.

Lemma isPoly_zero k : isPoly k (fun _ => 0).
Proof. exists []. split; [simpl; lia|reflexivity]. Qed.

Lemma isPoly_const k c : (1 <= k)%nat -> isPoly k (fun _ => c).
Proof. intros Hk. exists [c]. split; [exact Hk|]. intros x. simpl. ring. Qed.

Lemma isPoly_add k F G :
  isPoly k F -> isPoly k G -> isPoly k (fun x => F x + G x).
Proof.
  intros (f & Hlf & Hf) (g & Hlg & Hg). exists (padd f g). split.
  - rewrite length_padd. lia.
  - intros x. now rewrite peval_padd, Hf, Hg.
Qed.

Lemma isPoly_scale k c F : isPoly k F -> isPoly k (fun x => c * F x).
Proof.
  intros (f & Hl & Hf). exists (pscale c f). split.
  - unfold pscale. now rewrite length_map.
  - intros x. now rewrite peval_pscale, Hf.
Qed.

Lemma isPoly_mul_X k F : isPoly k F -> isPoly (S k) (fun x => x * F x).
Proof.
  intros (f & Hl & Hf). exists (0 :: f). split; [simpl; lia|].
  intros x. simpl. now rewrite Hf.
Qed.

Lemma isPoly_mul_linear k a F :
  isPoly k F -> isPoly (S k) (fun x => (a - x) * F x).
Proof.
  intros H.
  apply (isPoly_ext _ (fun x => a * F x + (-1) * (x * F x))); [intros; ring|].
  apply isPoly_add.
  - apply (isPoly_weaken k); [lia|]. now apply isPoly_scale.
  - apply isPoly_scale. now apply isPoly_mul_X.
Qed.

(** Division by [X - r]. *)
Lemma peval_divide f r :
  exists q, List.length q = pred (List.length f)
            /\ forall x, peval f x = (x - r) * peval q x + peval f r.
Proof.
  induction f as [|c f (q & Hl & Hq)].
  - exists []. split; [reflexivity|]. intros x. simpl. ring.
  - exists (padd f (pscale r q)). split.
    + rewrite length_padd. unfold pscale. rewrite length_map, Hl. simpl. lia.
    + intros x. simpl. rewrite peval_padd, peval_pscale.
      rewrite (Hq x) at 2. ring_simplify.
      rewrite (Hq x) at 1. ring.
Qed.

Lemma isPoly_divide k F r :
  isPoly (S k) F ->
  exists Q, isPoly k Q /\ forall x, F x = (x - r) * Q x + F r.
Proof.
  intros (f & Hl & Hf). destruct (peval_divide f r) as (q & Hlq & Hq).
  exists (peval q). split.
  - exists q. split; [lia|reflexivity].
  - intros x. now rewrite !Hf, (Hq x).
Qed.

(** A polynomial with at most [k] coefficients and [k] roots that are
    distinct modulo the prime vanishes everywhere modulo the prime. *)
Lemma roots_bound k : forall F xs,
  isPoly k F ->
  List.length xs = k ->
  NoDup (map (fun x => x mod PRIME_MODULUS) xs) ->
  (forall x, In x xs -> F x mod PRIME_MODULUS = 0) ->
  forall x, F x mod PRIME_MODULUS = 0.
Proof.
  pose proof PRIME_MODULUS_pos as HP.
  induction k as [|k IH]; intros F xs HF Hlen Hnd Hroots x.
  - destruct HF as (f & Hl & Hf). destruct f; [|simpl in Hl; lia].
    rewrite Hf. reflexivity.
  - destruct xs as [|r xs]; [discriminate|].
    destruct (isPoly_divide k F r HF) as (Q & HQ & HFQ).
    inversion Hnd as [|? ? Hr Hnd']; subst.
    assert (HFr : F r mod PRIME_MODULUS = 0) by (apply Hroots; now left).
    assert (HQ0 : forall y, Q y mod PRIME_MODULUS = 0).
    { apply (IH Q xs); trivial; [simpl in Hlen; lia|].
      intros y Hy.
      destruct (Z.eq_dec (Q y mod PRIME_MODULUS) 0) as [E|E]; [exact E|exfalso].
      assert (Hd : (y - r) mod PRIME_MODULUS <> 0).
      { intros Hd. apply Hr. apply in_map_iff. exists y. split; [|exact Hy].
        apply Z.mod_divide in Hd; [|lia]. destruct Hd as [c Hc].
        replace y with (r + c * PRIME_MODULUS) by lia.
        apply Z_mod_plus_full. }
      apply (prime_field_no_zero_divisors _ _ Hd E).
      assert (HFy : F y mod PRIME_MODULUS = 0) by (apply Hroots; now right).
      rewrite HFQ in HFy.
      rewrite <- Zplus_mod_idemp_r, HFr, Z.add_0_r in HFy. exact HFy. }
    rewrite HFQ, <- Zplus_mod_idemp_r, HFr, Z.add_0_r.
    rewrite <- Zmult_mod_idemp_r, HQ0, Z.mul_0_r. reflexivity.
Qed.

(* ================================================================== *)
(** * Lagrange interpolation *)
(* ================================================================== *)

Lemma isPoly_prod others :
  isPoly (S (List.length others)) (fun X => prodZ (map (fun o => px o - X) others)).
Proof.
  induction others as [|o others IH].
  - apply (isPoly_ext _ (fun _ => 1)); [reflexivity|].
    apply isPoly_const. simpl. lia.
  - apply (isPoly_ext _
             (fun X => (px o - X) * prodZ (map (fun o => px o - X) others)));
      [reflexivity|].
    simpl List.length. now apply isPoly_mul_linear.
Qed.

Lemma isPoly_lagrangePolyFrom l : forall pre,
  isPoly (List.length pre + List.length l) (lagrangePolyFrom pre l).
Proof.
  induction l as [|p r IH]; intros pre.
  - apply isPoly_zero.
  - simpl lagrangePolyFrom. apply isPoly_add.
    + apply isPoly_scale.
      apply (isPoly_weaken (S (List.length (pre ++ r))));
        [rewrite length_app; simpl; lia|apply isPoly_prod].
    + specialize (IH (pre ++ [p])%list).
      rewrite length_app in IH. simpl in *.
      replace (List.length pre + S (List.length r))%nat
        with (List.length pre + 1 + List.length r)%nat by lia.
      exact IH.
Qed.

Lemma prodZ_mod l :
  prodZ (map (fun x => x mod PRIME_MODULUS) l) mod PRIME_MODULUS
  = prodZ l mod PRIME_MODULUS.
Proof.
  pose proof PRIME_MODULUS_pos.
  unfold prodZ. induction l as [|a l IH]; simpl; [reflexivity|].
  rewrite Zmult_mod, IH, Zmod_mod, <- Zmult_mod. reflexivity.
Qed.

Lemma prodZ_nonzero l :
  Forall (fun x => x mod PRIME_MODULUS <> 0) l ->
  prodZ l mod PRIME_MODULUS <> 0.
Proof.
  pose proof PRIME_MODULUS_gt1.
  unfold prodZ. induction 1 as [|a l Ha Hl IH]; simpl.
  - rewrite Z.mod_small by lia. lia.
  - now apply prime_field_no_zero_divisors.
Qed.

Lemma mod_add_cong n a a' b b' :
  a mod n = a' mod n -> b mod n = b' mod n -> (a + b) mod n = (a' + b') mod n.
Proof. intros Ha Hb. rewrite (Zplus_mod a b), (Zplus_mod a' b'). congruence. Qed.

Lemma mod_mul_cong n a a' b b' :
  a mod n = a' mod n -> b mod n = b' mod n -> (a * b) mod n = (a' * b') mod n.
Proof. intros Ha Hb. rewrite (Zmult_mod a b), (Zmult_mod a' b'). congruence. Qed.

(** At zero the polynomial is the sum the code computes. *)
Lemma lagrangePolyFrom_zero l : forall pre,
  lagrangePolyFrom pre l 0 mod PRIME_MODULUS
  = lagrangeSumFrom pre l mod PRIME_MODULUS.
Proof.
  induction l as [|p r IH]; intros pre; [reflexivity|].
  simpl. apply mod_add_cong; [|apply IH].
  unfold coefOf, lagrangeTerm, numeratorOf.
  rewrite (map_ext (fun o => px o - 0) px) by (intros; ring).
  replace (py p * inverseOf (denominatorOf (px p) (pre ++ r))
           * prodZ (map px (pre ++ r)))
    with (py p * prodZ (map px (pre ++ r))
          * inverseOf (denominatorOf (px p) (pre ++ r))) by ring.
  apply mod_mul_cong; [|reflexivity].
  apply mod_mul_cong; [reflexivity|]. now rewrite Zmod_mod.
Qed.

(** The numerator-over-denominator of a point whose [x] differs from all
    the others is the inverse of the denominator. *)
Lemma inverse_cancels xj others :
  Forall (fun o => (px o - xj) mod PRIME_MODULUS <> 0) others ->
  (inverseOf (denominatorOf xj others)
   * prodZ (map (fun o => px o - xj) others)) mod PRIME_MODULUS = 1.
Proof.
  intros Hd. pose proof PRIME_MODULUS_gt1 as HP.
  assert (Hden : denominatorOf xj others
                 = prodZ (map (fun o => px o - xj) others) mod PRIME_MODULUS).
  { unfold denominatorOf.
    rewrite <- (map_map (fun o => px o - xj) (fun d => d mod PRIME_MODULUS)).
    apply prodZ_mod. }
  assert (Hnz : denominatorOf xj others <> 0).
  { rewrite Hden. apply prodZ_nonzero. apply Forall_map. exact Hd. }
  destruct (modInverse_field (denominatorOf xj others)) as (v & Ev & Hv).
  { rewrite Hden in *. pose proof (Z.mod_pos_bound
      (prodZ (map (fun o => px o - xj) others)) PRIME_MODULUS ltac:(lia)). lia. }
  unfold inverseOf. rewrite Ev.
  rewrite Hden, Zmult_mod_idemp_l, Z.mul_comm in Hv. exact Hv.
Qed.

Lemma lagrangePolyFrom_in_pre l : forall pre q,
  In q pre -> lagrangePolyFrom pre l (px q) = 0.
Proof.
  induction l as [|p r IH]; intros pre q Hq; [reflexivity|].
  simpl. rewrite prodZ_zero, IH.
  - ring.
  - apply in_or_app. now left.
  - apply in_map_iff. exists q. split; [ring|]. apply in_or_app. now left.
Qed.

(** The polynomial passes through every point. *)
Lemma lagrangePolyFrom_node l : forall pre q,
  In q l ->
  NoDup (map (fun o => px o mod PRIME_MODULUS) (pre ++ l)) ->
  lagrangePolyFrom pre l (px q) mod PRIME_MODULUS = py q mod PRIME_MODULUS.
Proof.
  pose proof PRIME_MODULUS_gt1 as HP.
  induction l as [|p r IH]; intros pre q Hq Hnd; [contradiction|].
  simpl lagrangePolyFrom.
  destruct (in_dec (fun a b : Point => ltac:(decide equality; apply Z.eq_dec)) q r)
    as [Hr|Hr].
  - (* [q] comes later: the term of [p] vanishes at [px q] *)
    rewrite prodZ_zero, Z.mul_0_r, Z.add_0_l.
    + apply IH; [exact Hr|]. now rewrite <- app_assoc.
    + apply in_map_iff. exists q. split; [ring|]. apply in_or_app. now right.
  - (* [q] is [p] *)
    destruct Hq as [->|Hq]; [|contradiction].
    rewrite lagrangePolyFrom_in_pre, Z.add_0_r
      by (apply in_or_app; right; now left).
    unfold coefOf. rewrite <- Z.mul_assoc, <- Zmult_mod_idemp_r.
    rewrite inverse_cancels; [now rewrite Z.mul_1_r|].
    apply Forall_forall. intros o Ho Hz.
    apply Z.mod_divide in Hz; [|lia]. destruct Hz as [c Hc].
    assert (E : px o mod PRIME_MODULUS = px q mod PRIME_MODULUS).
    { replace (px o) with (px q + c * PRIME_MODULUS) by lia.
      apply Z_mod_plus_full. }
    rewrite map_app in Hnd. simpl in Hnd.
    apply NoDup_remove_2 in Hnd. apply Hnd. rewrite <- E, <- map_app.
    apply in_map_iff. exists o. split; [reflexivity|exact Ho].
Qed.

(** Lagrange interpolation at zero: for points whose [x] are distinct
    modulo the prime, the sum the code computes is the value at zero of
    every polynomial through the points that has no more coefficients than
    there are points. *)
Theorem lagrangeSum_interpolates points f :
  NoDup (map (fun o => px o mod PRIME_MODULUS) points) ->
  (List.length f <= List.length points)%nat ->
  (forall p, In p points -> peval f (px p) mod PRIME_MODULUS = py p mod PRIME_MODULUS) ->
  lagrangeSum points mod PRIME_MODULUS = peval f 0 mod PRIME_MODULUS.
Proof.
  intros Hnd Hlen Hf. pose proof PRIME_MODULUS_pos as HP.
  unfold lagrangeSum. rewrite <- lagrangePolyFrom_zero.
  set (G := fun X => lagrangePolyFrom [] points X + (-1) * peval f X).
  assert (HG : forall X, G X mod PRIME_MODULUS = 0).
  { apply (roots_bound (List.length points) G (map px points)).
    - apply isPoly_add.
      + apply (isPoly_lagrangePolyFrom points []).
      + apply isPoly_scale. exists f. split; [exact Hlen|reflexivity].
    - apply length_map.
    - now rewrite map_map.
    - intros x Hx. apply in_map_iff in Hx as (q & <- & Hq). unfold G.
      rewrite Zplus_mod, (lagrangePolyFrom_node points [] q Hq Hnd).
      rewrite <- Zmult_mod_idemp_r, (Hf q Hq), Zmult_mod_idemp_r, <- Zplus_mod.
      replace (py q + -1 * py q) with 0 by ring. reflexivity. }
  specialize (HG 0). unfold G in HG.
  apply Z.mod_divide in HG; [|lia]. destruct HG as [c Hc].
  replace (lagrangePolyFrom [] points 0) with (peval f 0 + c * PRIME_MODULUS) by lia.
  apply Z_mod_plus_full.
Qed.

(** Such a polynomial exists. *)
Lemma interpolating_polynomial_exists points :
  NoDup (map (fun o => px o mod PRIME_MODULUS) points) ->
  exists f,
    (List.length f <= List.length points)%nat
    /\ forall p, In p points ->
         peval f (px p) mod PRIME_MODULUS = py p mod PRIME_MODULUS.
Proof.
  intros Hnd.
  destruct (isPoly_lagrangePolyFrom points []) as (f & Hl & Hf).
  exists f. split; [exact Hl|]. intros p Hp.
  rewrite <- Hf. now apply (lagrangePolyFrom_node points []).
Qed.

(* ================================================================== *)
(** * The result of [reconstructSecret] *)
(* ================================================================== *)

(** C6. For a share list that parses and whose [x] values are distinct
    modulo the prime, [reconstructSecret] returns a string of an even
    number of lowercase hexadecimal digits: the plain rendering of its
    value, with one ['0'] in front exactly when that rendering has an odd
    number of digits.  Its value is [f(0) mod P] for the polynomial [f]
    through the points: such an [f] with no more coefficients than points
    exists, and every such [f] gives the same value. *)
Theorem reconstructSecret_even_hex_interpolated
    (shares : list Share) (points : list Point) :
  mapM parseShare shares = Ok points ->
  NoDup (map (fun o => px o mod PRIME_MODULUS) points) ->
  exists hex,
    reconstructSecret shares = Ok hex
    /\ Nat.Even (String.length hex)
    /\ allChars isLowerHexDigit hex = true
    /\ (Nat.Even (String.length (toString16 (hexValue hex))) ->
        hex = toString16 (hexValue hex))
    /\ (Nat.Odd (String.length (toString16 (hexValue hex))) ->
        hex = String "0" (toString16 (hexValue hex)))
    /\ (exists f,
          (List.length f <= List.length points)%nat
          /\ forall p, In p points ->
               polySum f (px p) mod PRIME_MODULUS = py p mod PRIME_MODULUS)
    /\ (forall f,
          (List.length f <= List.length points)%nat ->
          (forall p, In p points ->
             polySum f (px p) mod PRIME_MODULUS = py p mod PRIME_MODULUS) ->
          hexValue hex = polySum f 0 mod PRIME_MODULUS).
Proof.
  intros Hp Hnd. pose proof PRIME_MODULUS_pos as HP.
  set (v := lagrangeSum points mod PRIME_MODULUS).
  assert (Hv : 0 <= v) by (apply Z.mod_pos_bound; lia).
  exists (evenHex v).
  split; [now apply reconstructSecret_closed|].
  split; [apply evenHex_length|].
  split; [now apply evenHex_lowerHex|].
  rewrite hexValue_evenHex by assumption.
  split; [|split; [|split]].
  - intros [c Hc]. unfold evenHex. rewrite Hc.
    replace (2 * c)%nat with (c * 2)%nat by lia.
    now rewrite Nat.Div0.mod_mul.
  - intros [c Hc]. unfold evenHex. rewrite Hc.
    replace (2 * c + 1)%nat with (1 + c * 2)%nat by lia.
    now rewrite Nat.Div0.mod_add.
  - destruct (interpolating_polynomial_exists points Hnd) as (f & Hl & Hf).
    exists f. split; [exact Hl|]. intros p Hin.
    rewrite polySum_peval. now apply Hf.
  - intros f Hl Hf. rewrite polySum_peval. unfold v.
    apply lagrangeSum_interpolates; trivial.
    intros p Hin. rewrite <- polySum_peval. now apply Hf.
Qed.

Lemma reconstructSecret_even_hex_interpolated_witness :
  exists hex,
    reconstructSecret threeShares = Ok hex
    /\ Nat.Even (String.length hex)
    /\ allChars isLowerHexDigit hex = true
    /\ (Nat.Even (String.length (toString16 (hexValue hex))) ->
        hex = toString16 (hexValue hex))
    /\ (Nat.Odd (String.length (toString16 (hexValue hex))) ->
        hex = String "0" (toString16 (hexValue hex)))
    /\ (exists f,
          (List.length f <= List.length [mkPoint 1 31; mkPoint 2 163; mkPoint 3 453])%nat
          /\ forall p, In p [mkPoint 1 31; mkPoint 2 163; mkPoint 3 453] ->
               polySum f (px p) mod PRIME_MODULUS = py p mod PRIME_MODULUS)
    /\ (forall f,
          (List.length f <= List.length [mkPoint 1 31; mkPoint 2 163; mkPoint 3 453])%nat ->
          (forall p, In p [mkPoint 1 31; mkPoint 2 163; mkPoint 3 453] ->
             polySum f (px p) mod PRIME_MODULUS = py p mod PRIME_MODULUS) ->
          hexValue hex = polySum f 0 mod PRIME_MODULUS).
Proof.
  apply (reconstructSecret_even_hex_interpolated threeShares
           [mkPoint 1 31; mkPoint 2 163; mkPoint 3 453]).
  - reflexivity.
  - vm_compute. repeat constructor; simpl; intuition congruence.
Defined.

(* ================================================================== *)
(** * Splitting, then reconstructing *)
(* ================================================================== *)

Lemma mapM_parseShare_written coeffs idxs :
  Forall (fun i => 0 <= i) idxs ->
  mapM parseShare (map (shareOfPoly coeffs) idxs)
  = Ok (map (pointOfIndex coeffs) idxs).
Proof.
  pose proof PRIME_MODULUS_pos as HP.
  induction 1 as [|i idxs Hi His IH]; [reflexivity|].
  simpl. unfold shareOfPoly at 1. rewrite parseShare_written;
    [|assumption|apply Z.mod_pos_bound; lia].
  cbn [bind]. rewrite IH. reflexivity.
Qed.

(** A duplicate-free selection of the shares is the shares of a
    duplicate-free selection of the indices. *)
Lemma selection_indices coeffs n sel :
  NoDup sel ->
  incl sel (map (shareOfPoly coeffs) (indices n)) ->
  exists idxs,
    sel = map (shareOfPoly coeffs) idxs
    /\ NoDup idxs
    /\ (forall i, In i idxs -> 1 <= i <= n)
    /\ List.length idxs = List.length sel.
Proof.
  intros Hnd Hincl. exists (map id sel).
  assert (E : forall s, In s sel -> s = shareOfPoly coeffs (id s) /\ 1 <= id s <= n).
  { intros s Hs. apply Hincl in Hs. apply in_map_iff in Hs as (i & <- & Hi).
    simpl. split; [reflexivity|]. now apply indices_range. }
  split; [|split; [|split]].
  - rewrite map_map. rewrite <- (map_id sel) at 1.
    apply map_ext_in. intros s Hs. now apply E.
  - clear Hincl. induction Hnd as [|s sel Hs Hnd IH]; [constructor|].
    simpl. constructor.
    + intros Hin. apply in_map_iff in Hin as (s' & Hid & Hs').
      apply Hs.
      destruct (E s (or_introl eq_refl)) as [-> _].
      destruct (E s' (or_intror Hs')) as [E' _].
      rewrite <- Hid. now rewrite <- E'.
    + apply IH. intros s' Hs'. apply E. now right.
  - intros i Hi. apply in_map_iff in Hi as (s & <- & Hs). now apply E.
  - apply length_map.
Qed.

Lemma small_indices_distinct_mod n idxs :
  n < PRIME_MODULUS ->
  NoDup idxs -> (forall i, In i idxs -> 1 <= i <= n) ->
  NoDup (map (fun i => i mod PRIME_MODULUS) idxs).
Proof.
  intros Hn Hnd Hr.
  assert (E : map (fun i => i mod PRIME_MODULUS) idxs = idxs).
  { rewrite <- (map_id idxs) at 2. apply map_ext_in.
    intros i Hi. apply Z.mod_small. specialize (Hr i Hi). lia. }
  now rewrite E.
Qed.

(** Reconstruction from at least as many shares as there are
    coefficients gives the constant coefficient. *)
Lemma reconstruct_selection coeffs n sel secret rest :
  coeffs = secret :: rest ->
  0 <= secret < PRIME_MODULUS ->
  n < PRIME_MODULUS ->
  NoDup sel ->
  incl sel (map (shareOfPoly coeffs) (indices n)) ->
  (List.length coeffs <= List.length sel)%nat ->
  reconstructSecret sel = Ok (evenHex secret).
Proof.
  intros Ec Hs Hn Hnd Hincl Hlen.
  destruct (selection_indices coeffs n sel Hnd Hincl) as (idxs & -> & Hnd' & Hr & Hl).
  assert (Hp : mapM parseShare (map (shareOfPoly coeffs) idxs)
               = Ok (map (pointOfIndex coeffs) idxs)).
  { apply mapM_parseShare_written. apply Forall_forall.
    intros i Hi. specialize (Hr i Hi). lia. }
  rewrite (reconstructSecret_closed _ _ Hp). do 2 f_equal.
  rewrite (lagrangeSum_interpolates _ coeffs).
  - subst coeffs. cbn [peval]. rewrite Z.mul_0_l, Z.add_0_r. apply Z.mod_small. lia.
  - rewrite map_map. simpl. now apply (small_indices_distinct_mod n).
  - rewrite length_map. rewrite length_map in Hlen. lia.
  - intros p Hp'. apply in_map_iff in Hp' as (i & <- & Hi). simpl.
    rewrite polySum_peval. now rewrite Zmod_mod.
Qed.



(* ================================================================== *)
(** * The encoding utilities are inverse to each other *)
(* ================================================================== *)

Lemma setAt_app {A : Type} (done : list A) r rest v :
  setAt (done ++ r :: rest) (List.length done) v = (done ++ v :: rest)%list.
Proof.
  induction done as [|a done IH]; simpl; [reflexivity|]. now rewrite IH.
Qed.

(** Storing [f j] at every index [j] of an array fills it with the values
    of [f]. *)
Lemma setAt_fold {A : Type} (f : nat -> A) m : forall done rest,
  List.length rest = m ->
  fold_left (fun bytes j => setAt bytes j (f j))
    (seq (List.length done) m) (done ++ rest)%list
  = (done ++ map f (seq (List.length done) m))%list.
Proof.
  induction m as [|m IH]; intros done rest Hm.
  - destruct rest; [reflexivity|discriminate].
  - destruct rest as [|r rest]; [discriminate|].
    cbn [seq fold_left map]. rewrite setAt_app.
    specialize (IH (done ++ [f (List.length done)])%list rest).
    rewrite length_app, Nat.add_comm, <- !app_assoc in IH. simpl in IH.
    apply IH. simpl in Hm. lia.
Qed.

Lemma setAt_fill {A : Type} (f : nat -> A) (d : A) n :
  fold_left (fun bytes j => setAt bytes j (f j)) (seq 0 n) (repeat d n)
  = map f (seq 0 n).
Proof.
  apply (setAt_fold f n [] (repeat d n)). apply repeat_length.
Qed.

Lemma byte_hex_roundtrip (b : byte) :
  toUint8 (parseInt16 (padStart2 (toString16 (byteToZ b)))) = b.
Proof. destruct b; reflexivity. Qed.

Lemma substring_0_0 s : substring 0 0 s = "".
Proof. destruct s; reflexivity. Qed.

Lemma substring_bufferToHex pre : forall b post,
  substring (2 * List.length pre) 2 (bufferToHex (pre ++ b :: post))
  = padStart2 (toString16 (byteToZ b)).
Proof.
  induction pre as [|a pre IH]; intros b post.
  - simpl app. rewrite bufferToHex_cons.
    destruct (byte_hex_digits b) as (c1 & c2 & -> & _). simpl.
    now rewrite substring_0_0.
  - simpl app. rewrite bufferToHex_cons.
    destruct (byte_hex_digits a) as (c1 & c2 & -> & _).
    replace (2 * List.length (a :: pre))%nat
      with (S (S (2 * List.length pre))) by (simpl; lia).
    cbn [append substring]. apply IH.
Qed.

Theorem hexToBuffer_bufferToHex (b : list byte) :
  hexToBuffer (bufferToHex b) = b.
Proof.
  unfold hexToBuffer. rewrite bufferToHex_length.
  replace (2 * List.length b / 2)%nat with (List.length b)
    by (rewrite Nat.mul_comm, Nat.div_mul; lia).
  replace ((2 * List.length b + 1) / 2)%nat with (List.length b).
  2:{ rewrite Nat.add_comm, Nat.mul_comm, Nat.div_add by lia. reflexivity. }
  rewrite (fold_left_ext _
             (fun bytes j =>
                setAt bytes j
                  (toUint8 (parseInt16 (substring (2 * j) 2 (bufferToHex b)))))).
  2:{ intros bytes j. cbv zeta.
      replace (2 * j / 2)%nat with j by (rewrite Nat.mul_comm, Nat.div_mul; lia).
      reflexivity. }
  rewrite setAt_fill.
  pose proof (map_nth_seq x00 b []) as E. simpl in E. rewrite <- E at 2.
  apply map_ext_in. intros j Hj. apply in_seq in Hj.
  destruct (nth_split b x00 (proj2 Hj)) as (l1 & l2 & Eb & Hl1).
  rewrite Eb at 1. rewrite <- Hl1, substring_bufferToHex.
  apply byte_hex_roundtrip.
Qed.

(** Two lowercase hexadecimal digits per byte. *)
Lemma bufferToHex_shape (b : list byte) :
  String.length (bufferToHex b) = (2 * List.length b)%nat
  /\ Nat.Even (String.length (bufferToHex b))
  /\ allChars isLowerHexDigit (bufferToHex b) = true.
Proof.
  split; [apply bufferToHex_length|]. split; [|apply bufferToHex_lowerHex].
  exists (List.length b). apply bufferToHex_length.
Qed.

(** ** base64 *)

Ltac divmod := zify; Z.to_euclidean_division_equations; lia.

Lemma string_ind3 (P : string -> Prop) :
  P "" ->
  (forall a, P (String a "")) ->
  (forall a b, P (String a (String b ""))) ->
  (forall a b c r, P r -> P (String a (String b (String c r)))) ->
  forall s, P s.
Proof.
  intros H0 H1 H2 H3. fix IH 1.
  intros [|a [|b [|c r]]];
    [exact H0 | apply H1 | apply H2 | apply H3; apply IH].
Qed.

Lemma list_ascii_of_string_app a b :
  list_ascii_of_string (a ++ b) = (list_ascii_of_string a ++ list_ascii_of_string b)%list.
Proof. induction a as [|c a IH]; simpl; [reflexivity|]. now rewrite IH. Qed.

Lemma append_length a b :
  String.length (a ++ b) = (String.length a + String.length b)%nat.
Proof. induction a as [|c a IH]; simpl; [reflexivity|]. now rewrite IH. Qed.

Lemma b64_chars (v : N) :
  (v < 64)%N ->
  b64Index (b64Char v) = Some v
  /\ isAsciiWhitespace (b64Char v) = false
  /\ isPad (b64Char v) = false.
Proof.
  intros Hv. rewrite <- (N2Nat.id v).
  assert (Hn : (N.to_nat v < 64)%nat) by lia.
  clear Hv. revert Hn. generalize (N.to_nat v). clear v. intros n Hn.
  do 64 (destruct n as [|n]; [repeat split; reflexivity|]). lia.
Qed.

Lemma btoa_core_pad : forall s,
  btoa s = (string_of_list_ascii (map b64Char (sextets s)) ++ btoaPad s)%string.
Proof.
  apply string_ind3; try reflexivity.
  intros a b c r IH. cbn [btoa sextets btoaPad map string_of_list_ascii append].
  cbv zeta. now rewrite IH.
Qed.

Lemma sextets_range : forall s, Forall (fun v => (v < 64)%N) (sextets s).
Proof.
  apply string_ind3.
  - constructor.
  - intros a. pose proof (N_ascii_bounded a). cbn [sextets]. cbv zeta.
    repeat constructor; divmod.
  - intros a b. pose proof (N_ascii_bounded a). pose proof (N_ascii_bounded b).
    cbn [sextets]. cbv zeta. repeat constructor; divmod.
  - intros a b c r IH.
    pose proof (N_ascii_bounded a). pose proof (N_ascii_bounded b).
    pose proof (N_ascii_bounded c).
    cbn [sextets]. cbv zeta. repeat (constructor; [divmod|]). exact IH.
Qed.

Lemma sextets_length : forall s,
  exists q, (List.length (sextets s) + String.length (btoaPad s) = 4 * q)%nat
            /\ (List.length (sextets s) mod 4 <> 1)%nat.
Proof.
  apply string_ind3.
  - exists 0%nat. split; [reflexivity|]. simpl. lia.
  - intros a. exists 1%nat. split; [reflexivity|]. simpl. lia.
  - intros a b. exists 1%nat. split; [reflexivity|]. simpl. lia.
  - intros a b c r (q & Hq & Hm). exists (S q).
    cbn [sextets btoaPad List.length]. cbv zeta. cbn [List.length].
    split; [lia|].
    replace (S (S (S (S (List.length (sextets r))))))
      with (List.length (sextets r) + 1 * 4)%nat by lia.
    now rewrite Nat.Div0.mod_add.
Qed.

Lemma ascii_of_N_eq n a : n = N_of_ascii a -> ascii_of_N n = a.
Proof. intros ->. apply ascii_N_embedding. Qed.

Lemma b64Decode_sextets : forall s, b64Decode (sextets s) = s.
Proof.
  apply string_ind3.
  - reflexivity.
  - intros a. pose proof (N_ascii_bounded a) as Ha.
    cbn [sextets b64Decode]. cbv zeta.
    f_equal. apply ascii_of_N_eq. divmod.
  - intros a b. pose proof (N_ascii_bounded a). pose proof (N_ascii_bounded b).
    cbn [sextets b64Decode]. cbv zeta.
    f_equal; [apply ascii_of_N_eq; divmod|].
    f_equal. apply ascii_of_N_eq. divmod.
  - intros a b c r IH.
    pose proof (N_ascii_bounded a). pose proof (N_ascii_bounded b).
    pose proof (N_ascii_bounded c).
    cbn [sextets b64Decode]. cbv zeta. rewrite IH.
    f_equal; [apply ascii_of_N_eq; divmod|].
    f_equal; [apply ascii_of_N_eq; divmod|].
    f_equal. apply ascii_of_N_eq. divmod.
Qed.

Lemma string_of_list_ascii_length l :
  String.length (string_of_list_ascii l) = List.length l.
Proof. induction l as [|c l IH]; simpl; [reflexivity|]. now rewrite IH. Qed.

Lemma removeWhitespace_id s :
  allChars (fun c => negb (isAsciiWhitespace c)) s = true ->
  removeWhitespace s = s.
Proof.
  induction s as [|c s IH]; simpl; [reflexivity|].
  rewrite andb_true_iff, negb_true_iff. intros [Hc Hs].
  now rewrite Hc, IH.
Qed.

Lemma core_chars l :
  Forall (fun v => (v < 64)%N) l ->
  allChars (fun c => negb (isAsciiWhitespace c) && negb (isPad c))
    (string_of_list_ascii (map b64Char l)) = true
  /\ b64Indices (string_of_list_ascii (map b64Char l)) = Some l.
Proof.
  induction 1 as [|v l Hv Hl [IH1 IH2]]; [split; reflexivity|].
  destruct (b64_chars v Hv) as (E1 & E2 & E3).
  simpl. rewrite E1, E2, E3, IH1, IH2. split; reflexivity.
Qed.

Lemma btoaPad_cases s : btoaPad s = "" \/ btoaPad s = "=" \/ btoaPad s = "==".
Proof. revert s. apply string_ind3; auto. Qed.

(** Dropping the padding of [core ++ pad] leaves [core]. *)
Lemma stripPadding_core core pad :
  allChars (fun c => negb (isPad c)) core = true ->
  pad = "" \/ pad = "=" \/ pad = "==" ->
  stripPadding (core ++ pad) = core.
Proof.
  intros Hcore Hpad. unfold stripPadding.
  rewrite list_ascii_of_string_app, rev_app_distr.
  assert (Hhead : forall h t, rev (list_ascii_of_string core) = h :: t ->
                              h <> "="%char).
  { intros h t E Hh. subst h.
    assert (Hin : In "="%char (list_ascii_of_string core)).
    { apply in_rev. rewrite E. now left. }
    clear E. induction core as [|c core IH]; simpl in *; [contradiction|].
    apply andb_true_iff in Hcore as [Hc Hcore].
    destruct Hin as [->|Hin]; [discriminate|auto]. }
  assert (Hback : string_of_list_ascii (rev (rev (list_ascii_of_string core))) = core)
    by (rewrite rev_involutive; apply string_of_list_ascii_of_string).
  destruct Hpad as [->|[->| ->]]; simpl.
  - destruct (rev (list_ascii_of_string core)) as [|h t] eqn:E.
    + simpl. apply (f_equal (@rev ascii)) in E. rewrite rev_involutive in E.
      simpl in E. rewrite <- (string_of_list_ascii_of_string core), E.
      reflexivity.
    + specialize (Hhead h t eq_refl).
      assert (Hx : (core ++ "")%string = core).
      { clear. induction core; simpl; congruence. }
      rewrite Hx.
      destruct (ascii_dec h "=") as [->|Hne]; [contradiction|].
      destruct h as [[] [] [] [] [] [] [] []]; try reflexivity; contradiction.
  - destruct (rev (list_ascii_of_string core)) as [|h t] eqn:E.
    + exact Hback.
    + specialize (Hhead h t eq_refl).
      destruct h as [[] [] [] [] [] [] [] []]; try exact Hback; contradiction.
  - exact Hback.
Qed.

Theorem atob_btoa (s : string) : atob (btoa s) = Ok s.
Proof.
  destruct (core_chars (sextets s) (sextets_range s)) as [Hchars Hidx].
  destruct (sextets_length s) as (q & Hq & Hm).
  set (core := string_of_list_ascii (map b64Char (sextets s))) in *.
  assert (Hclen : String.length core = List.length (sextets s)).
  { unfold core. now rewrite string_of_list_ascii_length, length_map. }
  assert (Hws : removeWhitespace (btoa s) = btoa s).
  { apply removeWhitespace_id. rewrite btoa_core_pad. fold core.
    rewrite allChars_app. apply andb_true_iff. split.
    - eapply allChars_weaken; [|exact Hchars].
      intros c Hc. now apply andb_true_iff in Hc.
    - destruct (btoaPad_cases s) as [->|[->| ->]]; reflexivity. }
  unfold atob. rewrite Hws.
  assert (Hlen : (String.length (btoa s) mod 4 = 0)%nat).
  { rewrite btoa_core_pad. fold core. rewrite append_length, Hclen, Hq.
    rewrite Nat.mul_comm. apply Nat.Div0.mod_mul. }
  rewrite Hlen. cbn [Nat.eqb].
  rewrite btoa_core_pad. fold core.
  rewrite stripPadding_core; [| |apply btoaPad_cases].
  - rewrite Hclen. destruct (Nat.eqb_spec (List.length (sextets s) mod 4) 1);
      [contradiction|].
    rewrite Hidx. now rewrite b64Decode_sextets.
  - eapply allChars_weaken; [|exact Hchars].
    intros c Hc. now apply andb_true_iff in Hc.
Qed.

Lemma byte_char_roundtrip (b : byte) :
  toUint8 (Some (Z.of_N (N_of_ascii (ascii_of_byte b)))) = b.
Proof. destruct b; reflexivity. Qed.

(** The binary string [bufferToBase64] builds. *)
Lemma binary_string_of_buffer (buffer : list byte) : forall acc,
  fold_left (fun binary b => binary ++ String (ascii_of_byte b) "")%string buffer acc
  = (acc ++ string_of_list_ascii (map ascii_of_byte buffer))%string.
Proof.
  induction buffer as [|b buffer IH]; intros acc; simpl.
  - induction acc; simpl; congruence.
  - rewrite IH. clear. induction acc; simpl; congruence.
Qed.

Lemma get_string_of_list_ascii l : forall i,
  String.get i (string_of_list_ascii l) = nth_error l i.
Proof.
  induction l as [|c l IH]; intros [|i]; simpl; auto.
Qed.

Theorem base64ToBuffer_bufferToBase64 (b : list byte) :
  base64ToBuffer (bufferToBase64 b) = Ok b.
Proof.
  unfold base64ToBuffer, bufferToBase64.
  rewrite binary_string_of_buffer. cbn [append].
  rewrite atob_btoa. cbn [bind]. f_equal.
  rewrite string_of_list_ascii_length, length_map, setAt_fill.
  pose proof (map_nth_seq x00 b []) as E. simpl in E. rewrite <- E at 2.
  apply map_ext_in. intros i Hi. apply in_seq in Hi.
  unfold charCodeAt. rewrite get_string_of_list_ascii, nth_error_map.
  rewrite (nth_error_nth' b x00) by lia. simpl.
  apply byte_char_roundtrip.
Qed.

(** C10. The encoding utilities are inverse pairs: [hexToBuffer] undoes
    [bufferToHex], whose output has exactly two lowercase hexadecimal
    digits per byte (so an even length), and [base64ToBuffer] undoes
    [bufferToBase64]. *)
Theorem encoding_roundtrips (b : list byte) :
  hexToBuffer (bufferToHex b) = b
  /\ String.length (bufferToHex b) = (2 * List.length b)%nat
  /\ Nat.Even (String.length (bufferToHex b))
  /\ allChars isLowerHexDigit (bufferToHex b) = true
  /\ base64ToBuffer (bufferToBase64 b) = Ok b.
Proof.
  split; [apply hexToBuffer_bufferToHex|].
  destruct (bufferToHex_shape b) as (H1 & H2 & H3).
  repeat split; trivial. apply base64ToBuffer_bufferToBase64.
Qed.

(* ================================================================== *)
(** * Every field element can be drawn *)
(* ================================================================== *)



Lemma to_N_app a : forall b acc,
  Raw.to_N (a ++ b) acc = Raw.to_N b (Raw.to_N a acc).
Proof. induction a as [|c a IH]; intros b acc; simpl; [reflexivity|apply IH]. Qed.

Lemma byte_hex_value_bool (b : byte) :
  match padStart2 (toString16 (byteToZ b)) with
  | String c1 (String c2 "") =>
      match ascii_to_digit c1, ascii_to_digit c2 with
      | Some d1, Some d2 => N.eqb (d2 + 16 * d1) (Byte.to_N b)
      | _, _ => false
      end
  | _ => false
  end = true.
Proof. destruct b; reflexivity. Qed.

Lemma to_N_byte_hex (b : byte) acc :
  Raw.to_N (padStart2 (toString16 (byteToZ b))) acc = (Byte.to_N b + 256 * acc)%N.
Proof.
  pose proof (byte_hex_value_bool b) as H.
  destruct (padStart2 (toString16 (byteToZ b))) as [|c1 [|c2 [|? ?]]];
    try discriminate.
  cbn [Raw.to_N].
  destruct (ascii_to_digit c1) as [d1|]; [|discriminate].
  destruct (ascii_to_digit c2) as [d2|]; [|discriminate].
  apply N.eqb_eq in H. lia.
Qed.







(* ================================================================== *)
(** * Fewer shares than the threshold *)
(* ================================================================== *)











Lemma cong_iff_divide a b :
  a mod PRIME_MODULUS = b mod PRIME_MODULUS <-> (PRIME_MODULUS | a - b).
Proof.
  pose proof PRIME_MODULUS_pos as HP. split.
  - intros H. apply Z.mod_divide; [lia|].
    rewrite Zminus_mod, H, Z.sub_diag. apply Z.mod_0_l. lia.
  - intros [c Hc]. replace a with (b + c * PRIME_MODULUS) by lia.
    apply Z_mod_plus_full.
Qed.













(* ================================================================== *)
(** * [modInverse] on every input *)
(* ================================================================== *)

(** The coefficients the loop carries have opposite signs and stay small:
    [a * |y| + m * |x|] never exceeds the modulus the loop started with. *)
Lemma modInverse_loop_small M fuel : forall a m x y v,
  0 <= a -> 0 <= m -> x * y <= 0 ->
  a * Z.abs y + m * Z.abs x <= M ->
  Z.abs x < M ->
  modInverse_loop fuel a m x y = Ok v ->
  Z.abs v < M.
Proof.
  induction fuel as [|fuel IH]; intros a m x y v Ha Hm Hs Hb Hx; simpl; [discriminate|].
  destruct (Z.ltb_spec 1 a) as [H1|H1].
  - destruct (Z.eqb_spec m 0) as [Hz|Hz]; [discriminate|].
    pose proof (Z.quot_rem' a m) as Hq.
    pose proof (Z.rem_bound_pos a m ltac:(lia) ltac:(lia)) as Hr.
    assert (Hq0 : 0 <= Z.quot a m) by (apply Z.quot_pos; lia).
    set (q := Z.quot a m) in *. set (r := Z.rem a m) in *.
    assert (E : Z.abs (x - q * y) = Z.abs x + q * Z.abs y) by nia.
    apply IH; [lia|lia|nia|rewrite E; nia|nia].
  - intros Hv. inversion Hv; subst v. exact Hx.
Qed.

(** Without a common divisor gone, the loop can only stop on a division by
    zero. *)
Lemma modInverse_loop_not_coprime fuel : forall a m x y v,
  0 < a -> 0 <= m -> Z.gcd a m <> 1 ->
  modInverse_loop fuel a m x y <> Ok v.
Proof.
  induction fuel as [|fuel IH]; intros a m x y v Ha Hm Hg; simpl; [discriminate|].
  destruct (Z.ltb_spec 1 a) as [H1|H1].
  - destruct (Z.eqb_spec m 0) as [Hz|Hz]; [discriminate|].
    apply IH; [lia|apply Z.rem_nonneg; lia|].
    rewrite Z.rem_mod_nonneg by lia.
    rewrite Z.gcd_comm, Z.gcd_mod by lia. now rewrite Z.gcd_comm.
  - assert (a = 1) as -> by lia. now rewrite Z.gcd_1_l in Hg.
Qed.

Lemma modInverse_loop_throws_RangeError fuel : forall a m x y e,
  modInverse_loop fuel a m x y = Throw e -> e = RangeError.
Proof.
  induction fuel as [|fuel IH]; intros a m x y e; simpl; [discriminate|].
  destruct (1 <? a); [|discriminate].
  destruct (m =? 0); [congruence|apply IH].
Qed.

(** X1. On a modulus above 1 and a non-negative argument coprime to it,
    [modInverse] leaves its loop and returns the inverse in canonical
    form: a value of [0 .. m - 1] whose product with the argument is 1
    modulo [m]. *)
Theorem modInverse_canonical_inverse (a m : Z) :
  1 < m -> 0 <= a -> Z.gcd a m = 1 ->
  exists v, modInverse a m = Ok v /\ 0 <= v < m /\ (a * v) mod m = 1.
Proof.
  intros Hm Ha Hg.
  destruct (modInverse_inverse a m Hm Ha Hg) as (v & Ev & Hv).
  exists v. split; [exact Ev|]. split; [|exact Hv].
  unfold modInverse in Ev.
  destruct (Z.eqb_spec m 1) as [E|_]; [lia|].
  destruct (modInverse_loop (modInverse_fuel a m) a m 1 0) as [x| |] eqn:El;
    try discriminate.
  cbn [bind] in Ev. inversion Ev; subst v; clear Ev.
  apply (modInverse_loop_small m) in El; try lia.
  destruct (Z.ltb_spec x 0); lia.
Qed.

Lemma modInverse_canonical_inverse_witness :
  exists v, modInverse 3 7 = Ok v /\ 0 <= v < 7 /\ (3 * v) mod 7 = 1.
Proof. apply (modInverse_canonical_inverse 3 7); [lia|lia|reflexivity]. Defined.

(** X2. When the argument is above 1 and shares a divisor with the
    modulus, the loop runs into [a / 0n] and [modInverse] throws a
    [RangeError]; no value is returned. *)
Theorem modInverse_not_coprime_RangeError (a m : Z) :
  1 < a -> 0 <= m -> Z.gcd a m <> 1 ->
  modInverse a m = Throw RangeError.
Proof.
  intros Ha Hm Hg. unfold modInverse.
  destruct (Z.eqb_spec m 1) as [E|_].
  { subst m. now rewrite Z.gcd_1_r in Hg. }
  destruct (modInverse_loop (modInverse_fuel a m) a m 1 0) as [x|e|] eqn:El.
  - exfalso. apply (modInverse_loop_not_coprime _ a m 1 0 x) in El; trivial; lia.
  - apply modInverse_loop_throws_RangeError in El. now subst e.
  - exfalso. now apply modInverse_loop_never_OutOfFuel in El.
Qed.

Lemma modInverse_not_coprime_RangeError_witness :
  modInverse 4 6 = Throw RangeError.
Proof.
  apply (modInverse_not_coprime_RangeError 4 6); [lia|lia|].
  vm_compute. discriminate.
Defined.

(* ================================================================== *)
(** * [evalPoly] and [randomBigInt] *)
(* ================================================================== *)

(** X3. For a non-negative [x] and non-negative coefficients [evalPoly]
    returns the canonical residue of the power sum: a value of
    [0 .. P - 1] equal to [sum coeffs[i] * x^i mod P].  With no coefficient
    at all it returns 0. *)
Theorem evalPoly_canonical (coeffs : list Z) (x : Z) :
  0 <= x -> Forall (fun c => 0 <= c) coeffs ->
  0 <= evalPoly coeffs x < PRIME_MODULUS
  /\ evalPoly coeffs x = polySum coeffs x mod PRIME_MODULUS
  /\ evalPoly [] x = 0.
Proof.
  intros Hx Hc. split; [|split].
  - rewrite evalPoly_polySum by assumption.
    apply Z.mod_pos_bound, PRIME_MODULUS_pos.
  - now apply evalPoly_polySum.
  - reflexivity.
Qed.

Lemma evalPoly_canonical_witness :
  0 <= evalPoly [7; 3; 2] 5 < PRIME_MODULUS
  /\ evalPoly [7; 3; 2] 5 = polySum [7; 3; 2] 5 mod PRIME_MODULUS
  /\ evalPoly [] 5 = 0.
Proof.
  apply (evalPoly_canonical [7; 3; 2] 5); [lia|].
  repeat (constructor; [lia|]). constructor.
Defined.

Lemma bytesValue_fold bytes : forall acc,
  Z.of_N (Raw.to_N (bufferToHex bytes) acc)
  = fold_left (fun acc b => 256 * acc + byteToZ b) bytes (Z.of_N acc).
Proof.
  induction bytes as [|b bytes IH]; intros acc; [reflexivity|].
  rewrite bufferToHex_cons, to_N_app, to_N_byte_hex, IH. cbn [fold_left].
  f_equal. unfold byteToZ. lia.
Qed.

Lemma hexValue_bufferToHex bytes : hexValue (bufferToHex bytes) = bytesValue bytes.
Proof. unfold hexValue, bytesValue. now rewrite bytesValue_fold. Qed.

Lemma byteToZ_range b : 0 <= byteToZ b < 256.
Proof.
  unfold byteToZ. pose proof (Byte.to_N_bounded b). lia.
Qed.

Lemma bytesValue_snoc bytes b :
  bytesValue (bytes ++ [b]) = 256 * bytesValue bytes + byteToZ b.
Proof. unfold bytesValue. now rewrite fold_left_app. Qed.

Lemma bytesValue_range bytes :
  0 <= bytesValue bytes < 256 ^ Z.of_nat (List.length bytes).
Proof.
  induction bytes as [|b bytes IH] using rev_ind; [cbn; lia|].
  rewrite bytesValue_snoc, length_app, Nat.add_comm. cbn [List.length Nat.add].
  rewrite Nat2Z.inj_succ, Z.pow_succ_r by lia.
  pose proof (byteToZ_range b). lia.
Qed.

Lemma randomBigInt_bytesValue src :
  randomBigInt src
  = Ok (bytesValue (map src (seq 0 66)) mod PRIME_MODULUS,
        fun i => src (66 + i)%nat).
Proof.
  pose proof PRIME_MODULUS_pos as HP.
  unfold randomBigInt, getRandomValues.
  set (array := map src (seq 0 66)).
  rewrite BigInt0x_hexValue.
  - cbn [bind]. rewrite hexValue_bufferToHex.
    pose proof (bytesValue_range array).
    rewrite Z.rem_mod_nonneg by lia. reflexivity.
  - apply (allChars_weaken isLowerHexDigit);
      [apply isLowerHexDigit_isHexDigit | apply bufferToHex_lowerHex].
  - intros E. apply (f_equal String.length) in E.
    rewrite bufferToHex_length in E. unfold array in E.
    rewrite length_map, length_seq in E. discriminate.
Qed.

(** X4. [randomBigInt] never throws.  It takes exactly 66 bytes from the
    random source, reads them as one number, most significant byte first,
    and returns that number modulo [P], a value of [0 .. P - 1]. *)
Theorem randomBigInt_value (src : Entropy) :
  exists v src',
    randomBigInt src = Ok (v, src')
    /\ v = bytesValue (map src (seq 0 66)) mod PRIME_MODULUS
    /\ 0 <= v < PRIME_MODULUS
    /\ forall i, src' i = src (66 + i)%nat.
Proof.
  eexists _, _. split; [apply randomBigInt_bytesValue|].
  split; [reflexivity|]. split; [|reflexivity].
  apply Z.mod_pos_bound, PRIME_MODULUS_pos.
Qed.

Lemma PRIME_MODULUS_66_bytes : 256 ^ Z.of_nat 66 = 128 * PRIME_MODULUS + 128.
Proof. reflexivity. Qed.

(** X5. [randomBigInt] is not uniform.  It returns [v] exactly when the
    66 bytes drawn denote [v + j * P] for some [j] of [0 .. 128], where
    [j = 128] is possible for [v < 128] only: the 128 smallest field
    elements come out for 129 byte strings each, every other one for
    128. *)
Theorem randomBigInt_modulo_bias (src : Entropy) (v : Z) :
  (exists src', randomBigInt src = Ok (v, src'))
  <->
  (0 <= v < PRIME_MODULUS
   /\ exists j,
        0 <= j <= 128 /\ (j = 128 -> v < 128)
        /\ bytesValue (map src (seq 0 66)) = v + j * PRIME_MODULUS).
Proof.
  pose proof PRIME_MODULUS_pos as HP.
  pose proof PRIME_MODULUS_66_bytes as H66.
  rewrite randomBigInt_bytesValue.
  pose proof (bytesValue_range (map src (seq 0 66))) as Hb.
  rewrite length_map, length_seq, H66 in Hb.
  set (B := bytesValue (map src (seq 0 66))) in *.
  pose proof (Z.mod_pos_bound B PRIME_MODULUS HP) as Hm.
  pose proof (Z.div_mod B PRIME_MODULUS ltac:(lia)) as Hd.
  split.
  - intros (src' & E). inversion E; subst v. split; [exact Hm|].
    exists (B / PRIME_MODULUS).
    assert (0 <= B / PRIME_MODULUS) by (apply Z.div_pos; lia).
    assert (B / PRIME_MODULUS < 129).
    { pose proof PRIME_MODULUS_gt1. apply Z.div_lt_upper_bound; nia. }
    repeat split; lia.
  - intros (Hv & j & Hj & Hj' & E). eexists.
    rewrite E, Z_mod_plus_full, Z.mod_small by lia. reflexivity.
Qed.

(* ================================================================== *)
(** * [splitSecret] outside its intended parameters *)
(* ================================================================== *)

Lemma scanHex_bad_character pre c rest : forall acc seen,
  isHexDigit c = false -> isWhiteSpace c = false ->
  scanHex (pre ++ String c rest) acc seen = None.
Proof.
  unfold isHexDigit.
  induction pre as [|p pre IH]; intros acc seen Hc Hw.
  - cbn [append scanHex allWhiteSpace].
    destruct (ascii_to_digit c); [discriminate|].
    rewrite Hw. now destruct seen.
  - cbn [append scanHex]. destruct (ascii_to_digit p).
    + now apply IH.
    + replace (allWhiteSpace (String p (pre ++ String c rest))) with false;
        [now destruct seen|].
      symmetry. cbn [allWhiteSpace]. apply andb_false_iff. right.
      clear IH. induction pre as [|q pre IH]; cbn [append allWhiteSpace].
      * now rewrite Hw.
      * rewrite IH. apply andb_false_r.
Qed.

(** X6. A secret that is empty, or that holds a character which is neither
    a hexadecimal digit nor white space, makes [splitSecret] throw a
    [SyntaxError] at once, whatever [n], [k] and the random source are: no
    share is produced. *)
Theorem splitSecret_rejects_bad_secret
    (pre rest : string) (c : ascii) (n k : Z) (src : Entropy) :
  isHexDigit c = false -> isWhiteSpace c = false ->
  splitSecret (pre ++ String c rest) n k src = Throw SyntaxError
  /\ splitSecret "" n k src = Throw SyntaxError.
Proof.
  intros Hc Hw. split; [|reflexivity].
  unfold splitSecret, BigInt0x.
  now rewrite scanHex_bad_character.
Qed.

Lemma splitSecret_rejects_bad_secret_witness :
  splitSecret ("0a" ++ String "g" "1") 5 3 sampleSrc = Throw SyntaxError
  /\ splitSecret "" 5 3 sampleSrc = Throw SyntaxError.
Proof.
  apply (splitSecret_rejects_bad_secret "0a" "1" "g" 5 3 sampleSrc); reflexivity.
Defined.

(** X7. With a threshold of 1 or less no random coefficient is drawn, and
    every share carries the secret itself: its data is [hex(i)], the
    delimiter and the hexadecimal secret (modulo [P]).  The random source
    is left untouched. *)
Theorem splitSecret_threshold_one_leaks
    (secretHex : string) (s n k : Z) (src : Entropy) :
  BigInt0x secretHex = Ok s ->
  k <= 1 ->
  splitSecret secretHex n k src
  = Ok (map (fun i =>
               {| id := i;
                  data := toString16 i ++ "-" ++ toString16 (s mod PRIME_MODULUS) |})
          (indices n), src).
Proof.
  intros Hs Hk. pose proof PRIME_MODULUS_pos as HP.
  pose proof (BigInt0x_nonneg _ _ Hs) as Hs0.
  unfold splitSecret. rewrite Hs. cbn [bind].
  replace (Z.to_nat (k - 1)) with 0%nat by lia.
  cbn [pushRandomCoeffs bind fst snd].
  unfold sharesOfCoeffs, indices. rewrite map_map.
  do 2 f_equal. apply map_ext. intros i. unfold makeShare.
  unfold evalPoly. cbn [fold_left evalPoly_step fst].
  rewrite Z.add_0_l, Z.mul_1_r, Z.rem_mod_nonneg by lia. reflexivity.
Qed.

Lemma splitSecret_threshold_one_leaks_witness :
  splitSecret "2a" 3 1 sampleSrc
  = Ok (map (fun i =>
               {| id := i;
                  data := toString16 i ++ "-" ++ toString16 (42 mod PRIME_MODULUS) |})
          (indices 3), sampleSrc).
Proof.
  apply (splitSecret_threshold_one_leaks "2a" 42 3 1 sampleSrc); [reflexivity|lia].
Defined.

Lemma map_seq_offset {A : Type} (f : nat -> A) (d : nat) len : forall a,
  map (fun i => f (d + i)%nat) (seq a len) = map f (seq (d + a) len).
Proof.
  induction len as [|len IH]; intros a; [reflexivity|].
  cbn [seq map]. rewrite IH, Nat.add_succ_r. reflexivity.
Qed.

Lemma pushRandomCoeffs_bytes rounds : forall coeffs src,
  exists src',
    pushRandomCoeffs rounds coeffs src
    = Ok ((coeffs
           ++ map (fun j => bytesValue (map src (seq (66 * j) 66)) mod PRIME_MODULUS)
                (seq 0 rounds))%list, src')
    /\ forall i, src' i = src (66 * rounds + i)%nat.
Proof.
  induction rounds as [|rounds IH]; intros coeffs src.
  - exists src. cbn [pushRandomCoeffs seq map]. rewrite app_nil_r.
    split; [reflexivity|]. intros i. f_equal.
  - cbn [pushRandomCoeffs]. rewrite randomBigInt_bytesValue. cbn [bind fst snd].
    destruct (IH (coeffs ++ [bytesValue (map src (seq 0 66)) mod PRIME_MODULUS])%list
                (fun i => src (66 + i)%nat)) as (src' & E & Hsrc').
    exists src'. split.
    + rewrite E. f_equal. f_equal. rewrite <- app_assoc. f_equal.
      change (seq 0 (S rounds)) with (0%nat :: seq 1 rounds).
      rewrite map_cons. cbn [app]. f_equal.
      rewrite <- seq_shift, map_map. apply map_ext. intros j.
      do 2 f_equal.
      replace (66 * S j)%nat with (66 + 66 * j)%nat by lia.
      apply map_seq_offset.
    + intros i. rewrite Hsrc'. f_equal. lia.
Qed.

(** X8. [splitSecret] takes exactly [66 * (k - 1)] bytes from the random
    source, in [k - 1] groups of 66: coefficient [j + 1] of the polynomial
    is the number group [j] denotes, reduced modulo [P].  The shares are
    those of the secret followed by these coefficients, and the rest of
    the source is left for later draws. *)
Theorem splitSecret_random_bytes
    (secretHex : string) (s n k : Z) (src : Entropy) :
  BigInt0x secretHex = Ok s ->
  exists src',
    splitSecret secretHex n k src
    = Ok (sharesOfCoeffs
            (s :: map (fun j => bytesValue (map src (seq (66 * j) 66))
                                mod PRIME_MODULUS)
                    (seq 0 (Z.to_nat (k - 1))))
            n, src')
    /\ forall i, src' i = src (66 * Z.to_nat (k - 1) + i)%nat.
Proof.
  intros Hs. unfold splitSecret. rewrite Hs. cbn [bind].
  destruct (pushRandomCoeffs_bytes (Z.to_nat (k - 1)) [s] src) as (src' & E & Hsrc').
  exists src'. rewrite E. cbn [bind fst snd app]. split; [reflexivity|exact Hsrc'].
Qed.

Lemma splitSecret_random_bytes_witness :
  exists src',
    splitSecret "2a" 5 3 sampleSrc
    = Ok (sharesOfCoeffs
            (42 :: map (fun j => bytesValue (map sampleSrc (seq (66 * j) 66))
                                 mod PRIME_MODULUS)
                     (seq 0 (Z.to_nat (3 - 1))))
            5, src')
    /\ forall i, src' i = sampleSrc (66 * Z.to_nat (3 - 1) + i)%nat.
Proof. apply (splitSecret_random_bytes "2a" 42 5 3 sampleSrc). reflexivity. Defined.

Lemma shareOfPoly_secret_mod s rest i :
  shareOfPoly ((s mod PRIME_MODULUS) :: rest) i = shareOfPoly (s :: rest) i.
Proof.
  unfold shareOfPoly. do 4 f_equal. unfold polySum. cbn [polySumFrom].
  apply mod_add_cong; [|reflexivity].
  apply mod_mul_cong; [apply Zmod_mod|reflexivity].
Qed.

(** Shares of a secret of any size reconstruct to the secret modulo [P]. *)
Lemma split_reconstruct_any_secret secretHex s n k src :
  BigInt0x secretHex = Ok s ->
  2 <= k <= n ->
  n < PRIME_MODULUS ->
  exists shares src',
    splitSecret secretHex n k src = Ok (shares, src')
    /\ forall sel,
         NoDup sel -> incl sel shares -> k <= Z.of_nat (List.length sel) ->
         reconstructSecret sel = Ok (evenHex (s mod PRIME_MODULUS)).
Proof.
  intros Hs Hk Hn. pose proof PRIME_MODULUS_pos as HP.
  destruct (splitSecret_coeffs secretHex s n k src Hs) as (drawn & src' & E & Hl & Hd).
  eexists _, src'. split; [exact E|].
  intros sel Hnd Hincl Hlen.
  apply (reconstruct_selection ((s mod PRIME_MODULUS) :: drawn) n sel
           (s mod PRIME_MODULUS) drawn); trivial.
  - apply Z.mod_pos_bound; lia.
  - intros x Hx. apply Hincl in Hx. apply in_map_iff in Hx as (i & <- & Hi).
    apply in_map_iff. exists i. split; [apply shareOfPoly_secret_mod|exact Hi].
  - cbn [List.length]. lia.
Qed.



(* ================================================================== *)
(** * The shares [splitSecret] returns *)
(* ================================================================== *)

(** C7. For a secret given in hexadecimal and [2 <= k <= n], [splitSecret]
    returns exactly [n] shares, with ids [1..n] in order.  Its coefficient
    list [coeffs] has length [k]: the secret first, then the [k - 1]
    values [randomBigInt] draws one after the other from the random
    source (66 bytes each).  The share of index [x] carries [hex(x)], the
    delimiter ["-"] and [hex(y)], both renderings in lowercase hexadecimal
    digits, where [y], the value of [evalPoly], is the sum of
    [coeffs[i] * x^i] modulo the prime. *)
Theorem splitSecret_shares (secretHex : string) (secret n k : Z) (src : Entropy) :
  BigInt0x secretHex = Ok secret ->
  2 <= k <= n ->
  let coeffs :=
    secret :: map (fun j => bytesValue (map src (seq (66 * j) 66)) mod PRIME_MODULUS)
                (seq 0 (Z.to_nat (k - 1))) in
  exists shares src',
    splitSecret secretHex n k src = Ok (shares, src')
    /\ (forall i, src' i = src (66 * Z.to_nat (k - 1) + i)%nat)
    /\ Z.of_nat (List.length coeffs) = k
    /\ nth_error coeffs 0 = Some secret
    /\ (forall j, (j < Z.to_nat (k - 1))%nat ->
          exists rest,
            randomBigInt (fun i => src (66 * j + i)%nat)
            = Ok (nth (S j) coeffs 0, rest))
    /\ Z.of_nat (List.length shares) = n
    /\ map id shares = indices n
    /\ shares =
         map (fun x =>
                {| id := x;
                   data := toString16 x ++ "-"
                           ++ toString16 (polySum coeffs x mod PRIME_MODULUS) |})
           (indices n)
    /\ forall x, In x (indices n) ->
         let y := polySum coeffs x mod PRIME_MODULUS in
         evalPoly coeffs x = y
         /\ allChars isLowerHexDigit (toString16 x) = true
         /\ allChars isLowerHexDigit (toString16 y) = true
         /\ hexValue (toString16 x) = x /\ hexValue (toString16 y) = y.
Proof.
  intros Hs Hkn coeffs. pose proof PRIME_MODULUS_pos as HP.
  set (draw := fun j => bytesValue (map src (seq (66 * j) 66)) mod PRIME_MODULUS) in *.
  assert (Hnonneg : Forall (fun c => 0 <= c) coeffs).
  { constructor; [now apply (BigInt0x_nonneg secretHex)|].
    apply Forall_map, Forall_forall. intros j _. unfold draw.
    apply Z.mod_pos_bound. lia. }
  destruct (pushRandomCoeffs_bytes (Z.to_nat (k - 1)) [secret] src) as (src' & E & Hsrc').
  exists (map (shareOfPoly coeffs) (indices n)), src'.
  split.
  { unfold splitSecret. rewrite Hs. cbn [bind]. rewrite E. cbn [bind fst snd app].
    fold draw. fold coeffs. now rewrite sharesOfCoeffs_spec. }
  split; [exact Hsrc'|].
  split; [unfold coeffs; cbn [List.length]; rewrite length_map, length_seq; lia|].
  split; [reflexivity|].
  split.
  { intros j Hj. eexists. rewrite randomBigInt_bytesValue. do 2 f_equal.
    unfold coeffs. cbn [nth].
    rewrite (nth_indep _ 0 (draw 0%nat)) by (rewrite length_map, length_seq; lia).
    rewrite map_nth, seq_nth by lia. unfold draw. cbn [Nat.add].
    rewrite (map_seq_offset src (66 * j) 66 0). rewrite Nat.add_0_r. reflexivity. }
  split; [rewrite length_map; apply indices_length; lia|].
  split; [rewrite map_map; simpl; apply map_id|].
  split; [reflexivity|].
  intros x Hx y. apply indices_range in Hx.
  assert (Hy : 0 <= y) by (apply Z.mod_pos_bound, PRIME_MODULUS_pos).
  split; [apply evalPoly_polySum; [lia|exact Hnonneg]|].
  rewrite !toString16_lowerHex, !hexValue_toString16 by lia. auto.
Qed.

Lemma splitSecret_shares_witness :
  let coeffs :=
    255 :: map (fun j => bytesValue (map sampleSrc (seq (66 * j) 66)) mod PRIME_MODULUS)
             (seq 0 (Z.to_nat (2 - 1))) in
  exists shares src',
    splitSecret "ff" 3 2 sampleSrc = Ok (shares, src')
    /\ (forall i, src' i = sampleSrc (66 * Z.to_nat (2 - 1) + i)%nat)
    /\ Z.of_nat (List.length coeffs) = 2
    /\ nth_error coeffs 0 = Some 255
    /\ (forall j, (j < Z.to_nat (2 - 1))%nat ->
          exists rest,
            randomBigInt (fun i => sampleSrc (66 * j + i)%nat)
            = Ok (nth (S j) coeffs 0, rest))
    /\ Z.of_nat (List.length shares) = 3
    /\ map id shares = indices 3
    /\ shares =
         map (fun x =>
                {| id := x;
                   data := toString16 x ++ "-"
                           ++ toString16 (polySum coeffs x mod PRIME_MODULUS) |})
           (indices 3)
    /\ forall x, In x (indices 3) ->
         let y := polySum coeffs x mod PRIME_MODULUS in
         evalPoly coeffs x = y
         /\ allChars isLowerHexDigit (toString16 x) = true
         /\ allChars isLowerHexDigit (toString16 y) = true
         /\ hexValue (toString16 x) = x /\ hexValue (toString16 y) = y.
Proof.
  apply (splitSecret_shares "ff" 255 3 2 sampleSrc); [reflexivity | lia].
Defined.

(* ================================================================== *)
(** * [reconstructSecret] on every share list *)
(* ================================================================== *)

Lemma mapM_parseShare_cases shares :
  (exists points, mapM parseShare shares = Ok points)
  \/ mapM parseShare shares = Throw SyntaxError.
Proof.
  induction shares as [|s shares IH]; [left; now exists []|].
  cbn [mapM]. destruct (parseShare_cases s) as [[p ->]| ->]; [|now right].
  cbn [bind]. destruct IH as [[ps ->]| ->]; [left|now right].
  now exists (p :: ps).
Qed.

(** X10. [reconstructSecret] has two outcomes only.  When every share
    parses it returns a string of an even number of lowercase hexadecimal
    digits whose value is below [P], whatever the number, order or
    repetition of the shares; otherwise it throws the [SyntaxError] of the
    first share that does not parse.  No [RangeError] escapes from the
    modular inversion and the loops always end. *)
Theorem reconstructSecret_outcomes (shares : list Share) :
  (exists points hex,
     mapM parseShare shares = Ok points
     /\ reconstructSecret shares = Ok hex
     /\ Nat.Even (String.length hex)
     /\ allChars isLowerHexDigit hex = true
     /\ 0 <= hexValue hex < PRIME_MODULUS)
  \/ (mapM parseShare shares = Throw SyntaxError
      /\ reconstructSecret shares = Throw SyntaxError).
Proof.
  pose proof PRIME_MODULUS_pos as HP.
  destruct (mapM_parseShare_cases shares) as [[points E]|E].
  - left. exists points. eexists. split; [exact E|].
    split; [apply (reconstructSecret_closed shares points E)|].
    pose proof (Z.mod_pos_bound (lagrangeSum points) PRIME_MODULUS HP) as Hb.
    split; [apply evenHex_length|].
    split; [apply evenHex_lowerHex; lia|].
    rewrite hexValue_evenHex by lia. exact Hb.
  - right. split; [exact E|]. unfold reconstructSecret. now rewrite E.
Qed.

Lemma mapM_parseShare_replace s s' pre post :
  parseShare s = parseShare s' ->
  mapM parseShare (pre ++ s :: post) = mapM parseShare (pre ++ s' :: post).
Proof.
  intros E. induction pre as [|a pre IH]; cbn [app mapM].
  - now rewrite E.
  - now rewrite IH.
Qed.

Lemma append_no_dash a b :
  allChars (fun c => negb (Ascii.eqb c "-")) a = true ->
  split "-" (a ++ "-" ++ b) = a :: split "-" b.
Proof. intros H. now apply split_app_sep. Qed.

(** X11. Only the first two fields of a share's text count, and its [id]
    does not: a share [x-y-rest] anywhere in the list gives the result the
    share [x-y] gives there, under any [id]. *)
Theorem reconstructSecret_ignores_extra_fields
    (pre post : list Share) (i j : Z) (x y rest : string) :
  allChars (fun c => negb (Ascii.eqb c "-")) x = true ->
  allChars (fun c => negb (Ascii.eqb c "-")) y = true ->
  reconstructSecret (pre ++ {| id := i; data := x ++ "-" ++ y ++ "-" ++ rest |} :: post)
  = reconstructSecret (pre ++ {| id := j; data := x ++ "-" ++ y |} :: post).
Proof.
  intros Hx Hy. unfold reconstructSecret.
  rewrite (mapM_parseShare_replace
             {| id := i; data := x ++ "-" ++ y ++ "-" ++ rest |}
             {| id := j; data := x ++ "-" ++ y |}); [reflexivity|].
  unfold parseShare. cbn [data].
  rewrite (append_no_dash x (y ++ "-" ++ rest) Hx), (append_no_dash y rest Hy).
  rewrite (append_no_dash x y Hx), (split_no_sep "-" y Hy).
  reflexivity.
Qed.

Lemma reconstructSecret_ignores_extra_fields_witness :
  reconstructSecret
    ([mkShare 1 "1-1f"] ++ {| id := 2; data := "2" ++ "-" ++ "a3" ++ "-" ++ "zz" |}
       :: [mkShare 3 "3-1c5"])
  = reconstructSecret
      ([mkShare 1 "1-1f"] ++ {| id := 0; data := "2" ++ "-" ++ "a3" |}
         :: [mkShare 3 "3-1c5"]).
Proof.
  apply (reconstructSecret_ignores_extra_fields
           [mkShare 1 "1-1f"] [mkShare 3 "3-1c5"] 2 0 "2" "a3" "zz");
    reflexivity.
Defined.

Lemma modInverse_one m : m <> 1 -> modInverse 1 m = Ok 1.
Proof.
  intros Hm. unfold modInverse.
  destruct (Z.eqb_spec m 1); [contradiction|].
  unfold modInverse_fuel. rewrite Nat.add_comm. reflexivity.
Qed.

(** X12. One share alone is accepted: [reconstructSecret] on a single
    share that parses returns the share's own [y], reduced modulo [P]. *)
Theorem reconstructSecret_single_share (s : Share) (p : Point) :
  parseShare s = Ok p ->
  reconstructSecret [s] = Ok (evenHex (py p mod PRIME_MODULUS)).
Proof.
  intros Hp. pose proof PRIME_MODULUS_gt1 as HP.
  rewrite (reconstructSecret_closed [s] [p]) by (cbn [mapM]; now rewrite Hp).
  do 2 f_equal. unfold lagrangeSum. cbn [lagrangeSumFrom app].
  unfold lagrangeTerm, numeratorOf, denominatorOf, inverseOf. cbn [map prodZ fold_right].
  rewrite (Z.mod_small 1) by lia.
  rewrite modInverse_one by lia. f_equal. ring.
Qed.

Lemma reconstructSecret_single_share_witness :
  reconstructSecret [mkShare 0 "3-1c5"]
  = Ok (evenHex (py (mkPoint 3 453) mod PRIME_MODULUS)).
Proof.
  apply (reconstructSecret_single_share (mkShare 0 "3-1c5") (mkPoint 3 453)).
  reflexivity.
Defined.

(* ================================================================== *)
(** * [hexToBuffer] on every text, and hex text of byte strings *)
(* ================================================================== *)

Lemma setAt_length {A : Type} (l : list A) : forall i v,
  List.length (setAt l i v) = List.length l.
Proof.
  induction l as [|a l IH]; intros [|i] v; simpl; congruence.
Qed.

Lemma setAt_out_of_range {A : Type} (l : list A) : forall i v,
  (List.length l <= i)%nat -> setAt l i v = l.
Proof.
  induction l as [|a l IH]; intros [|i] v H; simpl in *; try reflexivity; try lia.
  rewrite IH by lia. reflexivity.
Qed.

(** [hexToBuffer] as a map over the byte positions. *)
Lemma hexToBuffer_map hex :
  hexToBuffer hex
  = map (fun j => toUint8 (parseInt16 (substring (2 * j) 2 hex)))
      (seq 0 (String.length hex / 2)).
Proof.
  unfold hexToBuffer.
  set (f := fun j => toUint8 (parseInt16 (substring (2 * j) 2 hex))).
  rewrite (fold_left_ext _ (fun bytes j => setAt bytes j (f j))).
  2:{ intros bytes j. cbv zeta.
      replace (2 * j / 2)%nat with j by (rewrite Nat.mul_comm, Nat.div_mul; lia).
      reflexivity. }
  set (n := String.length hex).
  pose proof (Nat.div_mod_eq n 2) as E.
  pose proof (Nat.mod_upper_bound n 2 ltac:(lia)) as Hm.
  assert (Hn : ((n + 1) / 2 = n / 2 \/ (n + 1) / 2 = S (n / 2))%nat).
  { destruct (Nat.eq_dec (n mod 2) 0) as [E0|E0]; [left|right].
    - symmetry. apply (Nat.div_unique _ 2 _ 1); lia.
    - symmetry. apply (Nat.div_unique _ 2 _ 0); lia. }
  destruct Hn as [-> | ->].
  - apply setAt_fill.
  - rewrite seq_S, fold_left_app, setAt_fill. cbn [fold_left Nat.add].
    apply setAt_out_of_range. rewrite length_map, length_seq. lia.
Qed.

Lemma hexToBuffer_cons c1 c2 rest :
  hexToBuffer (String c1 (String c2 rest))
  = toUint8 (parseInt16 (String c1 (String c2 ""))) :: hexToBuffer rest.
Proof.
  rewrite !hexToBuffer_map. cbn [String.length].
  replace (S (S (String.length rest)) / 2)%nat with (S (String.length rest / 2)).
  2:{ replace (S (S (String.length rest))) with (1 * 2 + String.length rest)%nat by lia.
      rewrite Nat.div_add_l by lia. reflexivity. }
  cbn [seq map]. f_equal.
  - cbn. now rewrite substring_0_0.
  - rewrite <- seq_shift, map_map. apply map_ext. intros j.
    replace (2 * S j)%nat with (S (S (2 * j))) by lia. reflexivity.
Qed.

Lemma hexToBuffer_odd_tail b : forall c,
  hexToBuffer (bufferToHex b ++ String c "") = b.
Proof.
  induction b as [|a b IH]; intros c; [reflexivity|].
  rewrite bufferToHex_cons.
  pose proof (byte_hex_roundtrip a) as Ha.
  destruct (byte_hex_digits a) as (c1 & c2 & E & _). rewrite E in *.
  cbn [append]. rewrite hexToBuffer_cons, Ha, IH. reflexivity.
Qed.

(** X13. [hexToBuffer] never fails: every text gives [floor(length / 2)]
    bytes.  A last hexadecimal digit without a partner is dropped: the hex
    text of a buffer followed by one more character decodes to the buffer. *)
Theorem hexToBuffer_length_and_odd_tail (hex : string) (b : list byte) (c : ascii) :
  List.length (hexToBuffer hex) = (String.length hex / 2)%nat
  /\ hexToBuffer (bufferToHex b ++ String c "") = b.
Proof.
  split; [|apply hexToBuffer_odd_tail].
  rewrite hexToBuffer_map, length_map, length_seq. reflexivity.
Qed.

Lemma lowerHex_in c : isLowerHexDigit c = true -> In c lowerHexChars.
Proof.
  destruct c as [[] [] [] [] [] [] [] []]; vm_compute; intros H;
    try discriminate H; tauto.
Qed.

Lemma hex_pair_roundtrip_bool :
  forallb (fun c1 =>
    forallb (fun c2 =>
      String.eqb
        (padStart2 (toString16 (byteToZ
           (toUint8 (parseInt16 (String c1 (String c2 "")))))))
        (String c1 (String c2 "")))
      lowerHexChars) lowerHexChars = true.
Proof. vm_compute. reflexivity. Qed.

Lemma hex_pair_roundtrip c1 c2 :
  isLowerHexDigit c1 = true -> isLowerHexDigit c2 = true ->
  padStart2 (toString16 (byteToZ (toUint8 (parseInt16 (String c1 (String c2 ""))))))
  = String c1 (String c2 "").
Proof.
  intros H1 H2. apply lowerHex_in in H1, H2.
  pose proof hex_pair_roundtrip_bool as H.
  rewrite forallb_forall in H. specialize (H c1 H1).
  rewrite forallb_forall in H. specialize (H c2 H2).
  now apply String.eqb_eq in H.
Qed.

Lemma bufferToHex_hexToBuffer_pairs n : forall hex,
  String.length hex = (2 * n)%nat ->
  allChars isLowerHexDigit hex = true ->
  bufferToHex (hexToBuffer hex) = hex.
Proof.
  induction n as [|n IH]; intros hex Hl Hc.
  - destruct hex; [reflexivity|discriminate].
  - destruct hex as [|c1 [|c2 rest]]; try (simpl in Hl; lia).
    cbn [allChars] in Hc.
    apply andb_true_iff in Hc as [H1 Hc]. apply andb_true_iff in Hc as [H2 Hc].
    rewrite hexToBuffer_cons, bufferToHex_cons, hex_pair_roundtrip by assumption.
    rewrite IH; [reflexivity| simpl in Hl; lia | exact Hc].
Qed.

(** X14. On a text of an even number of lowercase hexadecimal digits
    [hexToBuffer] loses nothing: [bufferToHex] of its result is the text
    again. *)
Theorem bufferToHex_hexToBuffer (hex : string) :
  allChars isLowerHexDigit hex = true ->
  Nat.Even (String.length hex) ->
  bufferToHex (hexToBuffer hex) = hex.
Proof.
  intros Hc [n Hn]. now apply (bufferToHex_hexToBuffer_pairs n).
Qed.

Lemma bufferToHex_hexToBuffer_witness :
  bufferToHex (hexToBuffer "00ff1a") = "00ff1a".
Proof.
  apply (bufferToHex_hexToBuffer "00ff1a"); [reflexivity|].
  exists 3%nat. reflexivity.
Defined.

(* ================================================================== *)
(** * A key with leading zero bytes *)
(* ================================================================== *)

Lemma digit_below_16 c :
  match ascii_to_digit c with Some d => (d <? 16)%N | None => true end = true.
Proof. destruct c as [[] [] [] [] [] [] [] []]; reflexivity. Qed.

Lemma to_N_split s : forall acc,
  allChars isHexDigit s = true ->
  Z.of_N (Raw.to_N s acc)
  = Z.of_N acc * 16 ^ Z.of_nat (String.length s) + hexValue s.
Proof.
  unfold hexValue, isHexDigit.
  induction s as [|c r IH]; intros acc Hs.
  - cbn. lia.
  - cbn [allChars] in Hs. apply andb_true_iff in Hs as [Hc Hr].
    cbn [Raw.to_N String.length]. destruct (ascii_to_digit c) as [d|]; [|discriminate].
    rewrite (IH (d + 16 * acc)%N Hr), (IH (d + 16 * 0)%N Hr).
    rewrite Nat2Z.inj_succ, Z.pow_succ_r by lia.
    rewrite !N2Z.inj_add, !N2Z.inj_mul. cbn [Z.of_N]. ring.
Qed.

Lemma hexValue_cons c r d :
  ascii_to_digit c = Some d ->
  allChars isHexDigit r = true ->
  hexValue (String c r) = Z.of_N d * 16 ^ Z.of_nat (String.length r) + hexValue r.
Proof.
  intros Hc Hr. unfold hexValue at 1. cbn [Raw.to_N]. rewrite Hc.
  rewrite to_N_split by assumption. f_equal. f_equal. lia.
Qed.

Lemma hexValue_range s :
  allChars isHexDigit s = true ->
  0 <= hexValue s < 16 ^ Z.of_nat (String.length s).
Proof.
  induction s as [|c r IH]; intros Hs.
  - cbn. lia.
  - cbn [allChars] in Hs. apply andb_true_iff in Hs as [Hc Hr].
    unfold isHexDigit in Hc. pose proof (digit_below_16 c) as Hd.
    destruct (ascii_to_digit c) as [d|] eqn:Ec; [|discriminate].
    apply N.ltb_lt in Hd.
    rewrite (hexValue_cons c r d Ec Hr). specialize (IH Hr).
    cbn [String.length]. rewrite Nat2Z.inj_succ, Z.pow_succ_r by lia. nia.
Qed.

Lemma lower_digit_inj_bool :
  forallb (fun c1 =>
    forallb (fun c2 =>
      match ascii_to_digit c1, ascii_to_digit c2 with
      | Some d1, Some d2 => implb (N.eqb d1 d2) (Ascii.eqb c1 c2)
      | _, _ => false
      end) lowerHexChars) lowerHexChars = true.
Proof. vm_compute. reflexivity. Qed.

Lemma lower_digit_inj c1 c2 :
  isLowerHexDigit c1 = true -> isLowerHexDigit c2 = true ->
  exists d1 d2,
    ascii_to_digit c1 = Some d1 /\ ascii_to_digit c2 = Some d2
    /\ (d1 = d2 -> c1 = c2).
Proof.
  intros H1 H2. apply lowerHex_in in H1, H2.
  pose proof lower_digit_inj_bool as H.
  rewrite forallb_forall in H. specialize (H c1 H1).
  rewrite forallb_forall in H. specialize (H c2 H2).
  destruct (ascii_to_digit c1) as [d1|]; [|discriminate].
  destruct (ascii_to_digit c2) as [d2|]; [|discriminate].
  exists d1, d2. repeat split. intros ->.
  rewrite N.eqb_refl in H. now apply Ascii.eqb_eq in H.
Qed.

(** Texts of lowercase hexadecimal digits of one length and one value are
    the same text. *)
Lemma lowerHex_value_inj s1 : forall s2,
  allChars isLowerHexDigit s1 = true -> allChars isLowerHexDigit s2 = true ->
  String.length s1 = String.length s2 ->
  hexValue s1 = hexValue s2 -> s1 = s2.
Proof.
  induction s1 as [|c1 r1 IH]; intros [|c2 r2] H1 H2 Hl Hv; try discriminate;
    [reflexivity|].
  cbn [allChars] in H1, H2.
  apply andb_true_iff in H1 as [Hc1 Hr1]. apply andb_true_iff in H2 as [Hc2 Hr2].
  destruct (lower_digit_inj c1 c2 Hc1 Hc2) as (d1 & d2 & E1 & E2 & Hinj).
  assert (Hh1 : allChars isHexDigit r1 = true)
    by (revert Hr1; apply allChars_weaken, isLowerHexDigit_isHexDigit).
  assert (Hh2 : allChars isHexDigit r2 = true)
    by (revert Hr2; apply allChars_weaken, isLowerHexDigit_isHexDigit).
  rewrite (hexValue_cons c1 r1 d1 E1 Hh1), (hexValue_cons c2 r2 d2 E2 Hh2) in Hv.
  cbn [String.length] in Hl. injection Hl as Hl. rewrite <- Hl in Hv.
  pose proof (hexValue_range r1 Hh1) as B1.
  pose proof (hexValue_range r2 Hh2) as B2. rewrite <- Hl in B2.
  set (w := 16 ^ Z.of_nat (String.length r1)) in *.
  assert (Z.of_N d1 = Z.of_N d2 /\ hexValue r1 = hexValue r2) as [Ed Er].
  { apply (Z.div_mod_unique w); [now left|now left|lia]. }
  f_equal; [apply Hinj; lia|now apply IH].
Qed.

Lemma of_pos_headNonzero p : forall rest, headNonzero (Raw.of_pos p rest) = true.
Proof.
  induction p as [p IH] using (well_founded_induction (Wf_nat.well_founded_ltof _ Pos.to_nat)).
  intros rest.
  do 4 (try destruct p as [p|p|]); try reflexivity;
    simpl; apply IH; unfold Wf_nat.ltof; lia.
Qed.

Lemma hexValue_headNonzero s :
  allChars isHexDigit s = true -> headNonzero s = true ->
  16 ^ (Z.of_nat (String.length s) - 1) <= hexValue s.
Proof.
  destruct s as [|c r]; [discriminate|]. intros Hs Hh.
  cbn [allChars] in Hs. apply andb_true_iff in Hs as [_ Hr].
  cbn [headNonzero] in Hh. destruct (ascii_to_digit c) as [d|] eqn:Ec; [|discriminate].
  apply N.ltb_lt in Hh.
  rewrite (hexValue_cons c r d Ec Hr).
  pose proof (hexValue_range r Hr) as B.
  cbn [String.length]. rewrite Nat2Z.inj_succ.
  replace (Z.succ (Z.of_nat (String.length r)) - 1) with (Z.of_nat (String.length r)) by lia.
  nia.
Qed.

Lemma evenHex_cases v :
  evenHex v = toString16 v
  \/ (evenHex v = String "0" (toString16 v)).
Proof. unfold evenHex. destruct (Nat.eqb _ 0); [now left|now right]. Qed.

(** A text of an even number of lowercase hexadecimal digits whose first
    two digits are not both ['0'] is the even-length rendering of its own
    value. *)
Lemma evenHex_hexValue h :
  allChars isLowerHexDigit h = true ->
  Nat.Even (String.length h) ->
  16 ^ (Z.of_nat (String.length h) - 2) <= hexValue h ->
  0 < hexValue h ->
  evenHex (hexValue h) = h.
Proof.
  intros Hc [n Hn] Hlow Hpos.
  assert (Hh : allChars isHexDigit h = true)
    by (revert Hc; apply allChars_weaken, isLowerHexDigit_isHexDigit).
  pose proof (hexValue_range h Hh) as Bh.
  set (v := hexValue h) in *.
  assert (Ht : allChars isLowerHexDigit (toString16 v) = true)
    by (apply toString16_lowerHex; lia).
  assert (Hth : allChars isHexDigit (toString16 v) = true)
    by (revert Ht; apply allChars_weaken, isLowerHexDigit_isHexDigit).
  pose proof (hexValue_range _ Hth) as Bt.
  assert (Hnz : headNonzero (toString16 v) = true).
  { destruct v as [|p|p]; try lia. apply of_pos_headNonzero. }
  pose proof (hexValue_headNonzero _ Hth Hnz) as Lt.
  rewrite hexValue_toString16 in Bt, Lt by lia.
  set (t := String.length (toString16 v)) in *.
  assert (H1 : Z.of_nat t - 1 < Z.of_nat (String.length h)).
  { apply (Z.pow_lt_mono_r_iff 16); lia. }
  assert (H2 : Z.of_nat (String.length h) - 2 < Z.of_nat t).
  { apply (Z.pow_lt_mono_r_iff 16); lia. }
  pose proof (evenHex_length v) as [m Hm].
  apply lowerHex_value_inj; trivial.
  - apply evenHex_lowerHex; lia.
  - destruct (evenHex_cases v) as [E|E]; rewrite E in Hm |- *;
      cbn [String.length] in *; fold t in Hm |- *; lia.
  - apply hexValue_evenHex; lia.
Qed.

Lemma bytesValue_acc bytes : forall acc,
  fold_left (fun acc b => 256 * acc + byteToZ b) bytes acc
  = acc * 256 ^ Z.of_nat (List.length bytes) + bytesValue bytes.
Proof.
  unfold bytesValue.
  induction bytes as [|b bytes IH]; intros acc; cbn [fold_left List.length].
  - cbn. lia.
  - rewrite (IH (256 * acc + byteToZ b)), (IH (256 * 0 + byteToZ b)).
    rewrite Nat2Z.inj_succ, Z.pow_succ_r by lia. ring.
Qed.

Lemma bytesValue_cons b bytes :
  bytesValue (b :: bytes)
  = byteToZ b * 256 ^ Z.of_nat (List.length bytes) + bytesValue bytes.
Proof.
  unfold bytesValue at 1. cbn [fold_left]. rewrite bytesValue_acc. ring.
Qed.

Lemma byteToZ_zero b : byteToZ b = 0 -> b = x00.
Proof. destruct b; intros H; try reflexivity; vm_compute in H; discriminate H. Qed.

Lemma bytesValue_dropLeadingZeros bytes :
  bytesValue (dropLeadingZeros bytes) = bytesValue bytes.
Proof.
  induction bytes as [|b bytes IH]; [reflexivity|].
  destruct b; try reflexivity.
  cbn [dropLeadingZeros]. rewrite IH. rewrite (bytesValue_cons x00).
  change (byteToZ x00) with 0. lia.
Qed.

Lemma dropLeadingZeros_head bytes b rest :
  dropLeadingZeros bytes = b :: rest -> b <> x00.
Proof.
  induction bytes as [|a bytes IH]; [discriminate|].
  destruct a; cbn [dropLeadingZeros]; try exact IH;
    intros E; injection E as <- _; discriminate.
Qed.

Lemma power_256 n : 256 ^ Z.of_nat n = 16 ^ (2 * Z.of_nat n).
Proof. rewrite Z.pow_mul_r by lia. reflexivity. Qed.

Lemma evenHex_bytesValue b rest :
  b <> x00 -> evenHex (bytesValue (b :: rest)) = bufferToHex (b :: rest).
Proof.
  intros Hb. rewrite <- hexValue_bufferToHex.
  pose proof (bufferToHex_shape (b :: rest)) as (Hl & He & Hc).
  assert (Hlow : 16 ^ (Z.of_nat (String.length (bufferToHex (b :: rest))) - 2)
                 <= hexValue (bufferToHex (b :: rest))).
  { rewrite hexValue_bufferToHex, bytesValue_cons, Hl. cbn [List.length].
    replace (Z.of_nat (2 * S (List.length rest)) - 2)
      with (2 * Z.of_nat (List.length rest)) by lia.
    rewrite <- power_256.
    pose proof (bytesValue_range rest).
    pose proof (byteToZ_range b).
    assert (byteToZ b <> 0) by (intros E; now apply byteToZ_zero in E).
    nia. }
  apply evenHex_hexValue; trivial.
  eapply Z.lt_le_trans; [|exact Hlow].
  apply Z.pow_pos_nonneg; [lia|]. rewrite Hl. cbn [List.length]. lia.
Qed.

(** The even-length hexadecimal rendering of the number a byte string
    denotes decodes to the byte string without its leading zero bytes. *)
Lemma hexToBuffer_evenHex_bytesValue bytes :
  hexToBuffer (evenHex (bytesValue bytes)) = minimalBytes bytes.
Proof.
  rewrite <- bytesValue_dropLeadingZeros. unfold minimalBytes.
  destruct (dropLeadingZeros bytes) as [|b rest] eqn:E; [reflexivity|].
  apply dropLeadingZeros_head in E.
  rewrite evenHex_bytesValue by assumption. apply hexToBuffer_bufferToHex.
Qed.

Lemma minimalBytes_nonzero_head b rest :
  b <> x00 -> minimalBytes (b :: rest) = b :: rest.
Proof.
  intros Hb. unfold minimalBytes. destruct b; try reflexivity. contradiction.
Qed.



Lemma two_pow_520 : 256 ^ Z.of_nat 65 < PRIME_MODULUS.
Proof. reflexivity. Qed.



(* ================================================================== *)
(** * The share inputs of the recovery tab *)
(* ================================================================== *)






(* ================================================================== *)
(** * [trim] and the share list of the recovery flow *)
(* ================================================================== *)

Lemma string_of_list_ascii_app a b :
  string_of_list_ascii (a ++ b)
  = (string_of_list_ascii a ++ string_of_list_ascii b)%string.
Proof. induction a as [|c a IH]; simpl; [reflexivity|]. now rewrite IH. Qed.

Lemma reverse_cons c r : reverse (String c r) = (reverse r ++ String c "")%string.
Proof.
  unfold reverse. cbn [list_ascii_of_string rev].
  now rewrite string_of_list_ascii_app.
Qed.

Lemma reverse_snoc s c : reverse (s ++ String c "") = String c (reverse s).
Proof.
  unfold reverse. rewrite list_ascii_of_string_app, rev_app_distr. reflexivity.
Qed.

Lemma reverse_involutive s : reverse (reverse s) = s.
Proof.
  unfold reverse.
  rewrite list_ascii_of_string_of_list_ascii, rev_involutive.
  apply string_of_list_ascii_of_string.
Qed.

Lemma trimStart_clean s : startsClean (trimStart s).
Proof.
  induction s as [|c r IH]; [exact I|]. cbn [trimStart].
  destruct (isWhiteSpace c) eqn:E; [exact IH|exact E].
Qed.

Lemma trimStart_of_clean s : startsClean s -> trimStart s = s.
Proof. destruct s as [|c r]; [reflexivity|]. cbn. now intros ->. Qed.

Lemma trimStart_snoc s c :
  isWhiteSpace c = false ->
  exists y, trimStart (s ++ String c "") = (y ++ String c "")%string.
Proof.
  intros Hc. induction s as [|a s IH]; cbn [append trimStart].
  - rewrite Hc. now exists "".
  - destruct (isWhiteSpace a); [exact IH|].
    now exists (String a s).
Qed.

Lemma trimEnd_clean s : startsClean s -> startsClean (trimEnd s).
Proof.
  destruct s as [|c r]; [intros _; exact I|]. cbn [startsClean]. intros Hc.
  unfold trimEnd. rewrite reverse_cons.
  destruct (trimStart_snoc (reverse r) c Hc) as [y ->].
  rewrite reverse_snoc. exact Hc.
Qed.

Lemma trimEnd_idempotent s : trimEnd (trimEnd s) = trimEnd s.
Proof.
  unfold trimEnd. rewrite reverse_involutive.
  now rewrite (trimStart_of_clean _ (trimStart_clean _)).
Qed.

Lemma trim_idempotent s : trim (trim s) = trim s.
Proof.
  unfold trim.
  rewrite (trimStart_of_clean (trimEnd (trimStart s)))
    by apply trimEnd_clean, trimStart_clean.
  apply trimEnd_idempotent.
Qed.

Lemma allWhiteSpace_app a b :
  allWhiteSpace (a ++ b) = allWhiteSpace a && allWhiteSpace b.
Proof.
  induction a as [|c a IH]; cbn [append allWhiteSpace]; [reflexivity|].
  now rewrite IH, andb_assoc.
Qed.

Lemma reverse_app a b : reverse (a ++ b) = (reverse b ++ reverse a)%string.
Proof.
  induction a as [|c a IH]; cbn [append].
  - unfold reverse at 3. cbn. clear. induction (reverse b) as [|x r IH];
      cbn [append]; congruence.
  - rewrite !reverse_cons, IH. clear.
    induction (reverse b) as [|x r IH]; cbn [append]; congruence.
Qed.

Lemma allWhiteSpace_reverse s : allWhiteSpace (reverse s) = allWhiteSpace s.
Proof.
  induction s as [|c s IH]; [reflexivity|].
  rewrite reverse_cons, allWhiteSpace_app, IH. cbn [allWhiteSpace].
  rewrite andb_true_r. apply andb_comm.
Qed.

Lemma trimStart_split text :
  exists l, text = (l ++ trimStart text)%string /\ allWhiteSpace l = true.
Proof.
  induction text as [|c r (l & E & Hl)]; [now exists ""|].
  cbn [trimStart]. destruct (isWhiteSpace c) eqn:Ec.
  - exists (String c l). cbn [append allWhiteSpace]. now rewrite <- E, Ec, Hl.
  - now exists "".
Qed.

Lemma trimEnd_split text :
  exists r, text = (trimEnd text ++ r)%string /\ allWhiteSpace r = true.
Proof.
  destruct (trimStart_split (reverse text)) as (l & E & Hl).
  exists (reverse l). split; [|now rewrite allWhiteSpace_reverse].
  unfold trimEnd. rewrite <- reverse_app, <- E. symmetry. apply reverse_involutive.
Qed.

(** [trim] takes white space away at both ends and nothing else. *)
Lemma trim_split text :
  exists l r,
    text = (l ++ trim text ++ r)%string
    /\ allWhiteSpace l = true /\ allWhiteSpace r = true.
Proof.
  destruct (trimStart_split text) as (l & El & Hl).
  destruct (trimEnd_split (trimStart text)) as (r & Er & Hr).
  exists l, r. unfold trim. now rewrite <- Er, <- El.
Qed.

Lemma trimStart_blank text : allWhiteSpace text = true -> trimStart text = "".
Proof.
  induction text as [|c r IH]; [reflexivity|]. cbn [allWhiteSpace trimStart].
  intros H. apply andb_true_iff in H as [-> H]. now apply IH.
Qed.

(** The inputs [processRecovery] leaves out are those made of white space
    only. *)
Lemma trim_blank text :
  String.eqb (trim text) "" = allWhiteSpace text.
Proof.
  destruct (allWhiteSpace text) eqn:E.
  - unfold trim. now rewrite (trimStart_blank text E).
  - destruct (String.eqb_spec (trim text) "") as [E0|]; [|reflexivity].
    destruct (trim_split text) as (l & r & Et & Hl & Hr).
    rewrite E0 in Et. cbn [append] in Et.
    rewrite Et, allWhiteSpace_app, Hl, Hr in E. discriminate.
Qed.

Lemma trim_clean_ends text :
  startsClean (trim text) /\ startsClean (reverse (trim text)).
Proof.
  split.
  - apply trimEnd_clean, trimStart_clean.
  - unfold trim, trimEnd. rewrite reverse_involutive. apply trimStart_clean.
Qed.

(** X17. The shares [processRecovery] hands to [reconstructSecret] are the
    non-blank inputs, trimmed, in the order of the inputs: the inputs made
    of white space only are left out, every other input gives one share,
    with [id] 0 and with the input's text without the white space at its
    two ends (and without any other change).  So the text of a share is
    not empty, neither starts nor ends with white space, and is left as it
    is by [trim]. *)
Theorem sharesList_trimmed (st : AppState) :
  sharesList st
  = map (fun text => {| id := 0; data := trim text |})
      (filter (fun text => negb (allWhiteSpace text))
         (objectValues (recoveryShares st)))
  /\ (forall text,
        startsClean (trim text) /\ startsClean (reverse (trim text))
        /\ exists l r,
             text = (l ++ trim text ++ r)%string
             /\ allWhiteSpace l = true /\ allWhiteSpace r = true)
  /\ Forall (fun share =>
               id share = 0 /\ data share <> ""
               /\ trim (data share) = data share
               /\ startsClean (data share)
               /\ startsClean (reverse (data share)))
       (sharesList st)
  /\ (List.length (sharesList st) <= List.length (recoveryShares st))%nat.
Proof.
  unfold sharesList, objectValues. split; [|split; [|split]].
  - f_equal. apply filter_ext. intros text. now rewrite trim_blank.
  - intros text. destruct (trim_clean_ends text) as [H1 H2].
    split; [exact H1|]. split; [exact H2|]. apply trim_split.
  - apply Forall_forall. intros share Hs.
    apply in_map_iff in Hs as (text & <- & Ht).
    apply filter_In in Ht as [Hin Hb]. cbn [id data].
    destruct (trim_clean_ends text) as [H1 H2].
    split; [reflexivity|]. split.
    + intros E. rewrite E in Hb. discriminate.
    + split; [apply trim_idempotent|]. now split.
  - rewrite length_map.
    etransitivity; [apply filter_length_le|]. now rewrite length_map.
Qed.

(* ================================================================== *)
(** * [processRecovery]: what every run leaves alone *)
(* ================================================================== *)

Section RecoveryRuns.

Variable CryptoKey : Type.
Variable importKey : list byte -> outcome CryptoKey.
Variable aesGcmDecrypt : CryptoKey -> list byte -> list byte -> outcome (list byte).
Variable createObjectURL : list byte -> string -> string.

Local Notation run :=
  (processRecoveryOf CryptoKey importKey aesGcmDecrypt createObjectURL).

Lemma recoverFile_trace file shares :
  exists rest,
    fst (recoverFile CryptoKey importKey aesGcmDecrypt createObjectURL file shares)
    = CallReconstructSecret shares :: rest.
Proof. unfold recoverFile. apply tbind_call_trace. Qed.

(** X18. No exception escapes [processRecovery], and a run changes little:
    the configuration, the stored file and the share inputs are as
    before; the audit log keeps its entries and gains at most two; the
    busy flag is down again when it was down before; the download link
    changes only in a run that ends without an error message; and if any
    call was made, the first one was [reconstructSecret] on the trimmed
    inputs. *)
Theorem processRecovery_frame (revised : bool) (st : AppState) :
  (forall e, snd (run revised st) <> Throw e)
  /\ forall t st',
       run revised st = (t, Ok st') ->
       config st' = config st
       /\ encryptedFile st' = encryptedFile st
       /\ recoveryShares st' = recoveryShares st
       /\ (exists added,
             logs st' = (logs st ++ added)%list /\ (List.length added <= 2)%nat)
       /\ (isRecovering st = false -> isRecovering st' = false)
       /\ (recoveredFileUrl st' <> recoveredFileUrl st -> recoveryError st' = None)
       /\ (t = [] \/ exists rest, t = CallReconstructSecret (sharesList st) :: rest).
Proof.
  unfold processRecoveryOf.
  destruct (encryptedFile st) as [file|] eqn:Ef.
  2:{ split; [discriminate|]. intros t st' E. inversion E; subst; clear E.
      cbn. rewrite Ef. repeat split; auto.
      - exists []. rewrite app_nil_r. split; [reflexivity|simpl; lia].
      - intros H. now contradiction H. }
  destruct (Z.of_nat (List.length (sharesList st)) <? threshold (config st)).
  { split; [discriminate|]. intros t st' E. inversion E; subst; clear E.
    destruct revised; cbn; rewrite ?Ef; repeat split; auto;
      try (intros H; now contradiction H).
    - eexists. split; [reflexivity|]. simpl. lia.
    - exists []. rewrite app_nil_r. split; [reflexivity|simpl; lia]. }
  destruct (recoverFile_trace file (sharesList st)) as (rest & Ht).
  destruct (recoverFile _ _ _ _ file (sharesList st)) as [t0 [url|e|]];
    cbn [fst] in Ht; subst t0.
  - split; [discriminate|]. intros t st' E. inversion E; subst; clear E.
    cbn. rewrite ?Ef. repeat split; auto.
    + eexists. rewrite <- app_assoc. split; [reflexivity|]. simpl. lia.
    + right. now exists rest.
  - split; [discriminate|]. intros t st' E. inversion E; subst; clear E.
    destruct revised; cbn; rewrite ?Ef; repeat split; auto;
      try (intros H; now contradiction H);
      try (eexists; rewrite <- app_assoc; split; [reflexivity|]; simpl; lia);
      right; now exists rest.
  - split; [discriminate|]. intros t st' E. discriminate E.
Qed.

(** X19. Enough inputs, one of them malformed.  With a stored file and at
    least [threshold] non-blank inputs of which one does not parse,
    [processRecovery] calls [reconstructSecret] and nothing after it: no
    key is imported and nothing is decrypted.  It ends with the message
    "Decryption failed. ...", the busy flag down, and the download link
    and the stored file as they were. *)
Theorem processRecovery_malformed_share
    (revised : bool) (st : AppState) (file : EncryptedFile) (share : Share) :
  encryptedFile st = Some file ->
  threshold (config st) <= suppliedCount st ->
  In share (sharesList st) ->
  (forall p, parseShare share <> Ok p) ->
  exists st',
    run revised st = ([CallReconstructSecret (sharesList st)], Ok st')
    /\ recoveryError st'
       = Some "Decryption failed. Shares might be invalid or incorrect key reconstructed."
    /\ isRecovering st' = false
    /\ recoveredFileUrl st' = recoveredFileUrl st
    /\ encryptedFile st' = encryptedFile st.
Proof.
  intros Ef Hk Hin Hbad. unfold processRecoveryOf. rewrite Ef.
  rewrite sharesList_length.
  destruct (Z.ltb_spec (suppliedCount st) (threshold (config st))) as [L|_]; [lia|].
  unfold recoverFile, reconstructSecret.
  rewrite (mapM_parseShare_throws _ share Hin Hbad). cbn [bind call tbind].
  destruct revised; eexists; (split; [reflexivity|]); cbn; rewrite ?Ef; auto.
Qed.

End RecoveryRuns.

Lemma processRecovery_malformed_share_witness :
  exists st',
    processRecoveryOf (list byte) (fun raw => Ok raw) (fun _ _ data => Ok data)
      (fun _ _ => "blob:0") false
      (handleShareInput 1 "zz-11" (handleShareInput 3 "4-1" sampleState))
    = ([CallReconstructSecret
          (sharesList (handleShareInput 1 "zz-11" (handleShareInput 3 "4-1" sampleState)))],
       Ok st')
    /\ recoveryError st'
       = Some "Decryption failed. Shares might be invalid or incorrect key reconstructed."
    /\ isRecovering st' = false
    /\ recoveredFileUrl st'
       = recoveredFileUrl (handleShareInput 1 "zz-11" (handleShareInput 3 "4-1" sampleState))
    /\ encryptedFile st'
       = encryptedFile (handleShareInput 1 "zz-11" (handleShareInput 3 "4-1" sampleState)).
Proof.
  apply (processRecovery_malformed_share (list byte) (fun raw => Ok raw)
           (fun _ _ data => Ok data) (fun _ _ => "blob:0") false
           (handleShareInput 1 "zz-11" (handleShareInput 3 "4-1" sampleState))
           sampleFile (mkShare 0 "zz-11")).
  - reflexivity.
  - vm_compute. discriminate.
  - vm_compute. tauto.
  - intros p. apply parseShare_bad_first_digit. reflexivity.
Defined.

(* ================================================================== *)
(** * The configuration in every reachable state *)
(* ================================================================== *)

Lemma applyEvent_invariant st e :
  configInvariant (config st) ->
  eventsAllowed st [e] ->
  configInvariant (config (applyEvent st e))
  /\ encryptedFile (applyEvent st e) = encryptedFile st
  /\ recoveryShares (applyEvent st e) = recoveryShares st
  /\ List.length (logs (applyEvent st e)) = S (List.length (logs st)).
Proof.
  unfold configInvariant, rangeInputValue, MIN_SHARES, MAX_SHARES.
  intros (H2 & Hkn & Hn) [Hv _].
  destruct e as [value|value];
    cbn [applyEvent onChangeTotalShares onChangeThreshold addLog setConfig
         config logs encryptedFile recoveryShares totalShares threshold
         eventsAllowed] in *;
    unfold rangeInputValue, MIN_SHARES, MAX_SHARES in *;
    rewrite length_app, Nat.add_comm; cbn [List.length Nat.add];
    repeat split; trivial; lia.
Qed.

(** X20. However the two sliders are moved, one after the other and each
    within the range it has at that moment, the configuration keeps
    [2 <= threshold <= totalShares <= 10]; every move adds exactly one
    entry to the audit log, and none touches the stored file or the share
    inputs. *)
Theorem config_invariant_reachable (events : list ConfigEvent) (st : AppState) :
  configInvariant (config st) ->
  eventsAllowed st events ->
  configInvariant (config (runEvents st events))
  /\ encryptedFile (runEvents st events) = encryptedFile st
  /\ recoveryShares (runEvents st events) = recoveryShares st
  /\ List.length (logs (runEvents st events))
     = (List.length (logs st) + List.length events)%nat.
Proof.
  revert st. induction events as [|e events IH]; intros st Hinv Hall.
  - unfold runEvents. cbn [fold_left List.length]. rewrite Nat.add_0_r.
    split; [exact Hinv|]. now repeat split.
  - destruct Hall as [He Hall]. cbn [runEvents fold_left].
    destruct (applyEvent_invariant st e Hinv) as (Hinv' & Ef & Er & El).
    { split; [exact He|exact I]. }
    destruct (IH (applyEvent st e) Hinv' Hall) as (H1 & H2 & H3 & H4).
    unfold runEvents in *. rewrite H2, H3, H4, El, Ef, Er. cbn [List.length].
    split; [exact H1|]. repeat split; lia.
Qed.

Lemma config_invariant_reachable_witness :
  configInvariant
    (config (runEvents sampleState [MoveTotalShares 2; MoveThreshold 2; MoveTotalShares 9]))
  /\ encryptedFile
       (runEvents sampleState [MoveTotalShares 2; MoveThreshold 2; MoveTotalShares 9])
     = encryptedFile sampleState
  /\ recoveryShares
       (runEvents sampleState [MoveTotalShares 2; MoveThreshold 2; MoveTotalShares 9])
     = recoveryShares sampleState
  /\ List.length
       (logs (runEvents sampleState [MoveTotalShares 2; MoveThreshold 2; MoveTotalShares 9]))
     = (List.length (logs sampleState)
        + List.length [MoveTotalShares 2; MoveThreshold 2; MoveTotalShares 9])%nat.
Proof.
  apply (config_invariant_reachable
           [MoveTotalShares 2; MoveThreshold 2; MoveTotalShares 9] sampleState).
  - unfold configInvariant, MAX_SHARES. simpl. lia.
  - cbn [eventsAllowed applyEvent onChangeTotalShares onChangeThreshold addLog
         setConfig config totalShares threshold].
    unfold rangeInputValue, MIN_SHARES, MAX_SHARES. lia.
Defined.

(* ================================================================== *)
(** * The numbering of the ledger *)
(* ================================================================== *)

Lemma auditBlocks_shift n : forall (idxs : list nat) (entries : list AuditLog),
  map (fun entry : nat * AuditLog =>
         let (index, log) := entry in (Z.of_nat (S n) - Z.of_nat index, log))
    (combine (map S idxs) entries)
  = map (fun entry : nat * AuditLog =>
           let (index, log) := entry in (Z.of_nat n - Z.of_nat index, log))
      (combine idxs entries).
Proof.
  induction idxs as [|i idxs IH]; intros [|l entries]; try reflexivity.
  cbn [map combine]. rewrite IH. f_equal. f_equal. lia.
Qed.

Lemma auditBlocks_snoc logs newLog :
  auditBlocks (logs ++ [newLog])
  = (Z.of_nat (List.length logs) + 1, newLog) :: auditBlocks logs.
Proof.
  unfold auditBlocks. rewrite length_app, Nat.add_comm. cbn [List.length Nat.add].
  rewrite rev_app_distr. cbn [rev app seq combine map].
  rewrite <- seq_shift, auditBlocks_shift. f_equal. f_equal. lia.
Qed.

Lemma combine_snoc {A B : Type} (a : list A) : forall (b : list B) x y,
  List.length a = List.length b ->
  combine (a ++ [x]) (b ++ [y]) = (combine a b ++ [(x, y)])%list.
Proof.
  induction a as [|h a IH]; intros [|g b] x y Hl; try discriminate; [reflexivity|].
  cbn [app combine]. rewrite IH by (simpl in Hl; lia). reflexivity.
Qed.

(** X21. The ledger is shown newest first and numbered by position: the
    entries appear in reverse order, the entry logged as the [i]-th
    carries the number [i], and logging one more entry puts it on top
    with the next number without renumbering the others. *)
Theorem auditBlocks_numbering (logs : list AuditLog) (newLog : AuditLog) :
  auditBlocks logs
  = rev (combine (map Z.of_nat (seq 1 (List.length logs))) logs)
  /\ auditBlocks (logs ++ [newLog])
     = (Z.of_nat (List.length logs) + 1, newLog) :: auditBlocks logs.
Proof.
  split; [|apply auditBlocks_snoc].
  induction logs as [|l logs IH] using rev_ind; [reflexivity|].
  rewrite auditBlocks_snoc, IH, length_app, Nat.add_comm. cbn [List.length Nat.add].
  rewrite seq_S, map_app. cbn [map].
  rewrite combine_snoc by now rewrite length_map, length_seq.
  rewrite rev_app_distr. cbn [rev app]. f_equal. f_equal. lia.
Qed.

(* ================================================================== *)
(** * From encryption to recovery *)
(* ================================================================== *)

Lemma mapM_parseShare_relabel sel :
  mapM parseShare (map (fun s => {| id := 0; data := data s |}) sel)
  = mapM parseShare sel.
Proof.
  induction sel as [|s sel IH]; [reflexivity|].
  cbn [map mapM]. rewrite IH. reflexivity.
Qed.

Lemma reconstructSecret_relabel sel :
  reconstructSecret (map (fun s => {| id := 0; data := data s |}) sel)
  = reconstructSecret sel.
Proof. unfold reconstructSecret. now rewrite mapM_parseShare_relabel. Qed.

(** Inputs that, once trimmed, are the texts of shares are all kept. *)
Lemma sharesList_of_inputs st : forall sel,
  map trim (objectValues (recoveryShares st)) = map data sel ->
  Forall (fun s => data s <> "") sel ->
  sharesList st = map (fun s => {| id := 0; data := data s |}) sel.
Proof.
  unfold sharesList. generalize (objectValues (recoveryShares st)). intros texts.
  induction texts as [|text texts IH]; intros [|s sel] E Hne; try discriminate;
    [reflexivity|].
  cbn [map] in E. injection E as Et E.
  apply Forall_cons_iff in Hne as [Hs Hne].
  cbn [filter]. rewrite Et.
  destruct (String.eqb_spec (data s) "") as [E0|_]; [contradiction|].
  cbn [negb map]. rewrite Et, (IH sel E Hne). reflexivity.
Qed.

Lemma shareOfPoly_data_nonempty coeffs i : data (shareOfPoly coeffs i) <> "".
Proof.
  unfold shareOfPoly. cbn [data]. destruct (toString16 i); discriminate.
Qed.

Lemma ten_below_PRIME_MODULUS : MAX_SHARES < PRIME_MODULUS.
Proof. reflexivity. Qed.

Section FullFlow.

Variable CryptoKey : Type.
Variable generateKey : outcome CryptoKey.
Variable exportKey : CryptoKey -> outcome (list byte).
Variable digestSHA256 : list byte -> outcome (list byte).
Variable aesGcmEncrypt : CryptoKey -> list byte -> list byte -> outcome (list byte).
Variable importKey : list byte -> outcome CryptoKey.
Variable aesGcmDecrypt : CryptoKey -> list byte -> list byte -> outcome (list byte).
Variable createObjectURL : list byte -> string -> string.

(** What is assumed of WebCrypto: a raw key that was exported imports to
    the same key, and decryption under the key and IV of an encryption
    gives the plain data back. *)
Hypothesis importKey_exportKey :
  forall key raw, exportKey key = Ok raw -> importKey raw = Ok key.
Hypothesis decrypt_encrypt :
  forall key iv plain ciphertext,
    aesGcmEncrypt key iv plain = Ok ciphertext ->
    aesGcmDecrypt key iv ciphertext = Ok plain.

(** X22. The whole service, end to end.  A file is selected and the
    platform's operations succeed, with an exported key of at most 65
    bytes that does not start with a zero byte.  Then [processEncryption]
    stores the ciphertext in base64, the IV (the first 12 random bytes) in
    hexadecimal and the digest, and keeps [totalShares] shares; and
    whenever the texts of [threshold] or more distinct ones of these
    shares are typed into the share inputs (white space around them does
    not matter), [processRecovery] ends with a download link to exactly
    the bytes of the original file, without an error message. *)
Theorem encrypt_then_recover
    (revised : bool) (own : OwnerState) (st : AppState) (src : Entropy)
    (file : File) (key : CryptoKey) (raw digest ciphertext : list byte) :
  fileToUpload own = Some file ->
  configInvariant (config st) ->
  generateKey = Ok key ->
  exportKey key = Ok raw ->
  raw <> [] -> (List.length raw <= 65)%nat -> hd x00 raw <> x00 ->
  digestSHA256 (upload_content file) = Ok digest ->
  aesGcmEncrypt key (map src (seq 0 12)) (upload_content file) = Ok ciphertext ->
  exists run,
    processEncryptionOf CryptoKey generateKey exportKey digestSHA256 aesGcmEncrypt
      revised own st src = Ok run
    /\ alert run = None
    /\ encryptedFile (state_after run)
       = Some {| file_name := upload_name file;
                 file_type := upload_type file;
                 file_size := upload_size file;
                 file_data := bufferToBase64 ciphertext;
                 file_iv := bufferToHex (map src (seq 0 12));
                 file_hash := bufferToHex digest |}
    /\ Z.of_nat (List.length (generatedShares (owner_after run)))
       = totalShares (config st)
    /\ forall sel st0,
         NoDup sel ->
         incl sel (generatedShares (owner_after run)) ->
         threshold (config st) <= Z.of_nat (List.length sel) ->
         encryptedFile st0 = encryptedFile (state_after run) ->
         config st0 = config st ->
         map trim (objectValues (recoveryShares st0)) = map data sel ->
         exists t st1,
           processRecoveryOf CryptoKey importKey aesGcmDecrypt createObjectURL
             revised st0 = (t, Ok st1)
           /\ recoveredFileUrl st1
              = Some (createObjectURL (upload_content file) (upload_type file))
           /\ recoveryError st1 = None
           /\ isRecovering st1 = false.
Proof.
  intros Hfile (Hk2 & Hkn & Hn) Hgen Hexp Hne Hlen Hhd Hdig Henc.
  pose proof PRIME_MODULUS_pos as HP.
  pose proof ten_below_PRIME_MODULUS as H10.
  set (n := totalShares (config st)) in *.
  set (k := threshold (config st)) in *.
  set (src1 := fun i => src (12 + i)%nat).
  assert (Hs : BigInt0x (bufferToHex raw) = Ok (bytesValue raw)).
  { rewrite BigInt0x_hexValue.
    - now rewrite hexValue_bufferToHex.
    - apply (allChars_weaken isLowerHexDigit);
        [apply isLowerHexDigit_isHexDigit | apply bufferToHex_lowerHex].
    - intros E. apply (f_equal String.length) in E.
      rewrite bufferToHex_length in E. destruct raw; [contradiction|discriminate]. }
  destruct (split_reconstruct_any_secret _ _ n k src1 Hs) as (shares & src2 & E & Hsel);
    [lia|lia|].
  destruct (splitSecret_coeffs _ _ n k src1 Hs) as (drawn & src2' & E' & _ & _).
  rewrite E in E'. injection E' as Eshares _.
  assert (Hrun :
    encryptAndSplit CryptoKey generateKey exportKey digestSHA256 aesGcmEncrypt
      file (config st) src
    = Ok (({| file_name := upload_name file;
              file_type := upload_type file;
              file_size := upload_size file;
              file_data := bufferToBase64 ciphertext;
              file_iv := bufferToHex (map src (seq 0 12));
              file_hash := bufferToHex digest |}, shares, bufferToHex digest), src2)).
  { unfold encryptAndSplit, generateAESKey, encryptFile, getRandomValues, exportKeyToHex.
    rewrite Hgen. cbn [bind]. rewrite Hdig. cbn [bind]. rewrite Henc. cbn [bind].
    rewrite Hexp. cbn [bind]. fold n k. fold src1. rewrite E. reflexivity. }
  unfold processEncryptionOf. rewrite Hfile, Hrun.
  eexists. split; [reflexivity|]. cbn [alert state_after owner_after].
  split; [reflexivity|].
  split; [now destruct revised|].
  split.
  { assert (El : List.length shares = Z.to_nat n).
    { rewrite Eshares, length_map. unfold indices. now rewrite length_map, length_seq. }
    destruct revised; cbn; rewrite El; unfold MAX_SHARES in *; lia. }
  intros sel st0 Hnd Hincl Hcount Ef0 Ec0 Hin.
  assert (Hincl' : incl sel shares) by (destruct revised; exact Hincl).
  assert (Ef0' : encryptedFile st0
                 = Some {| file_name := upload_name file;
                           file_type := upload_type file;
                           file_size := upload_size file;
                           file_data := bufferToBase64 ciphertext;
                           file_iv := bufferToHex (map src (seq 0 12));
                           file_hash := bufferToHex digest |})
    by (rewrite Ef0; now destruct revised).
  clear Hincl Ef0.
  assert (Elist : sharesList st0 = map (fun s => {| id := 0; data := data s |}) sel).
  { apply sharesList_of_inputs; [exact Hin|].
    apply Forall_forall. intros s Hs0. apply Hincl' in Hs0. rewrite Eshares in Hs0.
    apply in_map_iff in Hs0 as (i & <- & _). apply shareOfPoly_data_nonempty. }
  assert (Ekey : reconstructSecret (sharesList st0) = Ok (evenHex (bytesValue raw))).
  { rewrite Elist, reconstructSecret_relabel, (Hsel sel Hnd Hincl' Hcount).
    pose proof (bytesValue_range raw) as Hb.
    assert (256 ^ Z.of_nat (List.length raw) <= 256 ^ Z.of_nat 65)
      by (apply Z.pow_le_mono_r; lia).
    pose proof two_pow_520. rewrite Z.mod_small by lia. reflexivity. }
  assert (Eraw : hexToBuffer (evenHex (bytesValue raw)) = raw).
  { rewrite hexToBuffer_evenHex_bytesValue.
    destruct raw as [|b rest]; [contradiction|]. now apply minimalBytes_nonzero_head. }
  unfold processRecoveryOf. rewrite Ef0', Ec0. fold k.
  destruct (Z.ltb_spec (Z.of_nat (List.length (sharesList st0))) k) as [L|_].
  { rewrite Elist, length_map in L. lia. }
  unfold recoverFile, importKeyFromHex, decryptFile. cbn [file_data file_iv file_type file_hash].
  rewrite Ekey. cbn [call tbind]. rewrite Eraw, (importKey_exportKey key raw Hexp).
  cbn [call tbind]. rewrite base64ToBuffer_bufferToBase64. cbn [call tbind].
  rewrite hexToBuffer_bufferToHex, (decrypt_encrypt _ _ _ _ Henc). cbn [call tbind ret].
  eexists _, _. split; [reflexivity|]. now destruct revised.
Qed.

End FullFlow.

Lemma encrypt_then_recover_witness :
  exists run,
    processEncryptionOf (list byte) (Ok sampleRawKey) (fun key => Ok key)
      (fun _ => Ok [xab]) (fun _ _ plain => Ok plain)
      false sampleOwner sampleState sampleSrc = Ok run
    /\ alert run = None
    /\ encryptedFile (state_after run)
       = Some {| file_name := upload_name sampleUpload;
                 file_type := upload_type sampleUpload;
                 file_size := upload_size sampleUpload;
                 file_data := bufferToBase64 [x01; x02; x03];
                 file_iv := bufferToHex (map sampleSrc (seq 0 12));
                 file_hash := bufferToHex [xab] |}
    /\ Z.of_nat (List.length (generatedShares (owner_after run)))
       = totalShares (config sampleState)
    /\ forall sel st0,
         NoDup sel ->
         incl sel (generatedShares (owner_after run)) ->
         threshold (config sampleState) <= Z.of_nat (List.length sel) ->
         encryptedFile st0 = encryptedFile (state_after run) ->
         config st0 = config sampleState ->
         map trim (objectValues (recoveryShares st0)) = map data sel ->
         exists t st1,
           processRecoveryOf (list byte) (fun raw => Ok raw)
             (fun _ _ data => Ok data) (fun _ _ => "blob:0")
             false st0 = (t, Ok st1)
           /\ recoveredFileUrl st1
              = Some ((fun (_ : list byte) (_ : string) => "blob:0")
                        (upload_content sampleUpload) (upload_type sampleUpload))
           /\ recoveryError st1 = None
           /\ isRecovering st1 = false.
Proof.
  apply (encrypt_then_recover (list byte) (Ok sampleRawKey) (fun key => Ok key)
           (fun _ => Ok [xab]) (fun _ _ plain => Ok plain)
           (fun raw => Ok raw) (fun _ _ data => Ok data) (fun _ _ => "blob:0")
           ltac:(intros key raw H; inversion H; reflexivity)
           ltac:(intros key iv plain ciphertext H; inversion H; reflexivity)
           false sampleOwner sampleState sampleSrc sampleUpload
           sampleRawKey sampleRawKey [xab] [x01; x02; x03]).
  - reflexivity.
  - unfold configInvariant, MAX_SHARES. simpl. lia.
  - reflexivity.
  - reflexivity.
  - discriminate.
  - simpl. lia.
  - discriminate.
  - reflexivity.
  - reflexivity.
Defined.

(* ================================================================== *)
(** * [processEncryption]: what every run leaves behind *)
(* ================================================================== *)

Section EncryptionRuns.

Variable CryptoKey : Type.
Variable generateKey : outcome CryptoKey.
Variable exportKey : CryptoKey -> outcome (list byte).
Variable digestSHA256 : list byte -> outcome (list byte).
Variable aesGcmEncrypt : CryptoKey -> list byte -> list byte -> outcome (list byte).

Local Notation encryption :=
  (processEncryptionOf CryptoKey generateKey exportKey digestSHA256 aesGcmEncrypt).



End EncryptionRuns.

(* ================================================================== *)
(** * Between the two flows *)
(* ================================================================== *)

Section BetweenFlows.

Variable CryptoKey : Type.
Variable importKey : list byte -> outcome CryptoKey.
Variable aesGcmDecrypt : CryptoKey -> list byte -> list byte -> outcome (list byte).
Variable createObjectURL : list byte -> string -> string.

Local Notation recovery :=
  (processRecoveryOf CryptoKey importKey aesGcmDecrypt createObjectURL).

(** X24. The recovery flow checks the number of inputs and nothing else.
    With a stored file and at least [threshold] non-blank inputs that all
    parse, [reconstructSecret] always returns a key text and the flow goes
    on to import it: the share texts may repeat, and their number need
    not be the threshold the key was split with. *)
Theorem processRecovery_imports_whatever_parses
    (revised : bool) (st : AppState) (file : EncryptedFile) (points : list Point) :
  encryptedFile st = Some file ->
  threshold (config st) <= suppliedCount st ->
  mapM parseShare (sharesList st) = Ok points ->
  exists keyHex rest,
    reconstructSecret (sharesList st) = Ok keyHex
    /\ fst (recovery revised st)
       = CallReconstructSecret (sharesList st) :: CallImportKeyFromHex keyHex :: rest.
Proof.
  intros Ef Hk Hp.
  pose proof (reconstructSecret_closed _ _ Hp) as Ekey.
  eexists _. unfold processRecoveryOf. rewrite Ef, sharesList_length.
  destruct (Z.ltb_spec (suppliedCount st) (threshold (config st))) as [L|_]; [lia|].
  unfold recoverFile. rewrite Ekey. cbn [call tbind].
  destruct (importKeyFromHex _ _ _) as [key|e|]; cbn [call tbind];
    [| eexists; split; reflexivity | eexists; split; reflexivity].
  destruct (base64ToBuffer _) as [ct|e|]; cbn [call tbind];
    [| eexists; split; reflexivity | eexists; split; reflexivity].
  destruct (decryptFile _ _ _ _ _) as [plain|e|]; cbn [call tbind ret app fst];
    eexists; split; reflexivity.
Qed.

End BetweenFlows.

Lemma processRecovery_imports_whatever_parses_witness :
  exists keyHex rest,
    reconstructSecret
      (sharesList (handleShareInput 1 "1-5" (handleShareInput 2 "1-5" sampleState)))
    = Ok keyHex
    /\ fst (processRecoveryOf (list byte) (fun raw => Ok raw)
              (fun _ _ data => Ok data) (fun _ _ => "blob:0") false
              (handleShareInput 1 "1-5" (handleShareInput 2 "1-5" sampleState)))
       = CallReconstructSecret
           (sharesList (handleShareInput 1 "1-5" (handleShareInput 2 "1-5" sampleState)))
         :: CallImportKeyFromHex keyHex :: rest.
Proof.
  apply (processRecovery_imports_whatever_parses (list byte) (fun raw => Ok raw)
           (fun _ _ data => Ok data) (fun _ _ => "blob:0") false
           (handleShareInput 1 "1-5" (handleShareInput 2 "1-5" sampleState))
           sampleFile [mkPoint 1 5; mkPoint 1 5; mkPoint 1 5]).
  - reflexivity.
  - vm_compute. discriminate.
  - reflexivity.
Defined.

Section Revisions.

Variable CryptoKey : Type.
Variable importKey : list byte -> outcome CryptoKey.
Variable aesGcmDecrypt : CryptoKey -> list byte -> list byte -> outcome (list byte).
Variable createObjectURL : list byte -> string -> string.

(** X25. The two revisions of [processRecovery] differ in their audit
    records only: on every state they make the same calls, and they end
    in states with the same configuration, stored file, share inputs,
    download link, busy flag and error message. *)
Theorem processRecovery_revisions_agree (st : AppState) :
  let first := processRecovery CryptoKey importKey aesGcmDecrypt createObjectURL st in
  let second :=
    processRecovery_revised CryptoKey importKey aesGcmDecrypt createObjectURL st in
  fst first = fst second
  /\ match snd first, snd second with
     | Ok a, Ok b =>
         config a = config b
         /\ encryptedFile a = encryptedFile b
         /\ recoveryShares a = recoveryShares b
         /\ recoveredFileUrl a = recoveredFileUrl b
         /\ isRecovering a = isRecovering b
         /\ recoveryError a = recoveryError b
     | OutOfFuel, OutOfFuel => True
     | _, _ => False
     end.
Proof.
  cbv zeta. unfold processRecovery, processRecovery_revised, processRecoveryOf.
  destruct (encryptedFile st) as [file|]; [|now cbn].
  destruct (_ <? _); [now cbn|].
  destruct (recoverFile _ _ _ _ file (sharesList st)) as [t [url|e|]]; now cbn.
Qed.

End Revisions.

(* ================================================================== *)
(** * A share whose [y] was changed *)
(* ================================================================== *)

Lemma lagrangeTerm_px p others others' :
  map px others = map px others' ->
  lagrangeTerm p others = lagrangeTerm p others'.
Proof.
  intros E. unfold lagrangeTerm, numeratorOf, denominatorOf.
  rewrite <- (map_map px (fun x => (x - px p) mod PRIME_MODULUS) others).
  rewrite <- (map_map px (fun x => (x - px p) mod PRIME_MODULUS) others').
  now rewrite E.
Qed.

Lemma lagrangeSumFrom_px l : forall pre pre',
  map px pre = map px pre' ->
  lagrangeSumFrom pre l = lagrangeSumFrom pre' l.
Proof.
  induction l as [|p l IH]; intros pre pre' E; [reflexivity|].
  cbn [lagrangeSumFrom]. f_equal.
  - apply lagrangeTerm_px. now rewrite !map_app, E.
  - apply IH. now rewrite !map_app, E.
Qed.

Lemma lagrangeSumFrom_replace p p' l2 :
  px p = px p' ->
  forall l1 pre,
    lagrangeSumFrom pre (l1 ++ p :: l2) - lagrangeSumFrom pre (l1 ++ p' :: l2)
    = lagrangeTerm p (pre ++ l1 ++ l2) - lagrangeTerm p' (pre ++ l1 ++ l2).
Proof.
  intros Ex. induction l1 as [|a l1 IH]; intros pre; cbn [app lagrangeSumFrom].
  - rewrite (lagrangeSumFrom_px l2 (pre ++ [p]) (pre ++ [p'])); [ring|].
    rewrite !map_app. cbn [map]. now rewrite Ex.
  - rewrite (lagrangeTerm_px a (pre ++ l1 ++ p :: l2) (pre ++ l1 ++ p' :: l2)).
    2:{ rewrite !map_app. cbn [map]. now rewrite Ex. }
    specialize (IH (pre ++ [a])%list). rewrite <- !app_assoc in IH. cbn [app] in IH.
    lia.
Qed.

Lemma lagrangeTerm_weight_nonzero xj others :
  Forall (fun o => px o mod PRIME_MODULUS <> 0) others ->
  Forall (fun o => (px o - xj) mod PRIME_MODULUS <> 0) others ->
  (numeratorOf others * inverseOf (denominatorOf xj others)) mod PRIME_MODULUS <> 0.
Proof.
  intros Hx Hd. pose proof PRIME_MODULUS_gt1 as HP.
  apply prime_field_no_zero_divisors.
  - unfold numeratorOf. rewrite Zmod_mod. apply prodZ_nonzero.
    apply Forall_map. exact Hx.
  - intros E. pose proof (inverse_cancels xj others Hd) as Hc.
    rewrite Zmult_mod, E, Z.mul_0_l, Z.mod_0_l in Hc by lia. discriminate.
Qed.

(** X26. Every share counts.  Take shares that parse, one of which has an
    [x] different (modulo [P]) from the [x] of every other one, the others
    having [x] not zero modulo [P].  Replacing that share by one with the
    same [x] and another [y] (modulo [P]) changes the value
    [reconstructSecret] returns: a wrong [y] never goes unnoticed in the
    result, though no error is raised either. *)
Theorem reconstructSecret_changed_share
    (shares shares' : list Share) (l1 l2 : list Point) (p p' : Point) :
  mapM parseShare shares = Ok (l1 ++ p :: l2)%list ->
  mapM parseShare shares' = Ok (l1 ++ p' :: l2)%list ->
  px p = px p' ->
  py p mod PRIME_MODULUS <> py p' mod PRIME_MODULUS ->
  Forall (fun o => px o mod PRIME_MODULUS <> 0) (l1 ++ l2) ->
  Forall (fun o => (px o - px p) mod PRIME_MODULUS <> 0) (l1 ++ l2) ->
  exists hex hex',
    reconstructSecret shares = Ok hex
    /\ reconstructSecret shares' = Ok hex'
    /\ hexValue hex <> hexValue hex'.
Proof.
  intros E E' Ex Ey Hx Hd. pose proof PRIME_MODULUS_pos as HP.
  eexists _, _. split; [apply (reconstructSecret_closed _ _ E)|].
  split; [apply (reconstructSecret_closed _ _ E')|].
  rewrite !hexValue_evenHex by (apply Z.mod_pos_bound; lia).
  unfold lagrangeSum. intros Heq.
  apply cong_iff_divide in Heq.
  rewrite (lagrangeSumFrom_replace p p' l2 Ex l1 []) in Heq. cbn [app] in Heq.
  replace (lagrangeTerm p (l1 ++ l2) - lagrangeTerm p' (l1 ++ l2))
    with ((py p - py p')
          * (numeratorOf (l1 ++ l2) * inverseOf (denominatorOf (px p) (l1 ++ l2))))
    in Heq by (unfold lagrangeTerm; rewrite <- Ex; ring).
  apply Z.mod_divide in Heq; [|lia].
  revert Heq. apply prime_field_no_zero_divisors.
  - intros H0. apply Ey. apply cong_iff_divide. apply Z.mod_divide; [lia|exact H0].
  - now apply lagrangeTerm_weight_nonzero.
Qed.

Lemma reconstructSecret_changed_share_witness :
  exists hex hex',
    reconstructSecret threeShares = Ok hex
    /\ reconstructSecret [mkShare 1 "1-1f"; mkShare 2 "2-a4"; mkShare 3 "3-1c5"] = Ok hex'
    /\ hexValue hex <> hexValue hex'.
Proof.
  apply (reconstructSecret_changed_share threeShares
           [mkShare 1 "1-1f"; mkShare 2 "2-a4"; mkShare 3 "3-1c5"]
           [mkPoint 1 31] [mkPoint 3 453] (mkPoint 2 163) (mkPoint 2 164)).
  - reflexivity.
  - reflexivity.
  - reflexivity.
  - vm_compute. discriminate.
  - repeat (constructor; [vm_compute; discriminate|]). constructor.
  - repeat (constructor; [vm_compute; discriminate|]). constructor.
Defined.
